(** * Indus-12 autonomous operations platform: a shallow embedding

    The control plane of the repository (circuit breaker, idempotency
    registry, incident manager, invariant engine with its drift scorer,
    security engine, health scorer and safe-mode middleware) is embedded
    function by function.  Asynchronous code is written in explicit
    state-passing style: every database statement is one atomic step on a
    finite map, every reading of [Date.now()] is an argument, and the outcome
    of a callable or of a query that may be rejected is an input of the model.
    Logging has no influence on any state below and is left out.

    The file is organised as the sources are: one module of definitions per
    source file, followed by the properties proved about them. *)

From Stdlib Require Import ZArith QArith Qround Qabs Reals Lra Lia.
From Stdlib Require Lqa.
From stdpp Require Import gmap strings list pretty sorting.

Close Scope Q_scope.
Close Scope R_scope.
Open Scope Z_scope.

(** The outcome of awaiting a promise: it resolves with a value or it is
    rejected (the awaiting code sees an exception). *)
Inductive Query (A : Type) : Type :=
  | Resolved (a : A)
  | Rejected.
Arguments Resolved {A} a.
Arguments Rejected {A}.

(** A JavaScript number idealised as a real number, or NaN.  Reals and
    integers are read as numbers. *)
Inductive JsNumber :=
  | Num (x : R)
  | NaN.

Definition of_Z (z : Z) : JsNumber := Num (IZR z).

Coercion Num : R >-> JsNumber.
Coercion of_Z : Z >-> JsNumber.

(** Alert severities shared by the metric thresholds, the incident manager
    and the health scorer. *)
Inductive Severity := LOW | MEDIUM | HIGH | CRITICAL.

#[global] Instance Severity_eq_dec : EqDecision Severity.
Proof. solve_decision. Defined.

(* ===================================================================== *)
(** ** autonomous/self-healing-core.ts: circuit breaker *)
(* ===================================================================== *)

(** The counters and gauges the breaker reports to the metrics registry
    ([circuit_breaker.<name>.failure], [circuit_breaker.<name>.state]) have
    no declared threshold and are not read back; they are left out. *)

Module CircuitBreaker.

Inductive CircuitState := CLOSED | OPEN | HALF_OPEN.

#[global] Instance CircuitState_eq_dec : EqDecision CircuitState.
Proof. solve_decision. Defined.

(** The read-only constructor parameters. *)
Record Config := {
  failureThreshold : Z;
  resetTimeoutMs   : Z;
  halfOpenProbes   : Z;
}.

(** The defaults of the constructor: 5 failures, 30 s, 2 probes. *)
Definition defaults : Config :=
  {| failureThreshold := 5; resetTimeoutMs := 30000; halfOpenProbes := 2 |}.

(** The private mutable fields. *)
Record Breaker := {
  state           : CircuitState;
  failureCount    : Z;
  successCount    : Z;
  lastStateChange : Z;
}.

(** A freshly constructed breaker; [t] is [Date.now()] at construction. *)
Definition create (t : Z) : Breaker :=
  {| state := CLOSED; failureCount := 0; successCount := 0;
     lastStateChange := t |}.

(** What the caller of [call] observes: [fn] was invoked and resolved, [fn]
    was invoked and its error rethrown, or the breaker refused the call
    without invoking [fn]. *)
Inductive CallResult := Returned | Rethrown | RejectedOpen.

Definition transitionTo (now : Z) (s : CircuitState) (b : Breaker) : Breaker :=
  {| state := s; failureCount := failureCount b;
     successCount := successCount b; lastStateChange := now |}.

Definition onSuccess (cfg : Config) (now : Z) (b : Breaker) : Breaker :=
  let b1 := {| state := state b; failureCount := 0;
               successCount := successCount b;
               lastStateChange := lastStateChange b |} in
  match state b1 with
  | HALF_OPEN =>
      let b2 := {| state := state b1; failureCount := failureCount b1;
                   successCount := successCount b1 + 1;
                   lastStateChange := lastStateChange b1 |} in
      if halfOpenProbes cfg <=? successCount b2 then
        let b3 := transitionTo now CLOSED b2 in
        {| state := state b3; failureCount := failureCount b3;
           successCount := 0; lastStateChange := lastStateChange b3 |}
      else b2
  | _ => b1
  end.

Definition onFailure (cfg : Config) (now : Z) (b : Breaker) : Breaker :=
  let b1 := {| state := state b; failureCount := failureCount b + 1;
               successCount := successCount b;
               lastStateChange := lastStateChange b |} in
  if failureThreshold cfg <=? failureCount b1 then transitionTo now OPEN b1
  else b1.

(** [call fn]: [t0] is the clock when the call enters, [t1] the clock when
    [fn] has settled; [ok] tells whether [fn] resolved. *)
Definition call (cfg : Config) (t0 t1 : Z) (ok : bool) (b : Breaker)
  : Breaker * CallResult :=
  let gate : option Breaker :=
    match state b with
    | OPEN =>
        if resetTimeoutMs cfg <? t0 - lastStateChange b
        then Some (transitionTo t0 HALF_OPEN b)
        else None
    | _ => Some b
    end in
  match gate with
  | None => (b, RejectedOpen)
  | Some b' =>
      if ok then (onSuccess cfg t1 b', Returned)
      else (onFailure cfg t1 b', Rethrown)
  end.

Definition getState (b : Breaker) : CircuitState := state b.

(** A sequence of calls, each with its two clock readings and the outcome
    of its callable, where every call has settled before the next one
    enters. *)
Fixpoint calls (cfg : Config) (l : list (Z * Z * bool)) (b : Breaker) : Breaker :=
  match l with
  | [] => b
  | (t0, t1, ok) :: l' => calls cfg l' (fst (call cfg t0 t1 ok b))
  end.

(** [call] is an async function and the breakers are shared singletons, so
    calls overlap: a call runs its gate when it is entered, awaits its
    callable, and runs [onSuccess] or [onFailure] when the callable has
    settled; other calls enter and settle in between. *)
Inductive Event :=
  | Enter (t0 : Z)
  | Settle (ok : bool) (t1 : Z).

(** The part of [call] before the [await]: [None] when the call is
    refused. *)
Definition enter (cfg : Config) (t0 : Z) (b : Breaker) : option Breaker :=
  match state b with
  | OPEN =>
      if resetTimeoutMs cfg <? t0 - lastStateChange b
      then Some (transitionTo t0 HALF_OPEN b)
      else None
  | _ => Some b
  end.

(** The part of [call] after the [await]. *)
Definition settle (cfg : Config) (ok : bool) (t1 : Z) (b : Breaker) : Breaker :=
  if ok then onSuccess cfg t1 b else onFailure cfg t1 b.

(** The breaker together with the number of calls that wait for their
    callable. *)
Record Running := {
  breaker : Breaker;
  pending : nat;
}.

(** One event of a schedule; a callable cannot settle when no call is
    waiting, such a schedule is none of the program's. *)
Definition step (cfg : Config) (e : Event) (r : Running) : option Running :=
  match e with
  | Enter t0 =>
      match enter cfg t0 (breaker r) with
      | Some b' => Some {| breaker := b'; pending := S (pending r) |}
      | None => Some r
      end
  | Settle ok t1 =>
      match pending r with
      | O => None
      | S n => Some {| breaker := settle cfg ok t1 (breaker r); pending := n |}
      end
  end.

Fixpoint schedule (cfg : Config) (l : list Event) (r : Running) : option Running :=
  match l with
  | [] => Some r
  | e :: l' =>
      match step cfg e r with
      | Some r' => schedule cfg l' r'
      | None => None
      end
  end.

(** The events of calls that do not overlap: a refused call leaves no
    callable to settle. *)
Fixpoint one_by_one (cfg : Config) (l : list (Z * Z * bool)) (b : Breaker)
  : list Event :=
  match l with
  | [] => []
  | (t0, t1, ok) :: l' =>
      match enter cfg t0 b with
      | Some _ =>
          Enter t0 :: Settle ok t1
          :: one_by_one cfg l' (fst (call cfg t0 t1 ok b))
      | None => Enter t0 :: one_by_one cfg l' b
      end
  end.

(** What every schedule keeps of the counters. *)
Definition counters_ok (cfg : Config) (b : Breaker) : Prop :=
  0 <= failureCount b /\ 0 <= successCount b /\
  (state b = CLOSED -> failureCount b < failureThreshold cfg) /\
  (successCount b = 0 \/ successCount b < halfOpenProbes cfg).

End CircuitBreaker.

(* ===================================================================== *)
(** ** autonomous/self-healing-core.ts: idempotency registry *)
(* ===================================================================== *)

Module Idempotency.

(** A row of [idempotency_keys]; the primary key [id] is the map key.
    Timestamps are in milliseconds. *)
Record Row := {
  response_body : option string;
  status_code   : option Z;
  expires_at    : Z;
  locked        : bool;
  locked_at     : option Z;
}.

(** What the callable produces when it is run. *)
Inductive FnOutcome :=
  | FnOk (statusCode : Z) (body : string)
  | FnThrow.

(** What [execute] hands back to its caller. *)
Inductive ExecResult :=
  | Result (cached : bool) (statusCode : option Z) (body : option string)
  | Thrown.

(** The suspension points of one invocation of [execute]: each [await]
    is a point where other callers may run. *)
Inductive Pc :=
  | AtLookup
  | AtSleep
  | AtInsert
  | AtFn
  | AtUpdate (statusCode : Z) (body : string)
  | AtDelete
  | Finished (r : ExecResult).

(** The shared world: the table and the number of times a callable has
    been invoked for the key so far. *)
Record World := {
  db          : gmap string Row;
  invocations : nat;
}.

(** [SELECT ... WHERE id = key AND expires_at > NOW()]. *)
Definition lookup_live (key : string) (now : Z) (d : gmap string Row) : option Row :=
  match d !! key with
  | Some r => if now <? expires_at r then Some r else None
  | None => None
  end.

(** [INSERT ... ON CONFLICT (id) DO NOTHING]: the new table and the number
    of rows inserted. *)
Definition insert_lock (key : string) (now ttlSeconds : Z) (d : gmap string Row)
  : gmap string Row * Z :=
  match d !! key with
  | Some _ => (d, 0)
  | None =>
      (<[key := {| response_body := None; status_code := None;
                   expires_at := now + ttlSeconds * 1000; locked := true;
                   locked_at := Some now |}]> d, 1)
  end.

(** [UPDATE ... SET response_body, status_code, locked = FALSE WHERE id]. *)
Definition store_response (key : string) (sc : Z) (body : string)
  (d : gmap string Row) : gmap string Row :=
  alter (fun r => {| response_body := Some body; status_code := Some sc;
                     expires_at := expires_at r; locked := false;
                     locked_at := locked_at r |}) key d.

(** One step of one caller of [execute key fn ttl] at clock [now]. *)
Definition step (key : string) (ttlSeconds : Z) (fn : FnOutcome) (now : Z)
  (pc : Pc) (w : World) : Pc * World :=
  match pc with
  | AtLookup =>
      match lookup_live key now (db w) with
      | Some r =>
          if locked r then (AtSleep, w)
          else (Finished (Result true (status_code r) (response_body r)), w)
      | None => (AtInsert, w)
      end
  | AtSleep => (AtLookup, w)
  | AtInsert =>
      let '(d, _) := insert_lock key now ttlSeconds (db w) in
      (AtFn, {| db := d; invocations := invocations w |})
  | AtFn =>
      let w' := {| db := db w; invocations := S (invocations w) |} in
      match fn with
      | FnOk sc body => (AtUpdate sc body, w')
      | FnThrow => (AtDelete, w')
      end
  | AtUpdate sc body =>
      (Finished (Result false (Some sc) (Some body)),
       {| db := store_response key sc body (db w);
          invocations := invocations w |})
  | AtDelete =>
      (Finished Thrown,
       {| db := delete key (db w); invocations := invocations w |})
  | Finished r => (Finished r, w)
  end.

(** Several callers of [execute] with the same key and callable, and a
    schedule: at each tick (clock reading, caller index) one caller
    takes one step. *)
Record System := {
  world   : World;
  callers : list Pc;
}.

Definition tick (key : string) (ttlSeconds : Z) (fn : FnOutcome)
  (ev : Z * nat) (s : System) : System :=
  let '(now, i) := ev in
  match callers s !! i with
  | Some pc =>
      let '(pc', w') := step key ttlSeconds fn now pc (world s) in
      {| world := w'; callers := <[i := pc']> (callers s) |}
  | None => s
  end.

Definition run (key : string) (ttlSeconds : Z) (fn : FnOutcome)
  (sched : list (Z * nat)) (s : System) : System :=
  fold_left (fun s ev => tick key ttlSeconds fn ev s) sched s.

Definition start (n : nat) : System :=
  {| world := {| db := ∅; invocations := 0 |};
     callers := replicate n AtLookup |}.

End Idempotency.

(* ===================================================================== *)
(** ** autonomous/incident-manager.ts *)
(* ===================================================================== *)

(** The payload handed to the alert transport. *)
Record Alert := {
  alert_severity : Severity;
  alert_title    : string;
  alert_body     : string;
}.

(** The line feed of a template literal. *)
Definition newline : string := String (Ascii.ascii_of_nat 10) EmptyString.

(** The double quote of a JSON text. *)
Definition quote : string := String (Ascii.ascii_of_nat 34) EmptyString.

(** A value of a loosely typed JSON bag ([details]). *)
#[warnings="-register-all"]
Inductive Json :=
  | JNull
  | JStr (s : string)
  | JNum (n : Z)
  | JArr (items : list Json)
  | JObj (members : list (string * Json)).

Module Incident.

Inductive IncidentPriority := P1 | P2 | P3 | P4.
Inductive IncidentStatus := OPEN | AUTO_HEALING | ESCALATED | RESOLVED | CLOSED.

#[global] Instance IncidentPriority_eq_dec : EqDecision IncidentPriority.
Proof. solve_decision. Defined.
#[global] Instance IncidentStatus_eq_dec : EqDecision IncidentStatus.
Proof. solve_decision. Defined.

Definition MAX_AUTO_HEAL_ATTEMPTS : Z := 3.
Definition ESCALATE_AFTER_MS : Z := 15 * 60 * 1000.

(** A row of [incidents]; the primary key [id] is the map key. *)
Record StoredIncident := {
  priority           : IncidentPriority;
  status             : IncidentStatus;
  title              : string;
  invariant          : option string;
  details            : list (string * Json);
  forensic_snapshot  : option (list (string * Json));
  auto_heal_attempts : Z;
  auto_healed        : bool;
  resolved_reason    : option string;
  created_at         : Z;
  updated_at         : Z;
  resolved_at        : option Z;
  escalated_at       : option Z;
}.

(** The table together with the alerts sent so far (oldest first). *)
Record Store := {
  incidents : gmap string StoredIncident;
  alerts    : list Alert;
}.

Definition priority_name (p : IncidentPriority) : string :=
  match p with P1 => "P1" | P2 => "P2" | P3 => "P3" | P4 => "P4" end.

Definition terminal (s : IncidentStatus) : bool :=
  match s with RESOLVED | CLOSED => true | _ => false end.

(** Modelled from the spec: [alertWebhook] of monitoring/alerts.ts, which
    is not among the sources.  The specification gives its wire contract,
    [alertWebhook({severity, title, body, ...})]; the model appends the
    payload to the alerts sent so far. *)
Definition alertWebhook (a : Alert) (st : Store) : Store :=
  {| incidents := incidents st; alerts := alerts st ++ [a] |}.

(** [createIncident]: [id] is the identifier the table generates for the
    new row, [forensic] the snapshot captured just before the insert and
    [body] the rendering of [details] sent with the alert. *)
Definition createIncident (now : Z) (id : string)
  (forensic : list (string * Json)) (body : string)
  (prio : IncidentPriority) (ttl : string) (inv : option string)
  (dets : list (string * Json)) (st : Store) : string * Store :=
  let row := {| priority := prio; status := OPEN; title := ttl;
                invariant := inv; details := dets;
                forensic_snapshot := Some forensic;
                auto_heal_attempts := 0; auto_healed := false;
                resolved_reason := None; created_at := now;
                updated_at := now; resolved_at := None;
                escalated_at := None |} in
  let severity := match prio with
                  | P1 => CRITICAL | P2 => HIGH | P3 => MEDIUM | P4 => LOW
                  end in
  (id,
   alertWebhook
     {| alert_severity := severity;
        alert_title := "[" +:+ priority_name prio +:+ "] " +:+ ttl;
        alert_body := body |}
     {| incidents := <[id := row]> (incidents st); alerts := alerts st |}).

(** [UPDATE ... SET status = 'RESOLVED', ... WHERE id = incidentId
    AND status NOT IN ('RESOLVED','CLOSED')]. *)
Definition autoResolve (now : Z) (incidentId reason : string) (st : Store) : Store :=
  {| incidents :=
       alter (fun inc =>
                if terminal (status inc) then inc
                else {| priority := priority inc; status := RESOLVED;
                        title := title inc; invariant := invariant inc;
                        details := details inc;
                        forensic_snapshot := forensic_snapshot inc;
                        auto_heal_attempts := auto_heal_attempts inc;
                        auto_healed := true;
                        resolved_reason := Some reason;
                        created_at := created_at inc; updated_at := now;
                        resolved_at := Some now;
                        escalated_at := escalated_at inc |})
             incidentId (incidents st);
     alerts := alerts st |}.

(** The row after [SET status = 'ESCALATED', escalated_at = NOW(),
    updated_at = NOW()]. *)
Definition escalated_row (now : Z) (inc : StoredIncident) : StoredIncident :=
  {| priority := priority inc; status := ESCALATED; title := title inc;
     invariant := invariant inc; details := details inc;
     forensic_snapshot := forensic_snapshot inc;
     auto_heal_attempts := auto_heal_attempts inc;
     auto_healed := auto_healed inc; resolved_reason := resolved_reason inc;
     created_at := created_at inc; updated_at := now;
     resolved_at := resolved_at inc; escalated_at := Some now |}.

Definition escalate (now : Z) (incidentId reason : string) (st : Store) : Store :=
  match incidents st !! incidentId with
  | None => st
  | Some inc =>
      if decide (status inc = ESCALATED) then st
      else
        alertWebhook
          {| alert_severity :=
               match priority inc with P1 => CRITICAL | _ => HIGH end;
             alert_title := "[ESCALATED][" +:+ priority_name (priority inc)
                            +:+ "] " +:+ title inc;
             alert_body := "Escalated after: " +:+ reason +:+ newline
                           +:+ "Forensic snapshot captured at incident creation." |}
          {| incidents := alter (escalated_row now) incidentId (incidents st);
             alerts := alerts st |}
  end.

(** JSONB concatenation [old || new]: keys of [new] win. *)
Definition jsonb_concat (old new : list (string * Json)) : list (string * Json) :=
  filter (fun kv => bool_decide (kv.1 ∉ new.*1)) old ++ new.

(** [incrementHealAttempts]; [count] is [result.violations.length] and
    [reason] the text built from the attempts and the age. *)
Definition incrementHealAttempts (now : Z) (incidentId : string) (count : Z)
  (reason : string) (st : Store) : Store :=
  let st1 :=
    {| incidents :=
         alter (fun inc =>
                  {| priority := priority inc; status := AUTO_HEALING;
                     title := title inc; invariant := invariant inc;
                     details := jsonb_concat (details inc)
                                  [("lastViolationCount", JNum count);
                                   ("updatedAt", JNum now)];
                     forensic_snapshot := forensic_snapshot inc;
                     auto_heal_attempts := auto_heal_attempts inc + 1;
                     auto_healed := auto_healed inc;
                     resolved_reason := resolved_reason inc;
                     created_at := created_at inc; updated_at := now;
                     resolved_at := resolved_at inc;
                     escalated_at := escalated_at inc |})
               incidentId (incidents st);
       alerts := alerts st |} in
  match incidents st1 !! incidentId with
  | None => st1
  | Some u =>
      let ageMs := now - created_at u in
      if (MAX_AUTO_HEAL_ATTEMPTS <=? auto_heal_attempts u)
         || (ESCALATE_AFTER_MS <? ageMs)
      then escalate now incidentId reason st1
      else st1
  end.

End Incident.

(* ===================================================================== *)
(** ** autonomous/security-engine.ts *)
(* ===================================================================== *)

Module Security.

(** *** Sliding-window rate limiter *)

Record RateWindow := {
  timestamps : list Z;
  blocked    : bool;
  blockUntil : Z;
}.

Definition WINDOW_MS : Z := 60000.

Definition fresh : RateWindow :=
  {| timestamps := []; blocked := false; blockUntil := 0 |}.

(** [record key limit] at clock [now]: the new map of windows and the
    returned [{ blocked, count }]. *)
Definition record (key : string) (limit now : Z)
  (windows : gmap string RateWindow)
  : gmap string RateWindow * (bool * nat) :=
  let window := default fresh (windows !! key) in
  if blocked window && (now <? blockUntil window) then
    (windows, (true, length (timestamps window)))
  else
    let window :=
      if blocked window && (blockUntil window <=? now) then fresh
      else window in
    (* slide, then append *)
    let ts := filter (fun t => now - t < WINDOW_MS) (timestamps window)
              ++ [now] in
    let count := length ts in
    let window :=
      if limit <? Z.of_nat count
      then {| timestamps := ts; blocked := true;
              blockUntil := now + 5 * 60000 |}
      else {| timestamps := ts; blocked := blocked window;
              blockUntil := blockUntil window |} in
    (<[key := window]> windows, (blocked window, count)).

Definition isBlocked (key : string) (now : Z)
  (windows : gmap string RateWindow) : bool :=
  match windows !! key with
  | None => false
  | Some w => blocked w && (now <? blockUntil w)
  end.

(** The windows [cleanup] deletes: not blocked, and empty or idle for more
    than two window lengths. *)
Definition stale (now : Z) (w : RateWindow) : bool :=
  negb (blocked w)
  && match last (timestamps w) with
     | None => true
     | Some t => WINDOW_MS * 2 <? now - t
     end.

Definition cleanup (now : Z) (windows : gmap string RateWindow)
  : gmap string RateWindow :=
  filter (fun kw => stale now kw.2 = false) windows.

(** The calls a process makes on the limiter. *)
Inductive Op :=
  | Record (key : string) (now : Z)
  | Cleanup (now : Z).

Definition apply (limit : Z) (op : Op) (windows : gmap string RateWindow)
  : gmap string RateWindow :=
  match op with
  | Record key now => fst (record key limit now windows)
  | Cleanup now => cleanup now windows
  end.

Definition replay (limit : Z) (ops : list Op) : gmap string RateWindow :=
  fold_left (fun ws op => apply limit op ws) ops ∅.

(** Number of stored request timestamps of a window that fall in the
    60-second interval starting at [a]. *)
Definition in_interval (a : Z) (w : RateWindow) : nat :=
  length (filter (fun t => a <= t < a + WINDOW_MS) (timestamps w)).

(** The invariant of the map of windows: an unblocked window holds at most
    [limit] timestamps, any window at most [limit + 1]. *)
Definition window_ok (limit : Z) (w : RateWindow) : Prop :=
  (blocked w = false -> Z.of_nat (length (timestamps w)) <= limit) /\
  Z.of_nat (length (timestamps w)) <= limit + 1.

Definition windows_ok (limit : Z) (ws : gmap string RateWindow) : Prop :=
  forall k w, ws !! k = Some w -> window_ok limit w.

(** *** Audit chain verification *)


(** The columns of ["AuditLog"] the verifier reads.  Both hash columns are
    nullable: rows older than the migration carry no hash. *)
Record AuditRow := {
  id        : string;
  row_hash  : option string;
  prev_hash : option string;
}.

(** The rows the query selects, given the log ordered by ["createdAt"]:
    each row with [lag(row_hash)], cut at [limit]. *)
Definition with_lag (log : list AuditRow) : list (AuditRow * option string) :=
  zip log (None :: (row_hash <$> log)).

Definition rows (limit : nat) (log : list AuditRow)
  : list (AuditRow * option string) :=
  take limit (with_lag log).

(** The [$queryRaw]: it is rejected when the database refuses it
    ([db_ok] is false), and PostgreSQL refuses a negative [LIMIT]. *)
Definition query (db_ok : bool) (limit : Z) (log : list AuditRow)
  : Query (list (AuditRow * option string)) :=
  if db_ok && (0 <=? limit) then Resolved (rows (Z.to_nat limit) log)
  else Rejected.

(** [row.prevRowHash && row.prev_hash !== row.prevRowHash]: a null or
    empty [prevRowHash] is falsy. *)
Definition tampered (row : AuditRow * option string) : bool :=
  match row.2 with
  | None => false
  | Some prevRowHash =>
      negb (String.eqb prevRowHash "")
      && negb (bool_decide (prev_hash row.1 = Some prevRowHash))
  end.

(** The link from [prev] to the row after it, as the verifier judges it. *)
Definition link_broken (prev row : AuditRow) : bool :=
  tampered (row, row_hash prev).

Record VerifyResult := {
  valid    : bool;
  brokenAt : option string;
}.

Definition json_of (o : option string) : Json :=
  match o with Some s => JStr s | None => JNull end.

(** [verifyAuditChain limit]: [newId], [forensic] and [body] are what
    [createIncident] needs, should an incident be opened.  Nothing is
    caught: the verifier is rejected when its query is, and when
    [createIncident] is, either because its insert is refused
    ([insert_ok] is false; the table stays as it was) or because the
    webhook it awaits after the insert rejects ([webhook_ok] is false; the
    row is written). *)
Definition verifyAuditChain (now : Z) (newId : string)
  (forensic : list (string * Json)) (body : string)
  (db_ok insert_ok webhook_ok : bool)
  (limit : Z) (log : list AuditRow) (st : Incident.Store)
  : Query VerifyResult * Incident.Store :=
  match query db_ok limit log with
  | Rejected => (Rejected, st)
  | Resolved selected =>
      match list_find (fun row => tampered row = true) selected with
      | Some (_, row) =>
          if negb insert_ok then (Rejected, st)
          else
            let st' :=
              snd (Incident.createIncident now newId forensic body Incident.P1
                     "AUDIT LOG TAMPER DETECTED" None
                     [("brokenAt", JStr (id row.1));
                      ("expected", json_of row.2);
                      ("actual", json_of (prev_hash row.1))] st) in
            if webhook_ok
            then (Resolved {| valid := false; brokenAt := Some (id row.1) |},
                  st')
            else (Rejected, {| Incident.incidents := Incident.incidents st';
                               Incident.alerts := Incident.alerts st |})
      | None => (Resolved {| valid := true; brokenAt := None |}, st)
      end
  end.

(** The verifier as the specification words it: every row's [prev_hash]
    is compared with the previous row's [row_hash], and the first row's
    with the sentinel ["GENESIS"]. *)
Definition spec_rows (limit : nat) (log : list AuditRow)
  : list (AuditRow * option string) :=
  take limit (zip log (Some "GENESIS" :: (row_hash <$> log))).

Definition spec_mismatch (row : AuditRow * option string) : bool :=
  negb (bool_decide (prev_hash row.1 = row.2)).

Definition spec_verifyAuditChain (limit : nat) (log : list AuditRow)
  : VerifyResult :=
  match list_find (fun row => spec_mismatch row = true) (spec_rows limit log) with
  | Some (_, row) => {| valid := false; brokenAt := Some (id row.1) |}
  | None => {| valid := true; brokenAt := None |}
  end.

End Security.

(* ===================================================================== *)
(** ** autonomous/invariant-engine.ts *)
(* ===================================================================== *)

Module InvariantEngine.

(** A column of a violation's [detail] as [$queryRaw] returns it: a value
    JSON can hold, or a BigInt (what a [COUNT] and a [SUM] of integers
    come back as), which [JSON.stringify] refuses with a TypeError. *)
Inductive Value :=
  | Plain (j : Json)
  | BigInt (n : Z).

Record ViolationRecord := {
  entityId   : string;
  entityType : string;
  shopId     : option string;
  detail     : list (string * Value);
}.

Record InvariantResult := {
  name          : string;
  passed        : bool;
  driftScore    : Z;
  violations    : list ViolationRecord;
  autoCorrected : bool;
}.

(** [JSON.stringify] of a violation: the object it denotes, or [None] when
    a BigInt makes it throw. *)
Definition detail_json (v : ViolationRecord) : option Json :=
  JObj <$> mapM (fun kv => match kv.2 with
                           | Plain j => Some (kv.1, j)
                           | BigInt _ => None
                           end) (detail v).

Definition violation_json (v : ViolationRecord) : option Json :=
  match detail_json v with
  | Some d =>
      Some (JObj ([("entityId", JStr (entityId v));
                   ("entityType", JStr (entityType v))]
                  ++ match shopId v with
                     | Some s => [("shopId", JStr s)]
                     | None => []
                     end
                  ++ [("detail", d)]))
  | None => None
  end.

(** Whether [JSON.stringify] accepts the detail of every violation of the
    list. *)
Definition serialisable (vs : list ViolationRecord) : bool :=
  forallb (fun v => match detail_json v with
                    | Some _ => true
                    | None => false
                    end) vs.

(** *** Drift scorer

    JavaScript numbers are idealised as real numbers ([JsNumber]):
    [Math.log10] is the logarithm in base ten and [Math.round] rounds to
    the nearest integer, halves upwards.  NaN is kept: every operation
    below returns NaN as soon as one operand is NaN. *)

(** The own properties of the object literal [weights]. *)
Definition weights : gmap string Z :=
  list_to_map
    [("NO_NEGATIVE_STOCK", 25);
     ("SALE_TOTAL_MATCHES_LINE_ITEMS", 20);
     ("PAYMENT_SUM_MATCHES_SALE_TOTAL", 20);
     ("NO_DUPLICATE_INVOICES", 15);
     ("STOCK_MOVEMENT_BALANCE", 10);
     ("CREDIT_LIMIT_NOT_EXCEEDED", 7);
     ("NO_ORPHANED_SALE_ITEMS", 3)].

(** The properties every object literal inherits from [Object.prototype]:
    functions, and the prototype itself under [__proto__]. *)
Definition Object_prototype : list string :=
  ["constructor"; "__defineGetter__"; "__defineSetter__"; "hasOwnProperty";
   "__lookupGetter__"; "__lookupSetter__"; "isPrototypeOf";
   "propertyIsEnumerable"; "toString"; "valueOf"; "__proto__";
   "toLocaleString"].

(** [weights[r.name] ?? 5], as the arithmetic that follows sees it.  A
    property read finds own and inherited members alike; an inherited one
    is not nullish, so the default is not taken, and as a number it is
    NaN. *)
Definition weight (n : string) : JsNumber :=
  match weights !! n with
  | Some w => of_Z w
  | None => if bool_decide (n ∈ Object_prototype) then NaN else of_Z 5
  end.

Definition log10 (x : R) : R := (ln x / ln 10)%R.

Definition Math_round (x : R) : Z := Zfloor (x + / 2)%R.

(** What one failed result adds to [deduction]:
    [Math.min(weight, weight * Math.log10(r.violations.length + 1))]. *)
Definition deduction_of (r : InvariantResult) : JsNumber :=
  match weight (name r) with
  | Num w => Num (Rmin w (w * log10 (INR (length (violations r) + 1))))
  | NaN => NaN
  end.

(** [deduction += ...]. *)
Definition add (a b : JsNumber) : JsNumber :=
  match a, b with
  | Num x, Num y => Num (x + y)
  | _, _ => NaN
  end.

(** The loop over [results], with its accumulator. *)
Definition deduction (results : list InvariantResult) : JsNumber :=
  fold_left (fun d r => if passed r then d else add d (deduction_of r))
    results (Num 0).

(** [Math.max(0, Math.round(100 - deduction))]. *)
Definition computeDriftScore (results : list InvariantResult) : JsNumber :=
  match deduction results with
  | Num d => of_Z (Z.max 0 (Math_round (100 - d)))
  | NaN => NaN
  end.

(** The score as the specification words it, with definitions of its own:
    the weight table with default 5, and, starting from 100,
    [min(weight, weight * log10(count + 1))] subtracted for each failed
    result, floored at 0 and rounded to the nearest integer [z], that is
    [z - 1/2 <= x < z + 1/2]. *)
Definition spec_weight (n : string) : Z :=
  if String.eqb n "NO_NEGATIVE_STOCK" then 25
  else if String.eqb n "SALE_TOTAL_MATCHES_LINE_ITEMS" then 20
  else if String.eqb n "PAYMENT_SUM_MATCHES_SALE_TOTAL" then 20
  else if String.eqb n "NO_DUPLICATE_INVOICES" then 15
  else if String.eqb n "STOCK_MOVEMENT_BALANCE" then 10
  else if String.eqb n "CREDIT_LIMIT_NOT_EXCEEDED" then 7
  else if String.eqb n "NO_ORPHANED_SALE_ITEMS" then 3
  else 5.

Definition spec_deduction (r : InvariantResult) : R :=
  Rmin (IZR (spec_weight (name r)))
       (IZR (spec_weight (name r))
        * (ln (INR (length (violations r)) + 1) / ln 10))%R.

Definition spec_sum (results : list InvariantResult) : R :=
  fold_right Rplus 0%R
    (map spec_deduction (filter (fun r => passed r = false) results)).

Definition spec_driftScore (results : list InvariantResult) (z : Z) : Prop :=
  (IZR z - / 2 <= Rmax 0 (100 - spec_sum results) < IZR z + / 2)%R.

(** *** Executor *)

Record Invariant := {
  inv_name          : string;
  inv_priority      : Incident.IncidentPriority;
  safeToAutoCorrect : bool;
  has_autoCorrect   : bool;
}.

Definition INVARIANTS : list Invariant :=
  [ {| inv_name := "NO_NEGATIVE_STOCK"; inv_priority := Incident.P1;
       safeToAutoCorrect := false; has_autoCorrect := false |};
    {| inv_name := "SALE_TOTAL_MATCHES_LINE_ITEMS"; inv_priority := Incident.P1;
       safeToAutoCorrect := false; has_autoCorrect := false |};
    {| inv_name := "PAYMENT_SUM_MATCHES_SALE_TOTAL"; inv_priority := Incident.P1;
       safeToAutoCorrect := false; has_autoCorrect := false |};
    {| inv_name := "NO_DUPLICATE_INVOICES"; inv_priority := Incident.P1;
       safeToAutoCorrect := false; has_autoCorrect := false |};
    {| inv_name := "STOCK_MOVEMENT_BALANCE"; inv_priority := Incident.P2;
       safeToAutoCorrect := false; has_autoCorrect := false |};
    {| inv_name := "CREDIT_LIMIT_NOT_EXCEEDED"; inv_priority := Incident.P2;
       safeToAutoCorrect := false; has_autoCorrect := false |};
    {| inv_name := "NO_ORPHANED_SALE_ITEMS"; inv_priority := Incident.P3;
       safeToAutoCorrect := true; has_autoCorrect := true |} ].

(** What the database answers for one invariant during a cycle: the
    outcome of [check], whether [autoCorrect] succeeds when it is tried,
    and whether the database accepts the rows [persistViolations]
    inserts. *)
Record Probe := {
  check          : Query (list ViolationRecord);
  autoCorrect_ok : bool;
  persist_ok     : bool;
}.

(** The result pushed by the [catch] branch. *)
Definition synthetic (inv : Invariant) : InvariantResult :=
  {| name := inv_name inv; passed := false; driftScore := 0;
     violations := []; autoCorrected := false |}.

(** The results one iteration of the loop pushes.  The result of a check
    that returned is pushed before its violations are persisted, so a
    failing persist adds the synthetic result after it.  Persisting fails
    when the database refuses a row, and when [JSON.stringify] refuses the
    detail of one of the first 100 violations. *)
Definition run_one (inv : Invariant) (p : Probe) : list InvariantResult :=
  match check p with
  | Rejected => [synthetic inv]
  | Resolved vs =>
      let n := Z.of_nat (length vs) in
      let autoCorrected :=
        (0 <? n) && safeToAutoCorrect inv && has_autoCorrect inv
        && autoCorrect_ok p in
      let result :=
        {| name := inv_name inv;
           passed := (n =? 0) || autoCorrected;
           driftScore := if n =? 0 then 100 else Z.max 0 (100 - n * 10);
           violations := vs;
           autoCorrected := autoCorrected |} in
      if (0 <? n) && negb (persist_ok p && serialisable (take 100 vs))
      then [result; synthetic inv]
      else [result]
  end.

(** What the loop of a cycle leaves: the results, the composite score
    (also the row to be written to [drift_scores]), and the list [failed]
    with the priority found for each name, in the order in which the last
    loop of [runAll] hands its entries to the incident manager. *)
Record Cycle := {
  results   : list InvariantResult;
  score     : JsNumber;
  forwarded : list (InvariantResult * Incident.IncidentPriority);
}.

(** [runAll] up to its last two steps, the insert into [drift_scores] and
    the calls of the incident manager, which [Executor.runAll] adds. *)
Definition runAll (probe : string -> Probe) : Cycle :=
  let results := flat_map (fun inv => run_one inv (probe (inv_name inv)))
                   INVARIANTS in
  let failed := filter (fun r => passed r = false) results in
  {| results := results;
     score := computeDriftScore results;
     forwarded :=
       omap (fun r =>
               match List.find (fun i => String.eqb (inv_name i) (name r))
                       INVARIANTS with
               | Some inv => Some (r, inv_priority inv)
               | None => None
               end) failed |}.

End InvariantEngine.

(* ===================================================================== *)
(** ** monitoring/metrics.ts: gauges and declared thresholds *)
(* ===================================================================== *)

(** Rational constants and boolean comparisons of rationals. *)
Definition ratio (n : Z) (d : positive) : Q := Qmake n d.

Definition Qltb (x y : Q) : bool := (Qnum x * QDen y <? Qnum y * QDen x)%Z.
Definition Qleb (x y : Q) : bool := (Qnum x * QDen y <=? Qnum y * QDen x)%Z.

(** *** Numbers as JavaScript prints them

    A finite IEEE 754 double is the rational it denotes.  [round] is the
    rounding every arithmetic operation ends with, and [toString] is
    [Number::toString] in radix 10: the shortest digit string that reads
    back as the same double, in positional notation from [1e-6] up to
    [1e21] and in exponent notation outside.  The sign of zero is not
    represented ([-0] prints as [0] too). *)

Module Double.

Definition pow2 (z : Z) : Q := Qpower (inject_Z 2) z.
Definition pow10 (z : Z) : Q := Qpower (inject_Z 10) z.

(** The integer nearest to [q]; a tie goes to the even one. *)
Definition round_even (q : Q) : Z :=
  let f := Qfloor q in
  match Qcompare (q - inject_Z f)%Q (Qmake 1 2) with
  | Lt => f
  | Gt => f + 1
  | Eq => if Z.even f then f else f + 1
  end.

(** The [e] with [2^e <= |q| < 2^(e+1)], for [q] other than 0. *)
Definition exponent (q : Q) : Z :=
  let e := Z.log2 (Z.abs (Qnum q)) - Z.log2 (Zpos (Qden q)) in
  if Qle_bool (pow2 e) (Qabs q) then e else e - 1.

(** Round to nearest, ties to even, with 53 bits of precision and gradual
    underflow; [None] is an overflow to an infinity. *)
Definition round (q : Q) : option Q :=
  if Qeq_bool q (inject_Z 0) then Some (inject_Z 0)
  else
    let e := Z.max (exponent q) (-1022) in
    let ulp := pow2 (e - 52) in
    let v := Qred (inject_Z (round_even (q / ulp)) * ulp)%Q in
    if Qle_bool (pow2 1024) (Qabs v) then None else Some v.

Fixpoint up (fuel : nat) (x : Q) (n : Z) : Z :=
  match fuel with
  | O => n
  | S f => if Qle_bool (pow10 n) x then up f x (n + 1) else n
  end.

Fixpoint down (fuel : nat) (x : Q) (n : Z) : Z :=
  match fuel with
  | O => n
  | S f => if Qle_bool (pow10 (n - 1)) x then n else down f x (n - 1)
  end.

(** The [n] with [10^(n-1) <= x < 10^n], for positive [x]: an estimate
    from the binary exponent, corrected upwards and downwards. *)
Definition magnitude (x : Q) : Z :=
  down 8 x (up 8 x (exponent x * 30103 / 100000)).

(** A digit string [s] of length [k] for the double [x] of magnitude [n]:
    one of the two integers around [x / 10^(n-k)] whose value reads back
    as [x], the nearer one if both do, the even one on a tie.  The upper
    one may be [10^k], a carry into the next magnitude. *)
Definition candidate (x : Q) (n k : Z) : option Z :=
  let scale := pow10 (n - k) in
  let lo := Qfloor (x / scale) in
  let ok s := (10 ^ (k - 1) <=? s) && (s <=? 10 ^ k)
              && match round (inject_Z s * scale) with
                 | Some y => Qeq_bool y x
                 | None => false
                 end in
  let dlo := (x - inject_Z lo * scale)%Q in
  let dhi := (inject_Z (lo + 1) * scale - x)%Q in
  match ok lo, ok (lo + 1) with
  | true, true =>
      match Qcompare dlo dhi with
      | Lt => Some lo
      | Gt => Some (lo + 1)
      | Eq => Some (if Z.even lo then lo else lo + 1)
      end
  | true, false => Some lo
  | false, true => Some (lo + 1)
  | false, false => None
  end.

(** The shortest digit string: [(n, k, s)] with [k] as small as possible
    (17 digits always suffice). *)
Fixpoint shortest (fuel : nat) (x : Q) (n k : Z) : Z * Z * Z :=
  match fuel with
  | O => (n, k, Qfloor (x / pow10 (n - k)))
  | S f =>
      match candidate x n k with
      | Some s => if s =? 10 ^ k then (n + 1, 1, 1) else (n, k, s)
      | None => shortest f x n (k + 1)
      end
  end.

Definition zeros (n : Z) : string :=
  fold_right (fun _ s => "0" +:+ s) "" (seq 0 (Z.to_nat n)).

(** The notation chosen for a positive double. *)
Definition digits (x : Q) : string :=
  let '(n, k, s) := shortest 17 x (magnitude x) 1 in
  let ds := pretty s in
  if (k <=? n) && (n <=? 21) then ds +:+ zeros (n - k)
  else if (0 <? n) && (n <=? 21)
  then String.substring 0 (Z.to_nat n) ds +:+ "." +:+
       String.substring (Z.to_nat n) (Z.to_nat (k - n)) ds
  else if (-6 <? n) && (n <=? 0) then "0." +:+ zeros (- n) +:+ ds
  else
    let e := n - 1 in
    let es := (if 0 <=? e then "+" else "-") +:+ pretty (Z.abs e) in
    if k =? 1 then ds +:+ "e" +:+ es
    else String.substring 0 1 ds +:+ "." +:+
         String.substring 1 (Z.to_nat (k - 1)) ds +:+ "e" +:+ es.

(** [String(x)] for the double [x] nearest to [q]. *)
Definition toString (q : Q) : string :=
  match round q with
  | None => if Qle_bool (inject_Z 0) q then "Infinity" else "-Infinity"
  | Some x =>
      if Qeq_bool x (inject_Z 0) then "0"
      else if Qle_bool x (inject_Z 0) then "-" +:+ digits (- x)%Q
      else digits x
  end.

End Double.

Module Metrics.

Inductive Operator := gt | lt | gte | lte.

Definition operator_name (o : Operator) : string :=
  match o with gt => "gt" | lt => "lt" | gte => "gte" | lte => "lte" end.

Record Threshold := {
  metric     : string;
  operator   : Operator;
  value      : Q;
  severity   : Severity;
  cooldownMs : Z;
}.

Definition THRESHOLDS : list Threshold :=
  [ {| metric := "http.error_rate"; operator := gt; value := ratio 3 100;
       severity := HIGH; cooldownMs := 60000 |};
    {| metric := "http.p95_latency_ms"; operator := gt; value := ratio 500 1;
       severity := HIGH; cooldownMs := 60000 |};
    {| metric := "db.active_connections"; operator := gt; value := ratio 18 1;
       severity := HIGH; cooldownMs := 120000 |};
    {| metric := "db.healthy"; operator := lt; value := ratio 1 1;
       severity := CRITICAL; cooldownMs := 30000 |};
    {| metric := "db.connection_saturation_pct"; operator := gt;
       value := ratio 85 1; severity := HIGH; cooldownMs := 120000 |};
    {| metric := "system.health_score"; operator := lt; value := ratio 50 1;
       severity := HIGH; cooldownMs := 300000 |};
    {| metric := "system.safe_mode"; operator := gt; value := ratio 0 1;
       severity := CRITICAL; cooldownMs := 300000 |};
    {| metric := "perf.overload_score"; operator := gt; value := ratio 70 1;
       severity := HIGH; cooldownMs := 300000 |};
    {| metric := "security.auto_blocks"; operator := gt; value := ratio 10 1;
       severity := HIGH; cooldownMs := 300000 |};
    {| metric := "process.heap_mb"; operator := gt; value := ratio 1024 1;
       severity := MEDIUM; cooldownMs := 600000 |} ].

Record Registry := {
  gauges    : gmap string Q;
  lastAlert : gmap string Z;
}.

Definition empty : Registry := {| gauges := ∅; lastAlert := ∅ |}.

(** A [threshold_breach] event. *)
Record Breach := {
  breached_threshold : Threshold;
  actualValue        : Q;
}.

Definition breached (t : Threshold) (v : Q) : bool :=
  match operator t with
  | gt  => Qltb (value t) v
  | lt  => Qltb v (value t)
  | gte => Qleb (value t) v
  | lte => Qleb v (value t)
  end.

(** [checkThresholds]: the registry afterwards and the events emitted,
    in order. *)
Definition checkThresholds (name : string) (v : Q) (now : Z) (reg : Registry)
  : Registry * list Breach :=
  fold_left
    (fun acc t =>
       if negb (String.eqb (metric t) name) then acc
       else if breached t v then
         let last := default 0 (lastAlert acc.1 !! metric t) in
         if cooldownMs t <? now - last then
           ({| gauges := gauges acc.1;
               lastAlert := <[metric t := now]> (lastAlert acc.1) |},
            acc.2 ++ [{| breached_threshold := t; actualValue := v |}])
         else acc
       else acc)
    THRESHOLDS (reg, []).

Definition gauge (name : string) (v : Q) (now : Z) (reg : Registry)
  : Registry * list Breach :=
  checkThresholds name v now
    {| gauges := <[name := v]> (gauges reg); lastAlert := lastAlert reg |}.

Definition getGauge (name : string) (reg : Registry) : Q :=
  default (ratio 0 1) (gauges reg !! name).

(** The alert [bindMetricAlerts] sends for a breach; its body is
    [`${metric} = ${actualValue} (threshold: ${operator} ${value})`]. *)
Definition alert_of (b : Breach) : Alert :=
  {| alert_severity := severity (breached_threshold b);
     alert_title := "Metric Threshold: " +:+ metric (breached_threshold b);
     alert_body :=
       metric (breached_threshold b) +:+ " = "
       +:+ Double.toString (actualValue b) +:+ " (threshold: "
       +:+ operator_name (operator (breached_threshold b)) +:+ " "
       +:+ Double.toString (value (breached_threshold b)) +:+ ")" |}.

End Metrics.

(* ===================================================================== *)
(** ** autonomous/health-score.ts *)
(* ===================================================================== *)

Module Health.

Record HealthComponents := {
  integrity  : Z;
  errorRate  : Z;
  latency    : Z;
  incidents  : Z;
  backup     : Z;
  migrations : Z;
}.

Inductive Grade := A | B | C | D | F.

#[global] Instance Grade_eq_dec : EqDecision Grade.
Proof. solve_decision. Defined.

Definition grade_name (g : Grade) : string :=
  match g with A => "A" | B => "B" | C => "C" | D => "D" | F => "F" end.

Record HealthReport := {
  score             : Z;
  grade             : Grade;
  components        : HealthComponents;
  safeMode          : bool;
  incidents_summary : gmap string N;
  driftScore        : Q;
}.

(** The singleton row of [system_mode]. *)
Record SystemMode := {
  safe_mode        : bool;
  safe_mode_reason : option string;
  enabled_at       : option Z;
  enabled_by       : option string;
  override_token   : option string;
  updated_at       : Z;
}.

(** The state the scorer reads and writes: the [system_mode] table (its
    row, if present), the rows of [health_scores], the metrics registry,
    the alerts sent so far and whether [bindMetricAlerts] is installed. *)
Record State := {
  system_mode   : option SystemMode;
  health_scores : list (Z * HealthComponents * bool);
  registry      : Metrics.Registry;
  alerts        : list Alert;
  alerts_bound  : bool;
}.

(** What the collaborators answer during one [compute]: the clock, the
    95th percentile of the request durations, and the outcome of each
    query (a query is [Rejected] when the database refuses it). *)
Record Env := {
  now                 : Z;
  p95                 : Q;
  drift_for_integrity : Query (option Q);
  summary_for_score   : Query (gmap string N);
  latest_backup       : Query (option Z);
  pending_migrations  : Query N;
  mode_query_ok       : bool;
  summary_for_report  : Query (gmap string N);
  drift_for_report    : Query (option Q);
}.

(** [Math.round] on rationals: nearest integer, halves upwards. *)
Definition Math_round (q : Q) : Z := Qfloor (q + (ratio 1 2))%Q.

(** [InvariantEngine.getDriftScore]: [row[0]?.score ?? 100]. *)
Definition getDriftScore (q : Query (option Q)) : Query Q :=
  match q with
  | Resolved o => Resolved (default (ratio 100 1) o)
  | Rejected => Rejected
  end.

Definition scoreIntegrity (e : Env) : Query Z :=
  match getDriftScore (drift_for_integrity e) with
  | Resolved ds => Resolved (Math_round ((ds / (ratio 100 1)) * (ratio 30 1))%Q)
  | Rejected => Rejected
  end.

Definition scoreErrorRate (reg : Metrics.Registry) : Z :=
  let rate := Metrics.getGauge "http.error_rate" reg in
  if Qeq_bool rate (ratio 0 1) then 20
  else if Qltb rate (ratio 5 1000) then 18
  else if Qltb rate (ratio 1 100) then 15
  else if Qltb rate (ratio 3 100) then 10
  else if Qltb rate (ratio 5 100) then 5
  else 0.

Definition scoreLatency (e : Env) : Z :=
  if Qeq_bool (p95 e) (ratio 0 1) then 15
  else if Qltb (p95 e) (ratio 100 1) then 15
  else if Qltb (p95 e) (ratio 200 1) then 12
  else if Qltb (p95 e) (ratio 500 1) then 8
  else if Qltb (p95 e) (ratio 1000 1) then 4
  else 0.

Definition scoreIncidents (e : Env) : Query Z :=
  match summary_for_score e with
  | Rejected => Rejected
  | Resolved summary =>
      let count p := Z.of_N (default 0%N (summary !! p)) in
      let deduction := 0 + count "P1" * 10 in
      let deduction := deduction + count "P2" * 5 in
      let deduction := deduction + count "P3" * 2 in
      let deduction := deduction + count "P4" * 1 in
      Resolved (Z.max 0 (20 - deduction))
  end.

Definition scoreBackup (e : Env) : Query Z :=
  match latest_backup e with
  | Rejected => Rejected
  | Resolved None => Resolved 0
  | Resolved (Some validated_at) =>
      let ageHrs := (inject_Z (now e - validated_at) / (ratio 3600000 1))%Q in
      Resolved (if Qltb ageHrs (ratio 12 1) then 10
                else if Qltb ageHrs (ratio 24 1) then 7
                else if Qltb ageHrs (ratio 48 1) then 3
                else 0)
  end.

(** The [try]/[catch] is inside [scoreMigrations]: it never rejects. *)
Definition scoreMigrations (e : Env) : Z :=
  match pending_migrations e with
  | Resolved n => if (n =? 0)%N then 5 else 0
  | Rejected => 3
  end.

(** [promise.catch(() => fallback)]. *)
Definition catch {T : Type} (q : Query T) (fallback : T) : T :=
  match q with Resolved v => v | Rejected => fallback end.

Definition isSafeMode (ok : bool) (st : State) : Query bool :=
  if ok then
    Resolved (match system_mode st with
              | Some row => safe_mode row
              | None => false
              end)
  else Rejected.

(** Modelled from the spec: [alertWebhook] of monitoring/alerts.ts, which
    is not among the sources; as in the incident manager, the payload is
    appended to the alerts sent so far. *)
Definition alertWebhook (a : Alert) (st : State) : State :=
  {| system_mode := system_mode st; health_scores := health_scores st;
     registry := registry st; alerts := alerts st ++ [a];
     alerts_bound := alerts_bound st |}.

(** [metrics.gauge]: the registry is updated, and the breaches it emits
    reach the alert transport when the binder is installed. *)
Definition gauge (name : string) (v : Q) (t : Z) (st : State) : State :=
  let '(reg, emitted) := Metrics.gauge name v t (registry st) in
  {| system_mode := system_mode st; health_scores := health_scores st;
     registry := reg;
     alerts := alerts st ++
               (if alerts_bound st then map Metrics.alert_of emitted else []);
     alerts_bound := alerts_bound st |}.

(** [UPDATE system_mode SET safe_mode = TRUE, ... WHERE id = 1], the
    alert, and the gauge. *)
Definition enableSafeMode (t : Z) (reason enabledBy : string) (st : State) : State :=
  let st1 :=
    {| system_mode :=
         (fun row => {| safe_mode := true; safe_mode_reason := Some reason;
                        enabled_at := Some t; enabled_by := Some enabledBy;
                        override_token := override_token row;
                        updated_at := t |}) <$> system_mode st;
       health_scores := health_scores st; registry := registry st;
       alerts := alerts st; alerts_bound := alerts_bound st |} in
  let st2 :=
    alertWebhook
      {| alert_severity := CRITICAL;
         alert_title := "🔴 SAFE MODE ENGAGED — Write operations disabled";
         alert_body := reason |} st1 in
  gauge "system.safe_mode" (ratio 1 1) t st2.

Definition grade_of (score : Z) : Grade :=
  if 90 <=? score then A
  else if 75 <=? score then B
  else if 60 <=? score then C
  else if 40 <=? score then D
  else F.

(** The six scores gathered by [Promise.all], each with its fallback. *)
Definition components_of (e : Env) (st : State) : HealthComponents :=
  {| integrity  := catch (scoreIntegrity e) 20;
     errorRate  := scoreErrorRate (registry st);
     latency    := scoreLatency e;
     incidents  := catch (scoreIncidents e) 15;
     backup     := catch (scoreBackup e) 5;
     migrations := scoreMigrations e |}.

(** [Object.values(components).reduce((a, b) => a + b, 0)]. *)
Definition total (c : HealthComponents) : Z :=
  fold_left Z.add
    [integrity c; errorRate c; latency c; incidents c; backup c; migrations c]
    0.

(** [INSERT INTO health_scores (score, components, safe_mode)]. *)
Definition persist (score : Z) (c : HealthComponents) (safeMode : bool)
  (st : State) : State :=
  {| system_mode := system_mode st;
     health_scores := health_scores st ++ [(score, c, safeMode)];
     registry := registry st; alerts := alerts st;
     alerts_bound := alerts_bound st |}.

(** [JSON.stringify(components, null, 2)]: one member per line, indented
    by two spaces, in the order the object literal lists them. *)
Definition member (key : string) (v : Z) : string :=
  "  " +:+ quote +:+ key +:+ quote +:+ ": " +:+ Double.toString (inject_Z v).

Definition components_json (c : HealthComponents) : string :=
  "{" +:+ newline
  +:+ member "integrity" (integrity c) +:+ "," +:+ newline
  +:+ member "errorRate" (errorRate c) +:+ "," +:+ newline
  +:+ member "latency" (latency c) +:+ "," +:+ newline
  +:+ member "incidents" (incidents c) +:+ "," +:+ newline
  +:+ member "backup" (backup c) +:+ "," +:+ newline
  +:+ member "migrations" (migrations c) +:+ newline
  +:+ "}".

(** The last block of [compute]: "Alert on critical health". *)
Definition alert_on_critical (t : Z) (score : Z) (grade : Grade)
  (components : HealthComponents) (safeMode : bool) (st : State) : State :=
  if (score <? 40) && negb safeMode then
    let st' :=
      alertWebhook
        {| alert_severity := CRITICAL;
           alert_title := "System health critical: "
                          +:+ Double.toString (inject_Z score)
                          +:+ "/100 (" +:+ grade_name grade +:+ ")";
           alert_body := components_json components |} st in
    if decide (grade = F) then
      enableSafeMode t
        "Health score F — auto-engaged by health engine" "system" st'
    else st'
  else st.

Definition compute (e : Env) (st : State) : Query (HealthReport * State) :=
  let components := components_of e st in
  let score := total components in
  let grade := grade_of score in
  match isSafeMode (mode_query_ok e) st,
        summary_for_report e,
        getDriftScore (drift_for_report e) with
  | Resolved safeMode, Resolved incidentSummary, Resolved driftScore =>
      let report :=
        {| score := score; grade := grade; components := components;
           safeMode := safeMode; incidents_summary := incidentSummary;
           driftScore := driftScore |} in
      let st1 := persist score components safeMode st in
      let st2 := gauge "system.health_score" (inject_Z score) (now e) st1 in
      Resolved (report,
                alert_on_critical (now e) score grade components safeMode st2)
  | _, _, _ => Rejected
  end.

(** The invariant of [drift_scores]: a persisted score lies between 0 and
    100 (every row is written by the drift scorer). *)
Definition drift_in_range (e : Env) : Prop :=
  forall ds, drift_for_integrity e = Resolved (Some ds) ->
             (ratio 0 1 <= ds)%Q /\ (ds <= ratio 100 1)%Q.

(** *** Safe-mode middleware *)

Record Request := {
  method : string;
  url    : option string;
}.

(** The body of a reply sent by the middleware. *)
Record Body := {
  error    : string;
  message  : option string;
  readOnly : option bool;
}.

(** What the middleware does with a request: it calls [done()], so the
    handler runs, or it sends a reply and the handler is not invoked. *)
Inductive Outcome :=
  | Done
  | Replied (code : Z) (body : Body).

Definition WRITE_METHODS : gset string := {[ "POST"; "PUT"; "PATCH"; "DELETE" ]}.

(** [safe] is the outcome of [engine.isSafeMode()]. *)
Definition safeModeMiddleware (safe : Query bool) (req : Request) : Outcome :=
  if negb (bool_decide (method req ∈ WRITE_METHODS)) then Done
  else if match url req with
          | Some u => String.prefix "/system-mode" u
          | None => false
          end then Done
  else match safe with
       | Resolved true =>
           Replied 503
             {| error := "SERVICE_IN_SAFE_MODE";
                message := Some "System is in safe mode. Write operations are temporarily disabled. Contact administrators.";
                readOnly := Some true |}
       | Resolved false => Done
       | Rejected =>
           Replied 503
             {| error := "SAFE_MODE_CHECK_FAILED"; message := None;
                readOnly := None |}
       end.

End Health.

(* ===================================================================== *)
(** ** Scenarios of the health scorer *)
(* ===================================================================== *)

Module Scenario.

(** Safe mode is off, the error rate gauge reads 8 %, and metric breaches
    are forwarded to the alert transport. *)
Definition state_off : Health.State :=
  {| Health.system_mode :=
       Some {| Health.safe_mode := false; Health.safe_mode_reason := None;
               Health.enabled_at := None; Health.enabled_by := None;
               Health.override_token := None; Health.updated_at := 0 |};
     Health.health_scores := [];
     Health.registry :=
       {| Metrics.gauges := {[ "http.error_rate" := ratio 8 100 ]};
          Metrics.lastAlert := ∅ |};
     Health.alerts := [];
     Health.alerts_bound := true |}.

(** No backup, three open P1 incidents, a p95 of 1200 ms and a drift score
    of 0: the components are 0, 0, 0, 0, 0 and 5. *)
Definition degraded : Health.Env :=
  {| Health.now := 1000000; Health.p95 := ratio 1200 1;
     Health.drift_for_integrity := Resolved (Some (ratio 0 1));
     Health.summary_for_score := Resolved {[ "P1" := 3%N ]};
     Health.latest_backup := Resolved None;
     Health.pending_migrations := Resolved 0%N;
     Health.mode_query_ok := true;
     Health.summary_for_report := Resolved {[ "P1" := 3%N ]};
     Health.drift_for_report := Resolved (Some (ratio 0 1)) |}.

(** A clean drift score, one open P1 incident, no backup, a p95 of 1200 ms:
    the components are 30, 0, 0, 10, 0 and 5, a score of 45. *)
Definition strained : Health.Env :=
  {| Health.now := 1000000; Health.p95 := ratio 1200 1;
     Health.drift_for_integrity := Resolved (Some (ratio 100 1));
     Health.summary_for_score := Resolved {[ "P1" := 1%N ]};
     Health.latest_backup := Resolved None;
     Health.pending_migrations := Resolved 0%N;
     Health.mode_query_ok := true;
     Health.summary_for_report := Resolved {[ "P1" := 1%N ]};
     Health.drift_for_report := Resolved (Some (ratio 100 1)) |}.

End Scenario.

(* ===================================================================== *)
(** ** autonomous/self-healing-core.ts: retry helpers *)
(* ===================================================================== *)

Module Retry.

(** What a callable may throw: a known Prisma request error with its code,
    any other [Error] with its message, or a value that is no [Error]. *)
Inductive Err :=
  | PrismaKnown (code : string)
  | PlainError (message : string)
  | NotAnError.

(** [hay.includes(needle)]. *)
Definition includes (hay needle : string) : bool :=
  match String.index 0 needle hay with
  | Some _ => true
  | None => false
  end.

Definition isDeadlock (err : Err) : bool :=
  match err with
  | PrismaKnown code => String.eqb code "P2034"
  | PlainError message =>
      includes message "deadlock detected"
      || includes message "could not serialize"
      || includes message "lock timeout"
  | NotAnError => false
  end.

Definition isNetworkError (err : Err) : bool :=
  match err with
  | PrismaKnown code =>
      bool_decide (code ∈ ["P1001"; "P1002"; "P1008"; "P1017"])
  | PlainError message =>
      includes message "ECONNREFUSED"
      || includes message "ETIMEDOUT"
      || includes message "socket hang up"
  | NotAnError => false
  end.

(** How a retry wrapper ends: with the value of the callable, with the
    error it rethrows, or at the [throw new Error("unreachable")] after the
    loop. *)
Inductive Outcome (T : Type) :=
  | Value (v : T)
  | Raise (e : Err)
  | Unreachable.
Arguments Value {T} v.
Arguments Raise {T} e.
Arguments Unreachable {T}.

(** What a run of a wrapper leaves behind: the number of invocations of
    the callable, the delays slept (in ms, in order), and the two counters
    [db.deadlock_retry.count] and [db.deadlock_retry.exhausted]. *)
Record Trace := {
  invoked     : nat;
  sleeps      : list Q;
  retry_count : nat;
  exhausted   : nat;
}.

Definition no_trace : Trace :=
  {| invoked := 0; sleeps := []; retry_count := 0; exhausted := 0 |}.

Definition Qmin (a b : Q) : Q := if Qleb a b then a else b.

(** [Math.min(base * 2 ** (attempt - 1) + jitter, cap)]. *)
Definition backoff (base cap : Z) (attempt : Z) (jitter : Q) : Q :=
  Qmin (inject_Z (base * 2 ^ (attempt - 1)) + jitter)%Q (inject_Z cap).

(** The loop of [withDeadlockRetry]: [fn attempt] is what the callable
    does at its [attempt]-th invocation, [jitter attempt] the value of
    [Math.random() * 50] drawn at that attempt; [remaining] counts the
    iterations left. *)
Fixpoint deadlock_loop {T : Type} (remaining : nat) (attempt maxAttempts : Z)
  (fn : Z -> Err + T) (jitter : Z -> Q) (tr : Trace) : Outcome T * Trace :=
  match remaining with
  | O => (Unreachable, tr)
  | S k =>
      match fn attempt with
      | inr v =>
          (Value v,
           {| invoked := S (invoked tr); sleeps := sleeps tr;
              retry_count := retry_count tr; exhausted := exhausted tr |})
      | inl err =>
          if negb (isDeadlock err) || (attempt =? maxAttempts) then
            (Raise err,
             {| invoked := S (invoked tr); sleeps := sleeps tr;
                retry_count := retry_count tr;
                exhausted := S (exhausted tr) |})
          else
            deadlock_loop k (attempt + 1) maxAttempts fn jitter
              {| invoked := S (invoked tr);
                 sleeps := sleeps tr ++ [backoff 50 2000 attempt (jitter attempt)];
                 retry_count := S (retry_count tr);
                 exhausted := exhausted tr |}
      end
  end.

Definition withDeadlockRetry {T : Type} (fn : Z -> Err + T) (jitter : Z -> Q)
  (maxAttempts : Z) : Outcome T * Trace :=
  deadlock_loop (Z.to_nat maxAttempts) 1 maxAttempts fn jitter no_trace.

(** The error a breaker throws when it rejects a call. *)
Definition breaker_open_error (name : string) : Err :=
  PlainError ("CircuitBreaker[" +:+ name +:+ "] OPEN — rejecting call").

(** [cb.call(fn)] with the value or error it hands back. *)
Definition guarded_call {T : Type} (cfg : CircuitBreaker.Config) (name : string)
  (t0 t1 : Z) (r : Err + T) (b : CircuitBreaker.Breaker)
  : CircuitBreaker.Breaker * (Err + T) * bool :=
  let '(b', res) :=
    CircuitBreaker.call cfg t0 t1 (match r with inr _ => true | inl _ => false end) b in
  match res with
  | CircuitBreaker.RejectedOpen => (b', inl (breaker_open_error name), false)
  | _ => (b', r, true)
  end.

(** The loop of [withNetworkRetry] over a breaker: [clock attempt] gives
    the two clock readings of the [attempt]-th call on the breaker, [jitter
    attempt] the value of [Math.random() * 100]. *)
Fixpoint network_loop {T : Type} (remaining : nat) (attempt : Z)
  (cfg : CircuitBreaker.Config) (name : string)
  (fn : Z -> Err + T) (clock : Z -> Z * Z) (jitter : Z -> Q)
  (b : CircuitBreaker.Breaker) (tr : Trace)
  : Outcome T * CircuitBreaker.Breaker * Trace :=
  match remaining with
  | O => (Unreachable, b, tr)
  | S k =>
      let '(b', r, ran) :=
        guarded_call cfg name (clock attempt).1 (clock attempt).2 (fn attempt) b in
      let tr' := {| invoked := if ran then S (invoked tr) else invoked tr;
                    sleeps := sleeps tr; retry_count := retry_count tr;
                    exhausted := exhausted tr |} in
      match r with
      | inr v => (Value v, b', tr')
      | inl err =>
          if negb (isNetworkError err) || (attempt =? 4) then (Raise err, b', tr')
          else
            network_loop k (attempt + 1) cfg name fn clock jitter b'
              {| invoked := invoked tr';
                 sleeps := sleeps tr' ++ [backoff 200 5000 attempt (jitter attempt)];
                 retry_count := retry_count tr'; exhausted := exhausted tr' |}
      end
  end.

Definition withNetworkRetry {T : Type} (cfg : CircuitBreaker.Config)
  (name : string) (fn : Z -> Err + T) (clock : Z -> Z * Z) (jitter : Z -> Q)
  (b : CircuitBreaker.Breaker) : Outcome T * CircuitBreaker.Breaker * Trace :=
  network_loop 4 1 cfg name fn clock jitter b no_trace.

End Retry.

(* ===================================================================== *)
(** ** autonomous/self-healing-core.ts: registry garbage collection *)
(* ===================================================================== *)

Module IdempotencyMaintenance.

(** [DELETE FROM idempotency_keys WHERE expires_at < NOW()]. *)
Definition cleanup (now : Z) (d : gmap string Idempotency.Row)
  : gmap string Idempotency.Row :=
  filter (fun kr => ~ Idempotency.expires_at kr.2 < now) d.


End IdempotencyMaintenance.

(* ===================================================================== *)
(** ** autonomous/incident-manager.ts: queries and the invariant hook *)
(* ===================================================================== *)

Module IncidentQueries.

(** The rows [WHERE priority = p AND status NOT IN ('RESOLVED','CLOSED')]. *)
Definition open_with (p : Incident.IncidentPriority)
  (m : gmap string Incident.StoredIncident)
  : gmap string Incident.StoredIncident :=
  filter (fun kv => Incident.priority kv.2 = p
                    /\ Incident.terminal (Incident.status kv.2) = false) m.

Definition count_open (p : Incident.IncidentPriority)
  (m : gmap string Incident.StoredIncident) : N :=
  N.of_nat (size (open_with p m)).

Definition getOpenP1Count (st : Incident.Store) : Z :=
  Z.of_N (count_open Incident.P1 (Incident.incidents st)).

(** [getIncidentSummary]: [GROUP BY priority] yields a row only for a
    priority that has at least one open incident. *)
Definition getIncidentSummary (st : Incident.Store) : gmap string N :=
  list_to_map
    (omap (fun p =>
             let n := count_open p (Incident.incidents st) in
             if (n =? 0)%N then None else Some (Incident.priority_name p, n))
       [Incident.P1; Incident.P2; Incident.P3; Incident.P4]).

(** What the database and the webhook answer to the awaits of one call of
    the incident manager, and what that call reads: [existing] is the
    answer of the first [SELECT] of [createOrUpdateFromInvariant], the id of
    the row it returns, if any; the flags tell whether the later statements
    and [alertWebhook] resolve; [newId] is the identifier the table
    generates for a new row, [forensic] the snapshot captured before the
    insert, [body] the rendering of the details sent with the alert and
    [reason] the text [incrementHealAttempts] builds for an escalation. *)
Record Answers := {
  now                : Z;
  existing           : Query (option string);
  resolve_ok         : bool;
  update_ok          : bool;
  reselect_ok        : bool;
  escalate_select_ok : bool;
  escalate_update_ok : bool;
  insert_ok          : bool;
  webhook_ok         : bool;
  newId              : string;
  forensic           : list (string * Json);
  body               : string;
  reason             : string;
}.

(** [autoResolve] with a database that may refuse the update. *)
Definition autoResolve (a : Answers) (incidentId text : string)
  (st : Incident.Store) : Query unit * Incident.Store :=
  if resolve_ok a
  then (Resolved tt, Incident.autoResolve (now a) incidentId text st)
  else (Rejected, st).

(** [escalate]: the [SELECT], the [UPDATE] and the webhook are awaited in
    turn; what was written before a rejection stays written. *)
Definition escalate (a : Answers) (incidentId : string)
  (st : Incident.Store) : Query unit * Incident.Store :=
  if negb (escalate_select_ok a) then (Rejected, st)
  else
    match Incident.incidents st !! incidentId with
    | None => (Resolved tt, st)
    | Some inc =>
        if decide (Incident.status inc = Incident.ESCALATED)
        then (Resolved tt, st)
        else if negb (escalate_update_ok a) then (Rejected, st)
        else
          let st' := Incident.escalate (now a) incidentId (reason a) st in
          if webhook_ok a then (Resolved tt, st')
          else (Rejected, {| Incident.incidents := Incident.incidents st';
                             Incident.alerts := Incident.alerts st |})
    end.

(** The [UPDATE] of [incrementHealAttempts]. *)
Definition heal (t : Z) (incidentId : string) (count : Z)
  (st : Incident.Store) : Incident.Store :=
  {| Incident.incidents :=
       alter (fun inc =>
                {| Incident.priority := Incident.priority inc;
                   Incident.status := Incident.AUTO_HEALING;
                   Incident.title := Incident.title inc;
                   Incident.invariant := Incident.invariant inc;
                   Incident.details :=
                     Incident.jsonb_concat (Incident.details inc)
                       [("lastViolationCount", JNum count);
                        ("updatedAt", JNum t)];
                   Incident.forensic_snapshot := Incident.forensic_snapshot inc;
                   Incident.auto_heal_attempts :=
                     Incident.auto_heal_attempts inc + 1;
                   Incident.auto_healed := Incident.auto_healed inc;
                   Incident.resolved_reason := Incident.resolved_reason inc;
                   Incident.created_at := Incident.created_at inc;
                   Incident.updated_at := t;
                   Incident.resolved_at := Incident.resolved_at inc;
                   Incident.escalated_at := Incident.escalated_at inc |})
             incidentId (Incident.incidents st);
     Incident.alerts := Incident.alerts st |}.

Definition incrementHealAttempts (a : Answers) (incidentId : string)
  (count : Z) (st : Incident.Store) : Query unit * Incident.Store :=
  if negb (update_ok a) then (Rejected, st)
  else
    let st1 := heal (now a) incidentId count st in
    if negb (reselect_ok a) then (Rejected, st1)
    else
      match Incident.incidents st1 !! incidentId with
      | None => (Resolved tt, st1)
      | Some u =>
          let ageMs := now a - Incident.created_at u in
          if (Incident.MAX_AUTO_HEAL_ATTEMPTS <=? Incident.auto_heal_attempts u)
             || (Incident.ESCALATE_AFTER_MS <? ageMs)
          then escalate a incidentId st1
          else (Resolved tt, st1)
      end.

(** [createIncident]: [dets] is [None] when [JSON.stringify(opts.details)]
    throws, which happens after the forensic snapshot and before the
    [INSERT]. *)
Definition createIncident (a : Answers) (prio : Incident.IncidentPriority)
  (ttl : string) (inv : option string) (dets : option (list (string * Json)))
  (st : Incident.Store) : Query string * Incident.Store :=
  match dets with
  | None => (Rejected, st)
  | Some d =>
      if negb (insert_ok a) then (Rejected, st)
      else
        let st' := snd (Incident.createIncident (now a) (newId a) (forensic a)
                          (body a) prio ttl inv d st) in
        if webhook_ok a then (Resolved (newId a), st')
        else (Rejected, {| Incident.incidents := Incident.incidents st';
                           Incident.alerts := Incident.alerts st |})
  end.

(** The object [{ violations: result.violations.slice(0, 50),
    violationCount: result.violations.length }] as [JSON.stringify] sees
    it: [None] when one of the fifty holds a BigInt. *)
Definition details_of (result : InvariantEngine.InvariantResult)
  : option (list (string * Json)) :=
  vs ← mapM InvariantEngine.violation_json
         (take 50 (InvariantEngine.violations result));
  Some [("violations", JArr vs);
        ("violationCount",
         JNum (Z.of_nat (length (InvariantEngine.violations result))))].

Definition createOrUpdateFromInvariant (a : Answers)
  (result : InvariantEngine.InvariantResult)
  (prio : Incident.IncidentPriority) (st : Incident.Store)
  : Query unit * Incident.Store :=
  let count := Z.of_nat (length (InvariantEngine.violations result)) in
  match existing a with
  | Rejected => (Rejected, st)
  | Resolved (Some id) =>
      if InvariantEngine.passed result && InvariantEngine.autoCorrected result
      then autoResolve a id "Auto-corrected by invariant engine" st
      else if negb (InvariantEngine.passed result)
      then incrementHealAttempts a id count st
      else (Resolved tt, st)
  | Resolved None =>
      if negb (InvariantEngine.passed result) then
        match createIncident a prio
                ("Invariant violation: " +:+ InvariantEngine.name result)
                (Some (InvariantEngine.name result))
                (details_of result) st with
        | (Resolved _, st') => (Resolved tt, st')
        | (Rejected, st') => (Rejected, st')
        end
      else (Resolved tt, st)
  end.

(** No incident that was not RESOLVED in [st] is RESOLVED in [st']. *)
Definition no_new_resolved (st st' : Incident.Store) : Prop :=
  forall id inc',
    Incident.incidents st' !! id = Some inc' ->
    Incident.status inc' = Incident.RESOLVED ->
    Incident.incidents st !! id = Some inc'.

End IncidentQueries.

(** ** The whole of a cycle

    [runAll] ends with the insert into [drift_scores] and one call of the
    incident manager for each failed result, all awaited outside any
    [try]: the first of them that rejects rejects [runAll], and the calls
    after it are not made. *)

Module Executor.

(** The calls of the last loop: [answers k] is what the [k]-th call meets.
    The result is how the loop settles, the incidents and alerts it leaves,
    and the calls it made. *)
Fixpoint handle (answers : nat -> IncidentQueries.Answers) (k : nat)
  (failed : list (InvariantEngine.InvariantResult * Incident.IncidentPriority))
  (st : Incident.Store)
  : Query unit * Incident.Store
    * list (InvariantEngine.InvariantResult * Incident.IncidentPriority) :=
  match failed with
  | [] => (Resolved tt, st, [])
  | (r, prio) :: rest =>
      match IncidentQueries.createOrUpdateFromInvariant (answers k) r prio st with
      | (Resolved _, st') =>
          let '(out, st'', made) := handle answers (S k) rest st' in
          (out, st'', (r, prio) :: made)
      | (Rejected, st') => (Rejected, st', [(r, prio)])
      end
  end.

(** [runAll]: [drift_ok] tells whether the database accepts the row of
    [drift_scores].  What is returned when it resolves is the pair of the
    results and the score. *)
Definition runAll (probe : string -> InvariantEngine.Probe) (drift_ok : bool)
  (answers : nat -> IncidentQueries.Answers) (st : Incident.Store)
  : Query (list InvariantEngine.InvariantResult * JsNumber) * Incident.Store
    * list (InvariantEngine.InvariantResult * Incident.IncidentPriority) :=
  let c := InvariantEngine.runAll probe in
  if drift_ok then
    match handle answers 0 (InvariantEngine.forwarded c) st with
    | (Resolved _, st', made) =>
        (Resolved (InvariantEngine.results c, InvariantEngine.score c),
         st', made)
    | (Rejected, st', made) => (Rejected, st', made)
    end
  else (Rejected, st, []).

(** A cycle that finds one invoice number twice, on a database that
    answers every statement: the [COUNT] of the check comes back as a
    BigInt. *)
Definition duplicate : InvariantEngine.ViolationRecord :=
  {| InvariantEngine.entityId := "INV-7";
     InvariantEngine.entityType := "Sale";
     InvariantEngine.shopId := Some "shop-1";
     InvariantEngine.detail :=
       [("invoiceNumber", InvariantEngine.Plain (JStr "INV-7"));
        ("duplicateCount", InvariantEngine.BigInt 2)] |}.

Definition duplicate_probe (n : string) : InvariantEngine.Probe :=
  {| InvariantEngine.check :=
       Resolved (if String.eqb n "NO_DUPLICATE_INVOICES" then [duplicate]
                 else []);
     InvariantEngine.autoCorrect_ok := true;
     InvariantEngine.persist_ok := true |}.

Definition duplicate_result : InvariantEngine.InvariantResult :=
  {| InvariantEngine.name := "NO_DUPLICATE_INVOICES";
     InvariantEngine.passed := false;
     InvariantEngine.driftScore := 90;
     InvariantEngine.violations := [duplicate];
     InvariantEngine.autoCorrected := false |}.

Definition all_resolve (k : nat) : IncidentQueries.Answers :=
  {| IncidentQueries.now := 1000 + Z.of_nat k;
     IncidentQueries.existing := Resolved None;
     IncidentQueries.resolve_ok := true;
     IncidentQueries.update_ok := true;
     IncidentQueries.reselect_ok := true;
     IncidentQueries.escalate_select_ok := true;
     IncidentQueries.escalate_update_ok := true;
     IncidentQueries.insert_ok := true;
     IncidentQueries.webhook_ok := true;
     IncidentQueries.newId := "inc-" +:+ pretty k;
     IncidentQueries.forensic := [];
     IncidentQueries.body := "";
     IncidentQueries.reason := "" |}.

End Executor.

(* ===================================================================== *)
(** ** autonomous/security-engine.ts: brute force, blocks, middleware *)
(* ===================================================================== *)

Module BruteForce.

Record BruteForceEntry := {
  failures  : list Z;
  locked    : bool;
  lockUntil : Z;
}.

Definition WINDOW_MS : Z := 15 * 60 * 1000.
Definition MAX_FAILS : Z := 10.
Definition LOCK_MS   : Z := 30 * 60 * 1000.

Definition fresh : BruteForceEntry :=
  {| failures := []; locked := false; lockUntil := 0 |}.

(** [recordFailure key] at clock [now]: the new entries and the returned
    [{ locked, failures }]. *)
Definition recordFailure (key : string) (now : Z)
  (entries : gmap string BruteForceEntry)
  : gmap string BruteForceEntry * (bool * nat) :=
  let entry := default fresh (entries !! key) in
  if locked entry && (now <? lockUntil entry) then
    (entries, (true, length (failures entry)))
  else
    let entry := if locked entry then fresh else entry in
    let fs := filter (fun t => now - t < WINDOW_MS) (failures entry) ++ [now] in
    let entry :=
      if MAX_FAILS <=? Z.of_nat (length fs)
      then {| failures := fs; locked := true; lockUntil := now + LOCK_MS |}
      else {| failures := fs; locked := locked entry;
              lockUntil := lockUntil entry |} in
    (<[key := entry]> entries, (locked entry, length (failures entry))).

Definition isLocked (key : string) (now : Z)
  (entries : gmap string BruteForceEntry) : bool :=
  match entries !! key with
  | Some e => locked e && (now <? lockUntil e)
  | None => false
  end.

Definition recordSuccess (key : string)
  (entries : gmap string BruteForceEntry) : gmap string BruteForceEntry :=
  delete key entries.

(** The calls made on the detector. *)
Inductive Op :=
  | Failure (key : string) (now : Z)
  | Success (key : string).

Definition apply (op : Op) (entries : gmap string BruteForceEntry)
  : gmap string BruteForceEntry :=
  match op with
  | Failure key now => fst (recordFailure key now entries)
  | Success key => recordSuccess key entries
  end.

Definition replay (ops : list Op) : gmap string BruteForceEntry :=
  fold_left (fun es op => apply op es) ops ∅.

End BruteForce.

Module Blocks.

(** A row of [security_blocks]; the unique column [target] is the map
    key. *)
Record SecurityBlock := {
  target_type : string;
  reason      : string;
  blocked_at  : Z;
  expires_at  : Z;
  lifted_at   : option Z;
  lifted_by   : option string;
}.

(** [INSERT ... ON CONFLICT (target) DO UPDATE SET reason, expires_at,
    lifted_at = NULL]. *)
Definition blockTarget (now : Z) (target targetType why : string) (minutes : Z)
  (blocks : gmap string SecurityBlock) : gmap string SecurityBlock :=
  match blocks !! target with
  | Some row =>
      <[target := {| target_type := target_type row; reason := why;
                     blocked_at := blocked_at row;
                     expires_at := now + minutes * 60000;
                     lifted_at := None; lifted_by := lifted_by row |}]> blocks
  | None =>
      <[target := {| target_type := targetType; reason := why;
                     blocked_at := now;
                     expires_at := now + minutes * 60000;
                     lifted_at := None; lifted_by := None |}]> blocks
  end.

(** [SELECT id ... WHERE target = t AND expires_at > NOW() AND lifted_at
    IS NULL]. *)
Definition isBlocked (now : Z) (target : string)
  (blocks : gmap string SecurityBlock) : bool :=
  match blocks !! target with
  | Some row =>
      (now <? expires_at row)
      && match lifted_at row with None => true | Some _ => false end
  | None => false
  end.

(** What [securityMiddleware] does with a request. *)
Inductive Verdict :=
  | Pass
  | Deny (code : Z) (error : string).

(** A request as the middleware reads it: [req.ip] and the id of the
    authenticated user, either of which may be absent. *)
Record Request := {
  ip     : option string;
  userId : option string;
}.

(** The key [`ip:${ip}`] of a request; an absent address prints as
    [undefined]. *)
Definition rate_key (req : Request) : string :=
  "ip:" +:+ default "undefined" (ip req).

(** A string is truthy unless it is empty. *)
Definition truthy (o : option string) : option string :=
  match o with
  | Some s => if String.eqb s "" then None else Some s
  | None => None
  end.

(** [securityMiddleware]: the rate limiter is consulted (and updated)
    first, then the persistent blocks of the address and of the user. *)
Definition securityMiddleware (now : Z) (req : Request)
  (windows : gmap string Security.RateWindow)
  (blocks : gmap string SecurityBlock)
  : gmap string Security.RateWindow * Verdict :=
  let '(windows', (rateBlocked, _)) :=
    Security.record (rate_key req) 100 now windows in
  if rateBlocked then (windows', Deny 429 "Too Many Requests")
  else if match truthy (ip req) with
          | Some a => isBlocked now a blocks
          | None => false
          end
  then (windows', Deny 403 "Access denied")
  else if match truthy (userId req) with
          | Some u => isBlocked now u blocks
          | None => false
          end
  then (windows', Deny 403 "Account temporarily suspended")
  else (windows', Pass).

End Blocks.

(* --------------------------------------------------------------------- *)
(** ** Latency tracker (performance-engine.ts) *)
(* --------------------------------------------------------------------- *)

Module LatencyTracker.

Record LatencyBucket := {
  samples   : list Q;
  lastReset : Z;
}.

Definition BUCKET_MAX : nat := 2000.
Definition RESET_MS : Z := 5 * 60 * 1000.

(** [record endpoint ms] at clock [now]: a missing bucket, or one last
    reset more than five minutes ago, is replaced by an empty one; the
    sample is pushed and, past 2000 samples, the oldest one is shifted
    out. *)
Definition record (endpoint : string) (ms : Q) (now : Z)
  (buckets : gmap string LatencyBucket) : gmap string LatencyBucket :=
  let bucket :=
    match buckets !! endpoint with
    | Some b =>
        if RESET_MS <? now - lastReset b
        then {| samples := []; lastReset := now |}
        else b
    | None => {| samples := []; lastReset := now |}
    end in
  let pushed := samples bucket ++ [ms] in
  <[endpoint := {| samples := if Nat.ltb BUCKET_MAX (length pushed)
                              then tail pushed else pushed;
                   lastReset := lastReset bucket |}]> buckets.

(** The calls made on the tracker: endpoint, duration and clock. *)
Definition replay (calls : list (string * Q * Z)) : gmap string LatencyBucket :=
  fold_left (fun buckets c => record c.1.1 c.1.2 c.2 buckets) calls ∅.

(** The order [(a, b) => a - b] sorts by. *)
Definition ascends (a b : Q) : Prop := Qleb a b = true.

#[global] Instance ascends_dec (a b : Q) : Decision (ascends a b).
Proof. unfold ascends. apply _. Defined.

(** [[...samples].sort((a, b) => a - b)]. *)
Definition ascending (l : list Q) : list Q := merge_sort ascends l.

(** [getPercentile endpoint p] for a double [p]; [None] is the [undefined]
    an index past the end of the array yields.  The index is computed in
    doubles: [p / 100] is rounded, and so is its product with the length
    (an array holds fewer than 2^32 elements, so the length is a double).
    A product that overflows is an infinity: past the end when positive,
    raised to 0 by [Math.max] when negative. *)
Definition getPercentile (endpoint : string) (p : Q)
  (buckets : gmap string LatencyBucket) : option Q :=
  match buckets !! endpoint with
  | None => Some (ratio 0 1)
  | Some b =>
      match samples b with
      | [] => Some (ratio 0 1)
      | _ =>
          let sorted := ascending (samples b) in
          let n := inject_Z (Z.of_nat (length sorted)) in
          match Double.round (p / ratio 100 1) with
          | Some q =>
              match Double.round (q * n) with
              | Some x => sorted !! Z.to_nat (Z.max 0 (Qceiling x - 1))
              | None => if Qle_bool (ratio 0 1) q then None else sorted !! 0%nat
              end
          | None => None
          end
      end
  end.

(** The samples 1, 2, ..., 100. *)
Definition hundred : LatencyBucket :=
  {| samples := map (fun k => ratio k 1) (seqZ 1 100); lastReset := 0 |}.

End LatencyTracker.

(* --------------------------------------------------------------------- *)
(** ** Overload predictor (performance-engine.ts) *)
(* --------------------------------------------------------------------- *)

Module Overload.

Record Readings := {
  p95Latency      : Q;
  latencyBaseline : Q;
  saturationPct   : Q;
  errorRate       : Q;
  memGrowthMbMin  : Q;
}.

(** The messages pushed on [signals], by kind and with the number each one
    prints. *)
Inductive Signal :=
  | LatencyDoubled (p95 : Q)
  | LatencyElevated
  | DbConnections (pct : Q)
  | ErrorRate (rate : Q)
  | MemoryGrowing (mbPerMin : Q).

Definition predictOverloadRisk (o : Readings) : Severity * Z * list Signal :=
  let score := 0 in
  let signals : list Signal := [] in
  let '(score, signals) :=
    if Qltb (latencyBaseline o * ratio 2 1)%Q (p95Latency o)
    then (score + 30, signals ++ [LatencyDoubled (p95Latency o)])
    else if Qltb (latencyBaseline o * ratio 3 2)%Q (p95Latency o)
    then (score + 15, signals ++ [LatencyElevated])
    else (score, signals) in
  let '(score, signals) :=
    if Qltb (ratio 85 1) (saturationPct o)
    then (score + 35, signals ++ [DbConnections (saturationPct o)])
    else if Qltb (ratio 70 1) (saturationPct o)
    then (score + 15, signals)
    else (score, signals) in
  let '(score, signals) :=
    if Qltb (ratio 5 100) (errorRate o)
    then (score + 30, signals ++ [ErrorRate (errorRate o)])
    else if Qltb (ratio 1 100) (errorRate o)
    then (score + 15, signals)
    else (score, signals) in
  let '(score, signals) :=
    if Qltb (ratio 10 1) (memGrowthMbMin o)
    then (score + 20, signals ++ [MemoryGrowing (memGrowthMbMin o)])
    else (score, signals) in
  let risk :=
    if 70 <=? score then CRITICAL
    else if 45 <=? score then HIGH
    else if 20 <=? score then MEDIUM
    else LOW in
  (risk, score, signals).

(** The factors that add to the score. *)
Definition contributing (o : Readings) : Z :=
  Z.b2z (Qltb (latencyBaseline o * ratio 3 2)%Q (p95Latency o)
         || Qltb (latencyBaseline o * ratio 2 1)%Q (p95Latency o))
  + Z.b2z (Qltb (ratio 70 1) (saturationPct o))
  + Z.b2z (Qltb (ratio 1 100) (errorRate o))
  + Z.b2z (Qltb (ratio 10 1) (memGrowthMbMin o)).

End Overload.

(* --------------------------------------------------------------------- *)
(** ** Leaving safe mode (health-score.ts) *)
(* --------------------------------------------------------------------- *)

Module SafeModeControl.

(** [expected && expected !== overrideToken]: a stored token that is
    neither NULL nor empty must be matched; [None] is a missing
    [overrideToken]. *)
Definition refuses (expected supplied : option string) : bool :=
  match expected with
  | Some e => negb (String.eqb e "") && negb (bool_decide (Some e = supplied))
  | None => false
  end.

(** [disableSafeMode overrideToken disabledBy] at clock [t]: the state
    afterwards and the returned boolean. *)
Definition disableSafeMode (t : Z) (overrideToken : option string)
  (disabledBy : string) (st : Health.State) : Health.State * bool :=
  let expected := Health.system_mode st ≫= Health.override_token in
  if refuses expected overrideToken then (st, false)
  else
    let st1 :=
      {| Health.system_mode :=
           (fun row => {| Health.safe_mode := false;
                          Health.safe_mode_reason := None;
                          Health.enabled_at := None;
                          Health.enabled_by := Health.enabled_by row;
                          Health.override_token := None;
                          Health.updated_at := t |})
           <$> Health.system_mode st;
         Health.health_scores := Health.health_scores st;
         Health.registry := Health.registry st;
         Health.alerts := Health.alerts st;
         Health.alerts_bound := Health.alerts_bound st |} in
    (Health.gauge "system.safe_mode" (ratio 0 1) t st1, true).

(** [UPDATE system_mode SET override_token = token WHERE id = 1]. *)
Definition setSafeModeOverrideToken (token : string) (st : Health.State)
  : Health.State :=
  {| Health.system_mode :=
       (fun row => {| Health.safe_mode := Health.safe_mode row;
                      Health.safe_mode_reason := Health.safe_mode_reason row;
                      Health.enabled_at := Health.enabled_at row;
                      Health.enabled_by := Health.enabled_by row;
                      Health.override_token := Some token;
                      Health.updated_at := Health.updated_at row |})
       <$> Health.system_mode st;
     Health.health_scores := Health.health_scores st;
     Health.registry := Health.registry st;
     Health.alerts := Health.alerts st;
     Health.alerts_bound := Health.alerts_bound st |}.

End SafeModeControl.

(* --------------------------------------------------------------------- *)
(** ** Deployment gates and the rollback watcher (deployment-gates.ts) *)
(* --------------------------------------------------------------------- *)

Module DeploymentGates.

(** A gate's result.  Its [detail] text prints floating-point numbers and
    is left out. *)
Record GateResult := {
  gate     : string;
  passed   : bool;
  blocking : bool;
}.

Definition DRIFT_SCORE_THRESHOLD : Q := ratio 85 1.
Definition COVERAGE_THRESHOLD : Q := ratio 85 1.
Definition BACKUP_MAX_AGE_HOURS : Q := ratio 24 1.
Definition ERROR_RATE_THRESHOLD : Q := ratio 3 100.

(** What the coverage run gave: [spawnSync] threw, or it finished with the
    percentage read from its output (0 when none is found) and an exit
    status that is zero or not. *)
Inductive Coverage :=
  | SpawnThrew
  | Finished (pct : Q) (status_zero : bool).

(** What the collaborators answer during one run. *)
Record Env := {
  now           : Z;
  incidents     : Query Incident.Store;
  drift         : Query (option Q);
  latest_backup : Query (option Z);
  registry      : Metrics.Registry;
  pending       : Query (list string);
  coverage      : Coverage;
  insert_ok     : bool;
}.

Definition gateNoOpenP1 (e : Env) : Query GateResult :=
  match incidents e with
  | Resolved st =>
      Resolved {| gate := "NO_OPEN_P1_INCIDENTS";
                  passed := IncidentQueries.getOpenP1Count st =? 0;
                  blocking := true |}
  | Rejected => Rejected
  end.

Definition gateDriftScore (e : Env) : Query GateResult :=
  match Health.getDriftScore (drift e) with
  | Resolved score =>
      Resolved {| gate := "DRIFT_SCORE";
                  passed := Qleb DRIFT_SCORE_THRESHOLD score;
                  blocking := true |}
  | Rejected => Rejected
  end.

Definition gateCoverage (e : Env) : Query GateResult :=
  match coverage e with
  | SpawnThrew =>
      Resolved {| gate := "TEST_COVERAGE"; passed := false; blocking := true |}
  | Finished pct status_zero =>
      if Qeq_bool pct (ratio 0 1) && negb status_zero
      then Resolved {| gate := "TEST_COVERAGE"; passed := false;
                       blocking := true |}
      else Resolved {| gate := "TEST_COVERAGE";
                       passed := Qleb COVERAGE_THRESHOLD pct;
                       blocking := true |}
  end.

Definition gateBackupFreshness (e : Env) : Query GateResult :=
  match latest_backup e with
  | Rejected => Rejected
  | Resolved None =>
      Resolved {| gate := "BACKUP_FRESHNESS"; passed := false;
                  blocking := true |}
  | Resolved (Some validated_at) =>
      let ageMs := now e - validated_at in
      let ageHrs := (inject_Z ageMs / ratio 3600000 1)%Q in
      Resolved {| gate := "BACKUP_FRESHNESS";
                  passed := Qltb ageHrs BACKUP_MAX_AGE_HOURS;
                  blocking := true |}
  end.

Definition gateErrorRate (e : Env) : Query GateResult :=
  let rate := Metrics.getGauge "http.error_rate" (registry e) in
  Resolved {| gate := "ERROR_RATE";
              passed := Qleb rate ERROR_RATE_THRESHOLD;
              blocking := true |}.

Definition gateMigrations (e : Env) : Query GateResult :=
  match pending e with
  | Resolved names =>
      Resolved {| gate := "MIGRATIONS_CLEAN";
                  passed := Nat.eqb (length names) 0;
                  blocking := true |}
  | Rejected => Rejected
  end.

(** A row of [deployment_gates]. *)
Record GateRow := {
  row_passed   : bool;
  row_gates    : list GateResult;
  row_blockers : list GateResult;
  triggered_by : string;
}.

Record State := {
  deployment_gates : list GateRow;
  alerts           : list Alert;
}.

(** How a run ends: it returns, it throws [Deployment blocked], or the
    insert of the gate log rejects. *)
Inductive Outcome :=
  | Approved
  | Blocked
  | InsertRejected.

Definition checks (e : Env) (skipCoverage : bool) : list (Query GateResult) :=
  [gateNoOpenP1 e; gateDriftScore e; gateBackupFreshness e; gateErrorRate e;
   gateMigrations e]
  ++ (if skipCoverage then [] else [gateCoverage e]).

(** [Promise.allSettled] followed by the [map]: a rejected check becomes a
    failed, blocking gate named after its position. *)
Definition settle (i : nat) (r : Query GateResult) : GateResult :=
  match r with
  | Resolved g => g
  | Rejected => {| gate := "GATE_" +:+ pretty i; passed := false;
                   blocking := true |}
  end.

Definition blocked_title (n : nat) : string :=
  "Deployment BLOCKED (" +:+ pretty n +:+ " gate"
  +:+ (if Nat.ltb 1 n then "s" else "") +:+ " failed)".

(** Modelled from the spec: [alertWebhook] of monitoring/alerts.ts appends
    the payload to the alerts sent so far.  The body lists the blocking
    gates by name. *)
Definition runDeploymentGates (e : Env) (triggeredBy : option string)
  (skipCoverage : bool) (st : State) : Outcome * State :=
  let gates := imap settle (checks e skipCoverage) in
  let blockers := List.filter (fun g => negb (passed g) && blocking g) gates in
  if negb (insert_ok e) then (InsertRejected, st)
  else
    let st1 :=
      {| deployment_gates :=
           deployment_gates st ++
           [{| row_passed := Nat.eqb (length blockers) 0;
               row_gates := gates; row_blockers := blockers;
               triggered_by := default "system" triggeredBy |}];
         alerts := alerts st |} in
    if Nat.ltb 0 (length blockers) then
      (Blocked,
       {| deployment_gates := deployment_gates st1;
          alerts := alerts st1 ++
            [{| alert_severity := CRITICAL;
                alert_title := blocked_title (length blockers);
                alert_body :=
                  String.concat newline
                    (map (fun b => "🚫 " +:+ gate b) blockers) |}] |})
    else (Approved, st1).

End DeploymentGates.

Module RollbackWatcher.

(** The literal [0.03] is the double nearest to 3/100. *)
Definition ERROR_SPIKE_THRESHOLD : Q :=
  default (ratio 0 1) (Double.round (ratio 3 100)).
Definition LATENCY_SPIKE_MULTIPLIER : Q := ratio 2 1.

(** The fields of the watcher; [watching] tells whether the timer set by
    [start] is still set. *)
Record Watcher := {
  baselineErrorRate : Q;
  baselineP95       : gmap string Q;
  spikeDetectedAt   : option Z;
  watching          : bool;
}.

(** What one [check] reads: the clock, the error-rate gauge and the 95th
    percentile of every tracked endpoint. *)
Record Reading := {
  at_ms        : Z;
  currentError : Q;
  latencies    : list (string * Q);
}.

Definition errorSpike (w : Watcher) (r : Reading) : bool :=
  Qltb ERROR_SPIKE_THRESHOLD (currentError r)
  && Qltb (baselineErrorRate w * ratio 2 1)%Q (currentError r).

Definition latencySpike (w : Watcher) (r : Reading) : bool :=
  existsb
    (fun ep =>
       let baseline := default (ratio 200 1) (baselineP95 w !! ep.1) in
       Qltb (baseline * LATENCY_SPIKE_MULTIPLIER)%Q ep.2
       && Qltb (ratio 500 1) ep.2)
    (latencies r).

(** [!this.spikeDetectedAt]: unset, or the number 0. *)
Definition unset (o : option Z) : bool :=
  match o with
  | Some t => t =? 0
  | None => true
  end.

Definition detected (o : option Z) (w : Watcher) : Watcher :=
  {| baselineErrorRate := baselineErrorRate w;
     baselineP95 := baselineP95 w;
     spikeDetectedAt := o;
     watching := watching w |}.

(** [stop()] clears the timer. *)
Definition stop (w : Watcher) : Watcher :=
  {| baselineErrorRate := baselineErrorRate w;
     baselineP95 := baselineP95 w;
     spikeDetectedAt := spikeDetectedAt w;
     watching := false |}.

(** [check] up to its first [await]: the watcher afterwards, and whether
    the rollback sequence is begun.  Beginning it changes no field: the
    timer is stopped only after the alert and the incident. *)
Definition check (r : Reading) (w : Watcher) : Watcher * bool :=
  if errorSpike w r || latencySpike w r then
    if unset (spikeDetectedAt w) then (detected (Some (at_ms r)) w, false)
    else if 60000 <? at_ms r - default 0 (spikeDetectedAt w) then (w, true)
    else (w, false)
  else (detected None w, false).

(** Where a check that began the rollback sequence is suspended:
    [await alertWebhook(...)], [await incidentManager.createIncident(...)],
    or, after [this.stop()], [await this.rollbackFn()]. *)
Inductive Stage := AwaitAlert | AwaitIncident | AwaitRollback.

(** The watcher, the suspended checks (oldest first), and how often the
    webhook, [createIncident] and [rollbackFn] have been called. *)
Record State := {
  watcher   : Watcher;
  inflight  : list Stage;
  alerts    : nat;
  incidents : nat;
  rollbacks : nat;
}.

(** What happens to a watcher: the timer fires and [check] runs on a
    reading, or the promise the [i]-th suspended check awaits settles,
    resolved or rejected.  Nothing in [check] catches a rejection. *)
Inductive Event :=
  | Tick (r : Reading)
  | Settle (i : nat) (ok : bool).

(** One event.  The timer does not fire once it is cleared; [None] marks
    a settlement without a suspended check, which no run has. *)
Definition step (e : Event) (s : State) : option State :=
  match e with
  | Tick r =>
      if watching (watcher s) then
        let '(w, begun) := check r (watcher s) in
        Some (if begun
              then {| watcher := w;
                      inflight := inflight s ++ [AwaitAlert];
                      alerts := S (alerts s);
                      incidents := incidents s;
                      rollbacks := rollbacks s |}
              else {| watcher := w;
                      inflight := inflight s;
                      alerts := alerts s;
                      incidents := incidents s;
                      rollbacks := rollbacks s |})
      else Some s
  | Settle i ok =>
      match inflight s !! i with
      | None => None
      | Some AwaitAlert =>
          Some (if ok
                then {| watcher := watcher s;
                        inflight := <[i := AwaitIncident]> (inflight s);
                        alerts := alerts s;
                        incidents := S (incidents s);
                        rollbacks := rollbacks s |}
                else {| watcher := watcher s;
                        inflight := delete i (inflight s);
                        alerts := alerts s;
                        incidents := incidents s;
                        rollbacks := rollbacks s |})
      | Some AwaitIncident =>
          Some (if ok
                then {| watcher := stop (watcher s);
                        inflight := <[i := AwaitRollback]> (inflight s);
                        alerts := alerts s;
                        incidents := incidents s;
                        rollbacks := S (rollbacks s) |}
                else {| watcher := watcher s;
                        inflight := delete i (inflight s);
                        alerts := alerts s;
                        incidents := incidents s;
                        rollbacks := rollbacks s |})
      | Some AwaitRollback =>
          Some {| watcher := watcher s;
                  inflight := delete i (inflight s);
                  alerts := alerts s;
                  incidents := incidents s;
                  rollbacks := rollbacks s |}
      end
  end.

Fixpoint run (l : list Event) (s : State) : option State :=
  match l with
  | [] => Some s
  | e :: l' =>
      match step e s with
      | Some s' => run l' s'
      | None => None
      end
  end.

(** A watcher that was just started. *)
Definition started (w : Watcher) : State :=
  {| watcher := w; inflight := []; alerts := 0; incidents := 0;
     rollbacks := 0 |}.

End RollbackWatcher.

(* ===================================================================== *)
(** * Properties *)
(* ===================================================================== *)

(** ** Circuit breaker in state HALF_OPEN *)

Section CircuitBreakerFacts.
Import CircuitBreaker.
Variable cfg : Config.

(** A call made in HALF_OPEN always reaches the callable. *)
Lemma half_open_forwards t0 t1 ok b :
  state b = HALF_OPEN -> snd (call cfg t0 t1 ok b) <> RejectedOpen.
Proof.
  intros Hs. unfold call. rewrite Hs. destruct ok; discriminate.
Qed.

(** A successful probe below the quota is counted and leaves the breaker
    in HALF_OPEN. *)
Lemma half_open_success_counts t0 t1 b :
  state b = HALF_OPEN ->
  successCount b + 1 < halfOpenProbes cfg ->
  state (fst (call cfg t0 t1 true b)) = HALF_OPEN /\
  successCount (fst (call cfg t0 t1 true b)) = successCount b + 1.
Proof.
  intros Hs Hlt. unfold call, onSuccess. rewrite Hs. cbn.
  rewrite Hs. cbn.
  destruct (Z.leb_spec (halfOpenProbes cfg) (successCount b + 1)); [lia|].
  cbn. auto.
Qed.

(** The probe that reaches the quota closes the breaker and resets the
    probe counter. *)
Lemma half_open_success_closes t0 t1 b :
  state b = HALF_OPEN ->
  halfOpenProbes cfg <= successCount b + 1 ->
  state (fst (call cfg t0 t1 true b)) = CLOSED /\
  successCount (fst (call cfg t0 t1 true b)) = 0 /\
  lastStateChange (fst (call cfg t0 t1 true b)) = t1.
Proof.
  intros Hs Hle. unfold call, onSuccess. rewrite Hs. cbn.
  rewrite Hs. cbn.
  destruct (Z.leb_spec (halfOpenProbes cfg) (successCount b + 1)); [|lia].
  cbn. auto.
Qed.

(** What a failure in HALF_OPEN does: only the failure counter decides. *)
Lemma half_open_failure_state t0 t1 b :
  state b = HALF_OPEN ->
  state (fst (call cfg t0 t1 false b)) =
    if failureThreshold cfg <=? failureCount b + 1 then OPEN else HALF_OPEN.
Proof.
  intros Hs. unfold call, onFailure. rewrite Hs. cbn.
  destruct (failureThreshold cfg <=? failureCount b + 1); cbn; auto.
Qed.

(** A failure in HALF_OPEN reopens the breaker when the failure counter
    reaches the threshold, as it does right after the breaker has left OPEN
    with its counter untouched. *)
Lemma half_open_failure_reopens_at_threshold t0 t1 b :
  state b = HALF_OPEN ->
  failureThreshold cfg <= failureCount b + 1 ->
  state (fst (call cfg t0 t1 false b)) = OPEN.
Proof.
  intros Hs Hle. rewrite half_open_failure_state by assumption.
  destruct (Z.leb_spec (failureThreshold cfg) (failureCount b + 1));
    [reflexivity|lia].
Qed.

(** A call that returns zeroes the failure counter. *)
Lemma success_resets_failures t0 t1 b :
  snd (call cfg t0 t1 true b) = Returned ->
  failureCount (fst (call cfg t0 t1 true b)) = 0.
Proof.
  unfold call.
  destruct (state b) eqn:Hs;
    [ | destruct (resetTimeoutMs cfg <? t0 - lastStateChange b); [|discriminate] | ];
    intros _; unfold onSuccess; cbn; rewrite ?Hs; cbn;
    repeat match goal with |- context [if ?c then _ else _] => destruct c end;
    reflexivity.
Qed.

End CircuitBreakerFacts.

(** C7: with the default parameters, five failures open the breaker; after
    the reset timeout a successful call is forwarded in HALF_OPEN and counted
    as the first probe; the failure that follows is rethrown but leaves the
    breaker in HALF_OPEN instead of moving it back to OPEN. *)
Theorem half_open_failure_after_probe_stays_half_open :
  let b0 := CircuitBreaker.calls CircuitBreaker.defaults
              [(1000, 1001, false); (1002, 1003, false); (1004, 1005, false);
               (1006, 1007, false); (1008, 1009, false)]
              (CircuitBreaker.create 0) in
  let b1 := fst (CircuitBreaker.call CircuitBreaker.defaults 40000 40001 true b0) in
  let r2 := CircuitBreaker.call CircuitBreaker.defaults 40010 40011 false b1 in
  CircuitBreaker.state b0 = CircuitBreaker.OPEN /\
  CircuitBreaker.state b1 = CircuitBreaker.HALF_OPEN /\
  CircuitBreaker.successCount b1 = 1 /\
  snd r2 = CircuitBreaker.Rethrown /\
  CircuitBreaker.state (fst r2) = CircuitBreaker.HALF_OPEN.
Proof. vm_compute. repeat split; reflexivity. Qed.

(** ** Idempotency registry *)

Section IdempotencyFacts.
Import Idempotency.
Variables (key : string) (ttlSeconds : Z) (fn : FnOutcome).

(** The number of rows the insert reports is dropped: whatever the table
    holds, the step after the insert is the callable. *)
Lemma insert_step_goes_to_fn now w :
  fst (step key ttlSeconds fn now AtInsert w) = AtFn.
Proof.
  unfold step. destruct (insert_lock key now ttlSeconds (db w)). reflexivity.
Qed.

(** A lost race leaves the table as it was. *)
Lemma insert_lock_conflict now d r :
  d !! key = Some r -> insert_lock key now ttlSeconds d = (d, 0).
Proof. intros H. unfold insert_lock. rewrite H. reflexivity. Qed.

(** The waiting branch: a live locked row sends the caller to sleep and
    back to the lookup, without running the callable. *)
Lemma lookup_locked_waits now w r :
  lookup_live key now (db w) = Some r -> locked r = true ->
  step key ttlSeconds fn now AtLookup w = (AtSleep, w) /\
  step key ttlSeconds fn now AtSleep w = (AtLookup, w).
Proof. intros H Hl. unfold step. rewrite H, Hl. auto. Qed.

(** A live unlocked row is a cache hit. *)
Lemma lookup_unlocked_hits now w r :
  lookup_live key now (db w) = Some r -> locked r = false ->
  step key ttlSeconds fn now AtLookup w =
    (Finished (Result true (status_code r) (response_body r)), w).
Proof. intros H Hl. unfold step. rewrite H, Hl. auto. Qed.

End IdempotencyFacts.

(** C1: two callers of [execute "K1" fn]; both look the key up before either
    inserts.  The first insert creates the locked row; the second inserts
    nothing (the row exists and is live), yet the second caller goes on to
    the callable: [fn] runs twice for one live key and both callers get an
    uncached result. *)
Theorem execute_lost_race_runs_fn_twice :
  let fn := Idempotency.FnOk 201 "A" in
  let s1 := Idempotency.run "K1" 86400 fn [(0, 0%nat); (1, 1%nat); (2, 0%nat)]
              (Idempotency.start 2) in
  let s2 := Idempotency.tick "K1" 86400 fn (3, 1%nat) s1 in
  let s3 := Idempotency.run "K1" 86400 fn
              [(4, 0%nat); (5, 1%nat); (6, 0%nat); (7, 1%nat)] s2 in
  Idempotency.callers s1 = [Idempotency.AtFn; Idempotency.AtInsert] /\
  (Idempotency.locked <$>
     Idempotency.lookup_live "K1" 3 (Idempotency.db (Idempotency.world s1)))
    = Some true /\
  snd (Idempotency.insert_lock "K1" 3 86400
         (Idempotency.db (Idempotency.world s1))) = 0 /\
  Idempotency.callers s2 = [Idempotency.AtFn; Idempotency.AtFn] /\
  Idempotency.invocations (Idempotency.world s3) = 2%nat /\
  Idempotency.callers s3 =
    [Idempotency.Finished (Idempotency.Result false (Some 201) (Some "A"));
     Idempotency.Finished (Idempotency.Result false (Some 201) (Some "A"))].
Proof. vm_compute. repeat split; reflexivity. Qed.

(** ** Incident manager: escalation *)

Section IncidentFacts.
Import Incident.

(** Escalating an incident that is not yet escalated writes the new
    status and the escalation time, and sends one alert. *)
Lemma escalate_sets_escalated now id reason st inc :
  incidents st !! id = Some inc ->
  status inc <> ESCALATED ->
  incidents (escalate now id reason st) !! id = Some (escalated_row now inc) /\
  length (alerts (escalate now id reason st)) = S (length (alerts st)).
Proof.
  intros Hin Hne. unfold escalate. rewrite Hin.
  destruct (decide (status inc = ESCALATED)) as [|_]; [contradiction|].
  cbn. rewrite lookup_alter_eq, Hin. split; [reflexivity|].
  rewrite length_app. cbn. lia.
Qed.

(** An escalated incident is left alone: no write, no alert. *)
Lemma escalate_already_escalated now id reason st inc :
  incidents st !! id = Some inc ->
  status inc = ESCALATED ->
  escalate now id reason st = st.
Proof.
  intros Hin He. unfold escalate. rewrite Hin.
  destruct (decide (status inc = ESCALATED)); [reflexivity|contradiction].
Qed.

(** Escalation is idempotent: the second call changes nothing, so the
    first [escalated_at] stays. *)
Lemma escalate_idempotent now1 now2 id r1 r2 st :
  escalate now2 id r2 (escalate now1 id r1 st) = escalate now1 id r1 st.
Proof.
  destruct (incidents st !! id) as [inc|] eqn:Hin.
  - destruct (decide (status inc = ESCALATED)) as [He|Hne].
    + rewrite (escalate_already_escalated now1 id r1 st inc Hin He).
      apply (escalate_already_escalated now2 id r2 st inc Hin He).
    + destruct (escalate_sets_escalated now1 id r1 st inc Hin Hne) as [Hrow _].
      apply (escalate_already_escalated now2 id r2 _ _ Hrow). reflexivity.
  - unfold escalate at 2. rewrite Hin. unfold escalate. rewrite Hin. reflexivity.
Qed.

(** The only status [escalate] looks at is ESCALATED: a terminal incident
    is escalated like an open one. *)
Lemma escalate_ignores_terminal now id reason st inc :
  incidents st !! id = Some inc ->
  terminal (status inc) = true ->
  status <$> incidents (escalate now id reason st) !! id = Some ESCALATED.
Proof.
  intros Hin Ht.
  assert (Hne : status inc <> ESCALATED)
    by (intros E; rewrite E in Ht; discriminate).
  destruct (escalate_sets_escalated now id reason st inc Hin Hne) as [-> _].
  reflexivity.
Qed.

(** The sibling transition does check: [autoResolve] leaves a terminal
    incident as it is. *)
Lemma autoResolve_terminal_noop now id reason st inc :
  incidents st !! id = Some inc ->
  terminal (status inc) = true ->
  incidents (autoResolve now id reason st) !! id = Some inc.
Proof.
  intros Hin Ht. unfold autoResolve. cbn.
  rewrite lookup_alter_eq, Hin. cbn. rewrite Ht. reflexivity.
Qed.

End IncidentFacts.

(** C2: an incident resolved at time 500 is escalated at time 1000: its
    status goes from RESOLVED back to ESCALATED, [escalated_at] is set and an
    alert is sent, whereas [autoResolve] on the same store changes nothing. *)
Theorem escalate_moves_resolved_incident_to_escalated :
  let inc :=
    {| Incident.priority := Incident.P1; Incident.status := Incident.RESOLVED;
       Incident.title := "Invariant violation: NO_NEGATIVE_STOCK";
       Incident.invariant := Some "NO_NEGATIVE_STOCK";
       Incident.details := []; Incident.forensic_snapshot := None;
       Incident.auto_heal_attempts := 1; Incident.auto_healed := true;
       Incident.resolved_reason := Some "Auto-corrected by invariant engine";
       Incident.created_at := 100; Incident.updated_at := 500;
       Incident.resolved_at := Some 500; Incident.escalated_at := None |} in
  let st := {| Incident.incidents := {[ "inc-1" := inc ]};
               Incident.alerts := [] |} in
  let st' := Incident.escalate 1000 "inc-1" "manual" st in
  Incident.status <$> Incident.incidents st' !! "inc-1"
    = Some Incident.ESCALATED /\
  Incident.escalated_at <$> Incident.incidents st' !! "inc-1"
    = Some (Some 1000) /\
  length (Incident.alerts st') = 1%nat /\
  Incident.incidents (Incident.autoResolve 1000 "inc-1" "manual" st) !! "inc-1"
    = Some inc.
Proof. vm_compute. repeat split; reflexivity. Qed.

(** ** Sliding-window rate limiter *)

Section RateLimiterFacts.
Import Security.
Variable limit : Z.
Hypothesis limit_nonneg : 0 <= limit.

Lemma fresh_ok : window_ok limit fresh.
Proof. split; cbn; lia. Qed.

Lemma record_ok key now ws :
  windows_ok limit ws -> windows_ok limit (fst (record key limit now ws)).
Proof.
  intros Hok. unfold record.
  set (w0 := default fresh (ws !! key)).
  assert (H0 : window_ok limit w0).
  { unfold w0. destruct (ws !! key) as [w|] eqn:E; cbn; [eauto|apply fresh_ok]. }
  destruct (blocked w0 && (now <? blockUntil w0)) eqn:Hb; [exact Hok|].
  cbn. intros k w Hk.
  destruct (decide (k = key)) as [->|Hne];
    [rewrite lookup_insert_eq in Hk | rewrite lookup_insert_ne in Hk by congruence; eauto].
  set (w1 := if blocked w0 && (blockUntil w0 <=? now) then fresh else w0) in *.
  assert (H1 : blocked w1 = false /\ Z.of_nat (length (timestamps w1)) <= limit).
  { unfold w1. destruct (blocked w0) eqn:Hbl; cbn in *.
    - destruct (Z.ltb_spec now (blockUntil w0)); [discriminate|].
      destruct (Z.leb_spec (blockUntil w0) now); [|lia].
      cbn. split; [reflexivity|lia].
    - split; [assumption|]. apply H0. assumption. }
  destruct H1 as [Hbl1 Hlen1].
  pose proof (length_filter (fun t => now - t < WINDOW_MS) (timestamps w1)) as Hf.
  set (ts := filter (fun t => now - t < WINDOW_MS) (timestamps w1) ++ [now]) in *.
  assert (Hts : Z.of_nat (length ts) <= limit + 1).
  { unfold ts. rewrite length_app. cbn. lia. }
  destruct (Z.ltb_spec limit (Z.of_nat (length ts))); inversion Hk; subst w;
    split; cbn; try lia; try discriminate.
Qed.

Lemma cleanup_ok now ws : windows_ok limit ws -> windows_ok limit (cleanup now ws).
Proof.
  intros Hok k w Hk. unfold cleanup in Hk.
  apply map_lookup_filter_Some in Hk as [Hk _]. eauto.
Qed.

Lemma apply_ok op ws : windows_ok limit ws -> windows_ok limit (apply limit op ws).
Proof. destruct op; cbn; [apply record_ok | apply cleanup_ok]. Qed.

Lemma replay_from_ok ops ws :
  windows_ok limit ws ->
  windows_ok limit (fold_left (fun ws op => apply limit op ws) ops ws).
Proof.
  revert ws. induction ops as [|op ops IH]; intros ws Hok; cbn; [assumption|].
  apply IH, apply_ok, Hok.
Qed.

Lemma replay_ok ops : windows_ok limit (replay limit ops).
Proof. apply replay_from_ok. intros k w Hk. rewrite lookup_empty in Hk. discriminate. Qed.

Lemma in_interval_le a w : (in_interval a w <= length (timestamps w))%nat.
Proof. unfold in_interval. apply length_filter. Qed.

(** While blocked, [record] answers [blocked] and stores nothing. *)
Lemma record_while_blocked key now ws w :
  ws !! key = Some w -> blocked w = true -> now < blockUntil w ->
  record key limit now ws = (ws, (true, length (timestamps w))).
Proof.
  intros Hk Hb Hlt. unfold record. rewrite Hk. cbn. rewrite Hb. cbn.
  destruct (Z.ltb_spec now (blockUntil w)); [reflexivity|lia].
Qed.

(** Once the block has lapsed, [record] forgets the old window: it does
    what it does for a key it has never seen, and the stored timestamps
    are the new request alone. *)
Lemma record_after_block key now ws w :
  ws !! key = Some w -> blocked w = true -> blockUntil w <= now ->
  record key limit now ws = record key limit now (delete key ws) /\
  timestamps <$> fst (record key limit now ws) !! key = Some [now].
Proof.
  intros Hk Hb Hle. unfold record.
  rewrite Hk, lookup_delete_eq. cbn. rewrite Hb. cbn.
  destruct (Z.ltb_spec now (blockUntil w)); [lia|].
  destruct (Z.leb_spec (blockUntil w) now); [|lia].
  cbn. rewrite insert_delete_eq. split; [reflexivity|].
  rewrite lookup_insert_eq. cbn.
  destruct (limit <? Z.of_nat 1); reflexivity.
Qed.

End RateLimiterFacts.

(** C9: for a limit that is not negative, whatever calls are made on the
    limiter, no window ever stores more than [limit + 1] timestamps, in any
    60-second interval or in total; a call on a key that is blocked and whose
    block has not lapsed answers [blocked] and leaves the store untouched; and
    a call at or after [blockUntil] drops the old window, the new request
    being the only timestamp kept. *)
Theorem rate_limiter_bounded_and_blocking (limit : Z) :
  0 <= limit ->
  (forall ops key w a,
      Security.replay limit ops !! key = Some w ->
      Z.of_nat (Security.in_interval a w) <= limit + 1 /\
      Z.of_nat (length (Security.timestamps w)) <= limit + 1) /\
  (forall key now ws w,
      ws !! key = Some w -> Security.blocked w = true ->
      now < Security.blockUntil w ->
      Security.record key limit now ws
        = (ws, (true, length (Security.timestamps w)))) /\
  (forall key now ws w,
      ws !! key = Some w -> Security.blocked w = true ->
      Security.blockUntil w <= now ->
      Security.record key limit now ws
        = Security.record key limit now (delete key ws) /\
      Security.timestamps <$> fst (Security.record key limit now ws) !! key
        = Some [now]).
Proof.
  intros Hl. split; [|split].
  - intros ops key w a Hk.
    destruct (replay_ok limit Hl ops key w Hk) as [_ Hlen].
    pose proof (in_interval_le a w). split; lia.
  - intros key now ws w. apply record_while_blocked.
  - intros key now ws w. apply record_after_block.
Qed.

Lemma rate_limiter_bounded_and_blocking_witness :
  0 <= 2 /\
  Z.of_nat
    (length
       (Security.timestamps
          (default Security.fresh
             (Security.replay 2
                [Security.Record "ip:10.0.0.1" 0; Security.Record "ip:10.0.0.1" 1;
                 Security.Record "ip:10.0.0.1" 2; Security.Record "ip:10.0.0.1" 3]
              !! "ip:10.0.0.1")))) <= 2 + 1.
Proof.
  assert (H02 : 0 <= 2) by lia.
  split; [exact H02|].
  pose proof (proj1 (rate_limiter_bounded_and_blocking 2 H02)) as Hb.
  destruct (Security.replay 2 _ !! "ip:10.0.0.1") as [w|] eqn:E; cbn [default].
  - exact (proj2 (Hb _ _ _ 0 E)).
  - cbn. lia.
Defined.

(** ** Audit chain verification *)

Section AuditChainFacts.
Import Security.

(** The first row the query returns carries no previous hash. *)
Lemma query_lookup_first limit log row lag :
  rows limit log !! 0%nat = Some (row, lag) -> lag = None.
Proof.
  unfold rows, with_lag. rewrite lookup_take_Some. intros [H _].
  apply lookup_zip_with_Some in H as (x & y & Hxy & _ & Hy).
  cbn in Hy. congruence.
Qed.

(** Every later row carries the [row_hash] of the row before it. *)
Lemma query_lookup_later limit log m row lag :
  rows limit log !! S m = Some (row, lag) <->
  (S m < limit)%nat /\ log !! S m = Some row /\
  exists prev, log !! m = Some prev /\ lag = row_hash prev.
Proof.
  unfold rows, with_lag. rewrite lookup_take_Some. split.
  - intros [H Hlt]. apply lookup_zip_with_Some in H as (x & y & Hxy & Hx & Hy).
    change ((row_hash <$> log) !! m = Some y) in Hy.
    rewrite list_lookup_fmap in Hy.
    destruct (log !! m) as [prev|] eqn:Hm; [|discriminate].
    cbn in Hy. inversion Hxy; subst. inversion Hy; subst. eauto.
  - intros (Hlt & Hrow & prev & Hprev & ->). split; [|assumption].
    apply lookup_zip_with_Some. exists row, (row_hash prev).
    split; [reflexivity|]. split; [assumption|].
    change ((row_hash <$> log) !! m = Some (row_hash prev)).
    rewrite list_lookup_fmap, Hprev. reflexivity.
Qed.

(** Whatever the first row holds, the verifier does not judge it. *)
Lemma first_row_never_tampered limit log row lag :
  rows limit log !! 0%nat = Some (row, lag) -> tampered (row, lag) = false.
Proof. intros H. apply query_lookup_first in H as ->. reflexivity. Qed.

(** No row of the query is judged tampered exactly when no link between
    two consecutive rows inside the limit is broken. *)
Lemma no_tampered_iff_links limit log :
  Forall (fun row => ~ tampered row = true) (rows limit log) <->
  (forall i prev row, (S i < limit)%nat -> log !! i = Some prev ->
                      log !! S i = Some row -> link_broken prev row = false).
Proof.
  rewrite Forall_lookup. split.
  - intros H i prev row Hlt Hp Hr.
    specialize (H (S i) (row, row_hash prev)).
    unfold link_broken. apply not_true_is_false, H.
    apply query_lookup_later. eauto.
  - intros H n [row lag] Hn.
    destruct n as [|m].
    + rewrite (first_row_never_tampered _ _ _ _ Hn). discriminate.
    + apply query_lookup_later in Hn as (Hlt & Hrow & prev & Hprev & ->).
      specialize (H m prev row Hlt Hprev Hrow). unfold link_broken in H.
      rewrite H. discriminate.
Qed.

(** The row found by the verifier is the later end of the first broken
    link. *)
Lemma first_tampered_is_first_broken_link limit log n row lag :
  list_find (fun row => tampered row = true) (rows limit log) = Some (n, (row, lag)) ->
  exists i prev,
    n = S i /\ (S i < limit)%nat /\ log !! i = Some prev /\
    log !! S i = Some row /\ lag = row_hash prev /\
    link_broken prev row = true /\
    (forall j p r, (j < i)%nat -> log !! j = Some p -> log !! S j = Some r ->
                   link_broken p r = false).
Proof.
  intros H. apply list_find_Some in H as (Hn & Ht & Hbefore).
  destruct n as [|i].
  - rewrite (first_row_never_tampered _ _ _ _ Hn) in Ht. discriminate.
  - apply query_lookup_later in Hn as (Hlt & Hrow & prev & Hprev & ->).
    exists i, prev. repeat split; try assumption; try reflexivity.
    intros j p r Hj Hp Hr. unfold link_broken.
    apply not_true_is_false. apply (Hbefore (S j)); [|lia].
    apply query_lookup_later. split; [lia|]. eauto.
Qed.

End AuditChainFacts.

(** What makes a link broken: the earlier row has a non-empty [row_hash]
    and the later row's [prev_hash] is not that hash. *)
Lemma link_broken_iff prev row :
  Security.link_broken prev row = true <->
  exists h, Security.row_hash prev = Some h /\ h <> "" /\
            Security.prev_hash row <> Some h.
Proof.
  unfold Security.link_broken, Security.tampered. cbn.
  destruct (Security.row_hash prev) as [h|]; split.
  - intros H. apply andb_true_iff in H as [H1 H2].
    exists h. split; [reflexivity|]. split.
    + intros ->. discriminate.
    + apply negb_true_iff, bool_decide_eq_false in H2. exact H2.
  - intros (h' & Hh & Hne & Hp). inversion Hh; subst h'.
    apply andb_true_iff. split.
    + apply negb_true_iff, String.eqb_neq. exact Hne.
    + apply negb_true_iff, bool_decide_eq_false. exact Hp.
  - discriminate.
  - intros (h & Hh & _). discriminate.
Qed.

(** C4, as the code has it: the verifier judges the links between
    consecutive rows inside the limit, and only those whose earlier row has a
    non-empty hash; the first row's [prev_hash] is compared with nothing.
    When the query resolves and no such link is broken, the result is
    [{valid: true}] and nothing is written; when one is broken, a P1 incident
    is created whose details hold the id of the later row of the first
    broken link, the expected hash and the actual one, and the result names
    that row.  The verifier catches nothing: it is rejected exactly when
    the query is rejected (the database refuses it, or the limit is
    negative) or a link is broken and [createIncident] is rejected, by its
    insert or by its webhook; no alert is then recorded, and the incident
    table is as it was unless the insert had been made. *)
Theorem verifyAuditChain_checks_links
  (now : Z) (newId : string) (forensic : list (string * Json)) (body : string)
  (db_ok insert_ok webhook_ok : bool)
  (limit : Z) (log : list Security.AuditRow) (st : Incident.Store) :
  let res := Security.verifyAuditChain now newId forensic body
               db_ok insert_ok webhook_ok limit log st in
  let intact :=
    forall i prev row, (S i < Z.to_nat limit)%nat -> log !! i = Some prev ->
                       log !! S i = Some row ->
                       Security.link_broken prev row = false in
  (fst res = Rejected <->
   db_ok = false \/ limit < 0 \/
   (~ intact /\ (insert_ok = false \/ webhook_ok = false))) /\
  (fst res = Rejected ->
   Incident.alerts (snd res) = Incident.alerts st /\
   (db_ok = false \/ limit < 0 \/ insert_ok = false -> snd res = st)) /\
  (forall v, fst res = Resolved v ->
     (Security.valid v = true <-> intact) /\
     (Security.valid v = true ->
      v = {| Security.valid := true; Security.brokenAt := None |} /\
      snd res = st) /\
     (Security.valid v = false ->
      exists i prev row,
        (S i < Z.to_nat limit)%nat /\ log !! i = Some prev /\
        log !! S i = Some row /\
        Security.link_broken prev row = true /\
        (forall j p r, (j < i)%nat -> log !! j = Some p -> log !! S j = Some r ->
                       Security.link_broken p r = false) /\
        v = {| Security.valid := false;
               Security.brokenAt := Some (Security.id row) |} /\
        Incident.priority <$> Incident.incidents (snd res) !! newId
          = Some Incident.P1 /\
        Incident.details <$> Incident.incidents (snd res) !! newId
          = Some [("brokenAt", JStr (Security.id row));
                  ("expected", Security.json_of (Security.row_hash prev));
                  ("actual", Security.json_of (Security.prev_hash row))] /\
        length (Incident.alerts (snd res)) = S (length (Incident.alerts st)))).
Proof.
  cbn zeta. unfold Security.verifyAuditChain, Security.query.
  destruct db_ok; cbn [andb].
  2:{ split; [|split].
      - split; [auto|reflexivity].
      - intros _. split; reflexivity.
      - intros v [=]. }
  destruct (Z.leb_spec 0 limit) as [Hlim|Hlim].
  2:{ split; [|split].
      - split; [auto|reflexivity].
      - intros _. split; reflexivity.
      - intros v [=]. }
  destruct (list_find _ (Security.rows (Z.to_nat limit) log))
    as [[n [row lag]]|] eqn:Hf.
  - apply first_tampered_is_first_broken_link in Hf
      as (i & prev & -> & Hlt & Hp & Hr & -> & Hb & Hfirst).
    assert (Hnot : ~ (forall i prev row, (S i < Z.to_nat limit)%nat ->
                        log !! i = Some prev -> log !! S i = Some row ->
                        Security.link_broken prev row = false)).
    { intros H. rewrite (H i prev row Hlt Hp Hr) in Hb. discriminate. }
    destruct insert_ok; cbn [negb fst snd].
    + destruct webhook_ok; cbn [fst snd].
      * split; [|split].
        -- split; [discriminate|].
           intros [[=]|[H|[_ [[=]|[=]]]]]. lia.
        -- discriminate.
        -- intros v [= <-]. cbn [Security.valid]. split; [|split].
           ++ split; [discriminate|]. intros H. contradiction.
           ++ discriminate.
           ++ intros _. exists i, prev, row.
              repeat split; try assumption; cbn.
              ** rewrite lookup_insert_eq. reflexivity.
              ** rewrite lookup_insert_eq. reflexivity.
              ** rewrite length_app. cbn. lia.
      * split; [|split].
        -- split; [auto|reflexivity].
        -- intros _. split; [reflexivity|].
           intros [[=]|[H|[=]]]. lia.
        -- intros v [=].
    + split; [|split].
      * split; [auto|reflexivity].
      * intros _. split; reflexivity.
      * intros v [=].
  - apply list_find_None in Hf.
    pose proof (proj1 (no_tampered_iff_links (Z.to_nat limit) log) Hf) as Hlinks.
    cbn [fst snd]. split; [|split].
    + split; [discriminate|]. intros [[=]|[H|[H _]]]; [lia|contradiction].
    + discriminate.
    + intros v [= <-]. cbn [Security.valid]. split; [|split].
      * split; [intros _; exact Hlinks|reflexivity].
      * intros _. split; reflexivity.
      * discriminate.
Qed.

(** C4, as the claim states it, fails twice.  The first row's [prev_hash] is
    not the sentinel: a verifier that expects ["GENESIS"] there reports the
    row, and the code reports a valid chain.  And the verifier does throw:
    with a negative limit the query is rejected, and so is the verifier; on
    a broken chain it is rejected when the insert of the incident is
    refused. *)
Lemma verifyAuditChain_does_not_check_genesis :
  let log :=
    [ {| Security.id := "A"; Security.row_hash := Some "h1";
         Security.prev_hash := Some "bogus" |};
      {| Security.id := "B"; Security.row_hash := Some "h2";
         Security.prev_hash := Some "h1" |} ] in
  let broken :=
    [ {| Security.id := "A"; Security.row_hash := Some "h1";
         Security.prev_hash := Some "GENESIS" |};
      {| Security.id := "B"; Security.row_hash := Some "h2";
         Security.prev_hash := Some "bogus" |} ] in
  let st := {| Incident.incidents := ∅; Incident.alerts := [] |} in
  Security.verifyAuditChain 0 "inc-1" [] "" true true true 1000 log st
    = (Resolved {| Security.valid := true; Security.brokenAt := None |}, st) /\
  Security.spec_verifyAuditChain 1000 log
    = {| Security.valid := false; Security.brokenAt := Some "A" |} /\
  Security.verifyAuditChain 0 "inc-1" [] "" true true true (-1) log st
    = (Rejected, st) /\
  Security.verifyAuditChain 0 "inc-1" [] "" true false true 1000 broken st
    = (Rejected, st).
Proof. vm_compute. repeat split; reflexivity. Qed.

Lemma verifyAuditChain_checks_links_witness :
  let log :=
    [ {| Security.id := "A"; Security.row_hash := Some "h1";
         Security.prev_hash := Some "GENESIS" |};
      {| Security.id := "B"; Security.row_hash := Some "h2";
         Security.prev_hash := Some "bogus" |};
      {| Security.id := "C"; Security.row_hash := Some "h3";
         Security.prev_hash := Some "h2" |} ] in
  let st := {| Incident.incidents := ∅; Incident.alerts := [] |} in
  let res := Security.verifyAuditChain 0 "inc-1" [] "" true true true 1000 log
               st in
  fst res = Resolved {| Security.valid := false;
                        Security.brokenAt := Some "B" |} /\
  Incident.details <$> Incident.incidents (snd res) !! "inc-1"
  = Some [("brokenAt", JStr "B"); ("expected", JStr "h1");
          ("actual", JStr "bogus")].
Proof.
  cbn zeta.
  match goal with
  | |- context [Security.verifyAuditChain ?n ?i ?f ?b ?d ?c ?w ?l ?g ?s] =>
    destruct (verifyAuditChain_checks_links n i f b d c w l g s)
      as (_ & _ & Hres)
  end.
  destruct (fst (Security.verifyAuditChain 0 "inc-1" [] "" true true true 1000
                   _ _))
    as [v|] eqn:Hv; [|vm_compute in Hv; discriminate].
  destruct (Hres v eq_refl) as (_ & _ & Hbad).
  assert (Hvalid : Security.valid v = false).
  { vm_compute in Hv. injection Hv as <-. reflexivity. }
  destruct (Hbad Hvalid)
    as (i & prev & row & Hlt & Hp & Hr & Hb & _ & Hveq & _ & Hd & _).
  assert (Hi : i = 0%nat).
  { destruct i as [|[|i]]; [reflexivity| |].
    - cbn in Hp, Hr. inversion Hp; subst. inversion Hr; subst.
      vm_compute in Hb. discriminate.
    - cbn in Hr. destruct i; discriminate. }
  subst i. cbn in Hp, Hr. inversion Hp; subst. inversion Hr; subst.
  split; [reflexivity|exact Hd].
Defined.

(** ** Drift scorer *)

Section DriftFacts.
Import InvariantEngine.
Local Open Scope R_scope.

(** Every member of [Object.prototype] is found by the property read, and
    none of them is a number. *)
Lemma weight_inherited n : n ∈ Object_prototype -> weight n = NaN.
Proof.
  intros Hn. unfold Object_prototype in Hn.
  repeat (apply elem_of_cons in Hn as [->|Hn]; [vm_compute; reflexivity|]).
  apply elem_of_nil in Hn. contradiction.
Qed.

(** Every other name weighs what the table of the specification says. *)
Lemma weight_is_spec n : n ∉ Object_prototype -> weight n = of_Z (spec_weight n).
Proof.
  intros Hn. unfold weight, spec_weight.
  repeat match goal with
         | |- context [String.eqb n ?k] =>
             destruct (String.eqb_spec n k) as [->|?]; [vm_compute; reflexivity|]
         end.
  rewrite bool_decide_false by exact Hn.
  unfold weights. rewrite (not_elem_of_list_to_map_1 _ n); [reflexivity|].
  cbn. rewrite !not_elem_of_cons. repeat split; try assumption.
  apply not_elem_of_nil.
Qed.

Lemma spec_weight_cases n :
  spec_weight n = 25%Z \/ spec_weight n = 20%Z \/ spec_weight n = 15%Z \/
  spec_weight n = 10%Z \/ spec_weight n = 7%Z \/ spec_weight n = 3%Z \/
  spec_weight n = 5%Z.
Proof.
  unfold spec_weight.
  repeat match goal with
         | |- context [String.eqb n ?k] => destruct (String.eqb n k); [tauto|]
         end.
  tauto.
Qed.

Lemma spec_weight_pos n : 0 < IZR (spec_weight n).
Proof.
  apply IZR_lt.
  destruct (spec_weight_cases n) as [H|[H|[H|[H|[H|[H|H]]]]]]; rewrite H; lia.
Qed.

Lemma ln10_pos : 0 < ln 10.
Proof. rewrite <- ln_1. apply ln_increasing; lra. Qed.

Lemma log10_1 : log10 1 = 0.
Proof. unfold log10. rewrite ln_1. unfold Rdiv. ring. Qed.

Lemma log10_nonneg x : 1 <= x -> 0 <= log10 x.
Proof.
  intros Hx. unfold log10.
  apply Rmult_le_pos; [|left; apply Rinv_0_lt_compat, ln10_pos].
  destruct Hx as [Hx|<-]; [|rewrite ln_1; lra].
  left. rewrite <- ln_1. apply ln_increasing; lra.
Qed.

Lemma log10_2_lt_1 : log10 2 < 1.
Proof.
  unfold log10. pose proof ln10_pos as H10.
  apply (Rmult_lt_reg_r (ln 10)); [assumption|].
  unfold Rdiv. rewrite Rmult_assoc, Rinv_l by lra.
  rewrite Rmult_1_r, Rmult_1_l. apply ln_increasing; lra.
Qed.

(** [2^10 > 10^3] and [2^3 < 10]: the logarithm of 2 lies between 0.3 and
    one third. *)
Lemma log10_2_bounds : 3 / 10 < log10 2 < / 3.
Proof.
  unfold log10. pose proof ln10_pos as H10.
  assert (Hlo : 3 * ln 10 < 10 * ln 2).
  { replace (3 * ln 10) with (INR 3 * ln 10) by (cbn; ring).
    replace (10 * ln 2) with (INR 10 * ln 2) by (cbn; ring).
    rewrite <- !ln_pow by lra. apply ln_increasing; [|cbn]; lra. }
  assert (Hhi : 3 * ln 2 < ln 10).
  { replace (3 * ln 2) with (INR 3 * ln 2) by (cbn; ring).
    rewrite <- ln_pow by lra. apply ln_increasing; [|cbn]; lra. }
  split.
  - apply (Rmult_lt_reg_r (ln 10)); [assumption|].
    unfold Rdiv at 2. rewrite Rmult_assoc, Rinv_l by lra. lra.
  - apply (Rmult_lt_reg_r (ln 10)); [assumption|].
    unfold Rdiv. rewrite Rmult_assoc, Rinv_l by lra. lra.
Qed.

Lemma count_plus_one_ge_1 (n : nat) : 1 <= INR (n + 1).
Proof. rewrite plus_INR. cbn. pose proof (pos_INR n). lra. Qed.

(** What a failed result deducts: NaN under an inherited name, the
    deduction of the specification under any other. *)
Lemma deduction_of_inherited r :
  name r ∈ Object_prototype -> deduction_of r = NaN.
Proof. intros Hn. unfold deduction_of. rewrite weight_inherited by exact Hn. reflexivity. Qed.

Lemma deduction_of_is_spec r :
  name r ∉ Object_prototype -> deduction_of r = Num (spec_deduction r).
Proof.
  intros Hn. unfold deduction_of, spec_deduction.
  rewrite weight_is_spec by exact Hn. unfold of_Z, log10.
  rewrite plus_INR. reflexivity.
Qed.

(** No invariant deducts more than its weight, and none adds to the
    score. *)
Lemma spec_deduction_bounds r :
  0 <= spec_deduction r <= IZR (spec_weight (name r)).
Proof.
  unfold spec_deduction.
  pose proof (spec_weight_pos (name r)) as Hw.
  pose proof (log10_nonneg _ (count_plus_one_ge_1 (length (violations r)))) as Hl.
  unfold log10 in Hl. rewrite plus_INR in Hl. cbn [INR] in Hl.
  split; [|apply Rmin_l].
  apply Rmin_glb; [lra|]. apply Rmult_le_pos; lra.
Qed.

Lemma spec_deduction_no_violation r : violations r = [] -> spec_deduction r = 0.
Proof.
  intros Hv. unfold spec_deduction. rewrite Hv. cbn [length INR].
  replace (0 + 1) with 1 by ring. rewrite ln_1.
  unfold Rdiv. rewrite Rmult_0_l, Rmult_0_r.
  apply Rmin_right. left. apply spec_weight_pos.
Qed.

Lemma spec_deduction_one_violation r v :
  violations r = [v] ->
  spec_deduction r = IZR (spec_weight (name r)) * log10 2.
Proof.
  intros Hv. unfold spec_deduction. rewrite Hv. cbn [length INR].
  replace (1 + 1) with 2 by ring. fold (log10 2).
  apply Rmin_right.
  pose proof (spec_weight_pos (name r)) as Hw. pose proof log10_2_lt_1 as H2.
  rewrite <- (Rmult_1_r (IZR (spec_weight (name r)))) at 2.
  apply Rmult_le_compat_l; lra.
Qed.


(** Once the accumulator is NaN it stays NaN. *)
Lemma deduction_from_NaN results :
  fold_left (fun d r => if passed r then d else add d (deduction_of r))
    results NaN = NaN.
Proof.
  induction results as [|r rs IH]; cbn [fold_left]; [reflexivity|].
  destruct (passed r); exact IH.
Qed.

(** A failed result under an inherited name makes the whole sum NaN. *)
Lemma deduction_from_inherited results r a :
  r ∈ results -> passed r = false -> name r ∈ Object_prototype ->
  fold_left (fun d r => if passed r then d else add d (deduction_of r))
    results a = NaN.
Proof.
  intros Hin Hp Hn. revert a.
  induction results as [|x xs IH]; intros a; [apply elem_of_nil in Hin; contradiction|].
  cbn [fold_left]. apply elem_of_cons in Hin as [<-|Hin].
  - rewrite Hp, deduction_of_inherited by exact Hn.
    destruct a; apply deduction_from_NaN.
  - apply IH. exact Hin.
Qed.

(** Without such a result the loop computes the sum over the failed
    results. *)
Lemma deduction_from results a :
  Forall (fun r => passed r = false -> name r ∉ Object_prototype) results ->
  fold_left (fun d r => if passed r then d else add d (deduction_of r))
    results (Num a)
  = Num (a + spec_sum results).
Proof.
  intros Hall. revert a.
  induction Hall as [|r rs Hr _ IH]; intros a; cbn [fold_left].
  - unfold spec_sum. cbn. f_equal. ring.
  - unfold spec_sum. rewrite filter_cons.
    destruct (passed r) eqn:Hp.
    + rewrite decide_False by discriminate. apply IH.
    + rewrite decide_True by reflexivity.
      rewrite deduction_of_is_spec by (apply Hr; reflexivity).
      cbn [add map fold_right]. rewrite IH. unfold spec_sum. f_equal. ring.
Qed.

Lemma spec_sum_nonneg results : 0 <= spec_sum results.
Proof.
  unfold spec_sum.
  induction (filter (fun r => passed r = false) results) as [|r rs IH]; cbn.
  - lra.
  - pose proof (spec_deduction_bounds r). lra.
Qed.

Lemma Math_round_le x (z : Z) : x < IZR z + / 2 -> (Math_round x <= z)%Z.
Proof.
  intros Hx. unfold Math_round.
  pose proof (Zfloor_bound (x + / 2)) as [Hlo _].
  assert (IZR (Zfloor (x + / 2)) < IZR (z + 1)) as Hlt
    by (rewrite plus_IZR; lra).
  apply lt_IZR in Hlt. lia.
Qed.

Lemma Math_round_ge x (z : Z) : IZR z <= x + / 2 -> (z <= Math_round x)%Z.
Proof. intros Hx. unfold Math_round. apply Zfloor_lub. exact Hx. Qed.

Lemma Math_round_IZR (z : Z) : Math_round (IZR z) = z.
Proof. unfold Math_round. apply Zfloor_eq. lra. Qed.

(** [Math.round] returns the integer within one half of its argument,
    the upper one on a tie. *)
Lemma Math_round_nearest x :
  IZR (Math_round x) - / 2 <= x < IZR (Math_round x) + / 2.
Proof.
  unfold Math_round. pose proof (Zfloor_bound (x + / 2)) as [Hlo Hhi]. lra.
Qed.

(** Flooring at 0 before or after rounding gives the same integer. *)
Lemma max_round_commute x : Z.max 0 (Math_round x) = Math_round (Rmax 0 x).
Proof.
  destruct (Rle_lt_dec 0 x) as [Hx|Hx].
  - rewrite Rmax_right by assumption.
    apply Z.max_r. apply Math_round_ge. cbn. lra.
  - rewrite Rmax_left by lra.
    change 0 with (IZR 0). rewrite Math_round_IZR.
    apply Z.max_l. apply Math_round_le. cbn. lra.
Qed.

(** When no failed result bears an inherited name, the score is the
    integer the specification describes, between 0 and 100. *)
Lemma computeDriftScore_own_names results :
  Forall (fun r => passed r = false -> name r ∉ Object_prototype) results ->
  exists z : Z,
    computeDriftScore results = of_Z z /\
    spec_driftScore results z /\ (0 <= z <= 100)%Z.
Proof.
  intros Hall. unfold computeDriftScore, deduction.
  rewrite (deduction_from results 0 Hall).
  exists (Z.max 0 (Math_round (100 - (0 + spec_sum results)))).
  split; [reflexivity|].
  replace (0 + spec_sum results) with (spec_sum results) by ring.
  split.
  - unfold spec_driftScore. rewrite max_round_commute.
    apply Math_round_nearest.
  - split; [apply Z.le_max_l|].
    apply Z.max_lub; [lia|].
    apply Math_round_le. pose proof (spec_sum_nonneg results). lra.
Qed.


(** One negative stock row: [25 * log10 2] is about 7.5, and the score is
    92. *)
Lemma computeDriftScore_one_negative_stock v :
  computeDriftScore
    [ {| name := "NO_NEGATIVE_STOCK"; passed := false; driftScore := 90;
         violations := [v]; autoCorrected := false |} ]
  = of_Z 92.
Proof.
  unfold computeDriftScore, deduction. cbn [fold_left passed].
  rewrite deduction_of_is_spec
    by (cbn [name]; intros H; unfold Object_prototype in H;
        repeat (apply elem_of_cons in H as [H|H]; [discriminate H|]);
        apply elem_of_nil in H; contradiction).
  match goal with |- context [spec_deduction ?r] =>
    rewrite (spec_deduction_one_violation r v eq_refl) end.
  cbn [add name]. change (spec_weight "NO_NEGATIVE_STOCK") with 25%Z.
  pose proof log10_2_bounds as [Hlo Hhi].
  unfold of_Z. do 2 f_equal.
  rewrite Z.max_r.
  - unfold Math_round. apply Zfloor_eq.
    change (IZR 92) with 92. change (IZR 25) with 25. lra.
  - apply Zfloor_lub. change (IZR 0) with 0. change (IZR 25) with 25. lra.
Qed.

End DriftFacts.

(** C5 fails on the code.  The property read [weights[r.name]] also finds
    the members every object inherits from [Object.prototype]: under the
    name [constructor] it yields a function, the default 5 is not taken,
    and a failed result of that name, even one without violations, turns
    the deduction and the score into NaN, where the specification gives
    weight 5 and score 100.  NaN is no number between 0 and 100.  The same
    happens for every result list with a failed result under an inherited
    name. *)
Theorem computeDriftScore_inherited_name_gives_NaN :
  let r := {| InvariantEngine.name := "constructor";
              InvariantEngine.passed := false;
              InvariantEngine.driftScore := 0;
              InvariantEngine.violations := [];
              InvariantEngine.autoCorrected := false |} in
  InvariantEngine.weight "constructor" = NaN /\
  InvariantEngine.spec_weight "constructor" = 5 /\
  InvariantEngine.deduction_of r = NaN /\
  InvariantEngine.computeDriftScore [r] = NaN /\
  InvariantEngine.spec_driftScore [r] 100 /\
  (forall z : Z, InvariantEngine.computeDriftScore [r] <> of_Z z) /\
  (forall results r',
     r' ∈ results -> InvariantEngine.passed r' = false ->
     InvariantEngine.name r' ∈ InvariantEngine.Object_prototype ->
     InvariantEngine.computeDriftScore results = NaN).
Proof.
  cbn zeta.
  assert (Hin : "constructor" ∈ InvariantEngine.Object_prototype) by (left).
  assert (Hgen : forall results r',
     r' ∈ results -> InvariantEngine.passed r' = false ->
     InvariantEngine.name r' ∈ InvariantEngine.Object_prototype ->
     InvariantEngine.computeDriftScore results = NaN).
  { intros results r' Hr Hp Hn. unfold InvariantEngine.computeDriftScore,
      InvariantEngine.deduction.
    rewrite (deduction_from_inherited results r' _ Hr Hp Hn). reflexivity. }
  assert (Hscore : forall r, InvariantEngine.name r = "constructor" ->
            InvariantEngine.passed r = false ->
            InvariantEngine.computeDriftScore [r] = NaN).
  { intros r Hn Hp. apply (Hgen [r] r); [left|exact Hp|rewrite Hn; exact Hin]. }
  split; [apply weight_inherited, Hin|].
  split; [reflexivity|].
  split; [apply deduction_of_inherited, Hin|].
  split; [apply Hscore; reflexivity|].
  split.
  - unfold InvariantEngine.spec_driftScore, InvariantEngine.spec_sum.
    cbn [filter]. rewrite filter_cons, decide_True by reflexivity.
    cbn [filter map fold_right]. rewrite filter_nil. cbn [map fold_right].
    rewrite spec_deduction_no_violation by reflexivity.
    rewrite Rmax_right; change (IZR 100) with 100%R; lra.
  - split; [|exact Hgen].
    intros z. rewrite Hscore by reflexivity. discriminate.
Qed.

(** ** Invariant executor *)




(** ** Health scorer *)

Section HealthFacts.
Import Health.

Lemma Math_round_between (q : Q) (lo hi : Z) :
  (inject_Z lo <= q)%Q -> (q <= inject_Z hi)%Q -> lo <= Math_round q <= hi.
Proof.
  intros Hlo Hhi. unfold Math_round, ratio. split.
  - rewrite <- (Qfloor_Z lo). apply Qfloor_resp_le.
    generalize dependent (inject_Z lo). intros l Hl. Lqa.lra.
  - transitivity (Qfloor (inject_Z hi + (1 # 2))%Q).
    + apply Qfloor_resp_le.
      generalize dependent (inject_Z hi). intros h Hh. Lqa.lra.
    + unfold Qfloor, inject_Z, Qplus. cbn [Qnum Qden].
      apply Z.lt_succ_r, Z.div_lt_upper_bound; lia.
Qed.

Lemma integrity_bounds e :
  drift_in_range e -> 0 <= catch (scoreIntegrity e) 20 <= 30.
Proof.
  intros Hr. unfold scoreIntegrity, getDriftScore.
  destruct (drift_for_integrity e) as [[ds|]|] eqn:E; cbn [catch default].
  - destruct (Hr ds E) as [H0 H1].
    apply Math_round_between; unfold ratio, Qdiv, inject_Z, Datatypes.id in *;
      change (/ (100 # 1))%Q with (1 # 100)%Q; Lqa.lra.
  - vm_compute. split; discriminate.
  - lia.
Qed.

Lemma errorRate_bounds reg : 0 <= scoreErrorRate reg <= 20.
Proof.
  unfold scoreErrorRate.
  repeat match goal with |- context [if ?c then _ else _] => destruct c end; lia.
Qed.

Lemma latency_bounds e : 0 <= scoreLatency e <= 15.
Proof.
  unfold scoreLatency.
  repeat match goal with |- context [if ?c then _ else _] => destruct c end; lia.
Qed.

Lemma incidents_bounds e : 0 <= catch (scoreIncidents e) 15 <= 20.
Proof.
  unfold scoreIncidents.
  destruct (summary_for_score e) as [summary|]; cbn [catch]; [|lia].
  pose proof (N2Z.is_nonneg (default 0%N (summary !! "P1"))).
  pose proof (N2Z.is_nonneg (default 0%N (summary !! "P2"))).
  pose proof (N2Z.is_nonneg (default 0%N (summary !! "P3"))).
  pose proof (N2Z.is_nonneg (default 0%N (summary !! "P4"))).
  lia.
Qed.

Lemma backup_bounds e : 0 <= catch (scoreBackup e) 5 <= 10.
Proof.
  unfold scoreBackup.
  destruct (latest_backup e) as [[t|]|]; cbn [catch]; try lia.
  repeat match goal with |- context [if ?c then _ else _] => destruct c end; lia.
Qed.

Lemma migrations_bounds e : 0 <= scoreMigrations e <= 5.
Proof.
  unfold scoreMigrations.
  destruct (pending_migrations e) as [n|]; [destruct (n =? 0)%N|]; lia.
Qed.

Lemma grade_of_bands s :
  (grade_of s = A <-> 90 <= s) /\
  (grade_of s = B <-> 75 <= s < 90) /\
  (grade_of s = C <-> 60 <= s < 75) /\
  (grade_of s = D <-> 40 <= s < 60) /\
  (grade_of s = F <-> s < 40).
Proof.
  unfold grade_of.
  destruct (Z.leb_spec 90 s); [repeat split; intros; try lia; try discriminate; reflexivity|].
  destruct (Z.leb_spec 75 s); [repeat split; intros; try lia; try discriminate; reflexivity|].
  destruct (Z.leb_spec 60 s); [repeat split; intros; try lia; try discriminate; reflexivity|].
  destruct (Z.leb_spec 40 s); repeat split; intros; try lia; try discriminate; reflexivity.
Qed.

(** Setting a gauge touches the registry and, through the binder, the
    alerts; nothing else. *)
Lemma gauge_frame name v t st :
  system_mode (gauge name v t st) = system_mode st /\
  health_scores (gauge name v t st) = health_scores st /\
  alerts_bound (gauge name v t st) = alerts_bound st /\
  alerts (gauge name v t st)
  = alerts st ++ (if alerts_bound st
                  then map Metrics.alert_of
                         (snd (Metrics.gauge name v t (registry st)))
                  else []).
Proof.
  unfold gauge. destruct (Metrics.gauge name v t (registry st)) as [reg em].
  cbn. auto.
Qed.

(** The only threshold declared on the health score is [< 50], of
    severity HIGH, with a cooldown of five minutes. *)
Lemma health_score_breaches s t reg :
  snd (Metrics.gauge "system.health_score" (inject_Z s) t reg) =
  if (s <? 50)
     && (300000 <? t - default 0 (Metrics.lastAlert reg !! "system.health_score"))
  then [ {| Metrics.breached_threshold :=
              {| Metrics.metric := "system.health_score";
                 Metrics.operator := Metrics.lt;
                 Metrics.value := ratio 50 1; Metrics.severity := HIGH;
                 Metrics.cooldownMs := 300000 |};
            Metrics.actualValue := inject_Z s |} ]
  else [].
Proof.
  unfold Metrics.gauge, Metrics.checkThresholds, Metrics.THRESHOLDS.
  cbn -[Z.mul Z.ltb Z.sub].
  unfold Metrics.breached, Qltb. cbn -[Z.mul Z.ltb Z.sub].
  replace (s * 1 <? 50 * 1) with (s <? 50) by (f_equal; lia).
  destruct (s <? 50); cbn -[Z.mul Z.ltb Z.sub]; [|reflexivity].
  destruct (300000 <? _); reflexivity.
Qed.

End HealthFacts.

Section ComputeFacts.
Import Health.

(** What a resolved [compute] returns. *)
Lemma compute_resolved e st report st' :
  compute e st = Resolved (report, st') ->
  exists safe summary ds,
    isSafeMode (mode_query_ok e) st = Resolved safe /\
    report = {| score := total (components_of e st);
                grade := grade_of (total (components_of e st));
                components := components_of e st; safeMode := safe;
                incidents_summary := summary; driftScore := ds |} /\
    st' = alert_on_critical (now e) (total (components_of e st))
            (grade_of (total (components_of e st))) (components_of e st) safe
            (gauge "system.health_score"
               (inject_Z (total (components_of e st))) (now e)
               (persist (total (components_of e st)) (components_of e st)
                  safe st)).
Proof.
  unfold compute.
  destruct (isSafeMode (mode_query_ok e) st) as [safe|]; [|discriminate].
  destruct (summary_for_report e) as [summary|]; [|discriminate].
  destruct (getDriftScore (drift_for_report e)) as [ds|]; [|discriminate].
  intros H. inversion H; subst. eauto 10.
Qed.

Lemma total_sum c :
  total c = integrity c + errorRate c + latency c + incidents c + backup c
            + migrations c.
Proof. unfold total. cbn. lia. Qed.

(** Enabling safe mode writes the singleton row, if there is one, and
    sends alerts; the score history is not touched. *)
Lemma enableSafeMode_frame t reason by_ st :
  system_mode (enableSafeMode t reason by_ st)
  = (fun row => {| safe_mode := true; safe_mode_reason := Some reason;
                   enabled_at := Some t; enabled_by := Some by_;
                   override_token := override_token row;
                   updated_at := t |}) <$> system_mode st /\
  health_scores (enableSafeMode t reason by_ st) = health_scores st /\
  exists extra,
    alerts (enableSafeMode t reason by_ st) = alerts st ++ extra.
Proof.
  unfold enableSafeMode.
  match goal with |- context [gauge ?n ?v ?t' ?s] =>
    destruct (gauge_frame n v t' s) as (Hm & Hh & _ & Ha) end.
  rewrite Hm, Hh, Ha. cbn. repeat split.
  rewrite <- app_assoc. eauto.
Qed.

Lemma alert_on_critical_history t score grade c safe st :
  health_scores (alert_on_critical t score grade c safe st) = health_scores st.
Proof.
  unfold alert_on_critical.
  destruct ((score <? 40) && negb safe); [|reflexivity].
  destruct (decide (grade = F)); [|reflexivity].
  match goal with |- context [enableSafeMode ?a ?b ?c ?s] =>
    destruct (enableSafeMode_frame a b c s) as (_ & Hh & _) end.
  rewrite Hh. reflexivity.
Qed.

End ComputeFacts.

(** C6: every report that [compute] produces, fallbacks included, has a
    score equal to the sum of its six components; each component lies between
    0 and its maximum (30, 20, 15, 20, 10, 5), so the score lies between 0 and
    100; the grade follows the bands A >= 90, B >= 75, C >= 60, D >= 40, else
    F; and the row written to [health_scores] carries that score and those
    components.  The drift score read from the store is one the drift scorer
    wrote, between 0 and 100. *)
Theorem compute_score_is_bounded_sum
  (e : Health.Env) (st : Health.State)
  (report : Health.HealthReport) (st' : Health.State) :
  Health.drift_in_range e ->
  Health.compute e st = Resolved (report, st') ->
  let c := Health.components report in
  Health.score report
  = Health.integrity c + Health.errorRate c + Health.latency c
    + Health.incidents c + Health.backup c + Health.migrations c /\
  0 <= Health.integrity c <= 30 /\
  0 <= Health.errorRate c <= 20 /\
  0 <= Health.latency c <= 15 /\
  0 <= Health.incidents c <= 20 /\
  0 <= Health.backup c <= 10 /\
  0 <= Health.migrations c <= 5 /\
  0 <= Health.score report <= 100 /\
  (Health.grade report = Health.A <-> 90 <= Health.score report) /\
  (Health.grade report = Health.B <-> 75 <= Health.score report < 90) /\
  (Health.grade report = Health.C <-> 60 <= Health.score report < 75) /\
  (Health.grade report = Health.D <-> 40 <= Health.score report < 60) /\
  (Health.grade report = Health.F <-> Health.score report < 40) /\
  Health.health_scores st'
  = Health.health_scores st
    ++ [(Health.score report, c, Health.safeMode report)].
Proof.
  intros Hr Hc.
  apply compute_resolved in Hc as (safe & summary & ds & _ & -> & ->).
  cbn [Health.components Health.score Health.grade Health.safeMode].
  cbn zeta.
  pose proof (integrity_bounds e Hr) as Hi.
  pose proof (errorRate_bounds (Health.registry st)) as He.
  pose proof (latency_bounds e) as Hl.
  pose proof (incidents_bounds e) as Hn.
  pose proof (backup_bounds e) as Hb.
  pose proof (migrations_bounds e) as Hm.
  pose proof (grade_of_bands (Health.total (Health.components_of e st)))
    as (HA & HB & HC & HD & HF).
  rewrite alert_on_critical_history.
  destruct (gauge_frame "system.health_score"
              (inject_Z (Health.total (Health.components_of e st)))
              (Health.now e)
              (Health.persist (Health.total (Health.components_of e st))
                 (Health.components_of e st) safe st)) as (_ & Hh & _).
  rewrite Hh. rewrite total_sum.
  cbn [Health.components_of Health.integrity Health.errorRate Health.latency
       Health.incidents Health.backup Health.migrations Health.persist
       Health.health_scores] in *.
  rewrite total_sum in HA, HB, HC, HD, HF.
  cbn [Health.components_of Health.integrity Health.errorRate Health.latency
       Health.incidents Health.backup Health.migrations] in *.
  repeat split; try lia; try tauto.
Qed.

Lemma compute_score_is_bounded_sum_witness :
  Health.drift_in_range Scenario.degraded /\
  exists report st',
    Health.compute Scenario.degraded Scenario.state_off = Resolved (report, st') /\
    Health.score report = 5 /\ Health.grade report = Health.F /\
    0 <= Health.score report <= 100.
Proof.
  assert (Hr : Health.drift_in_range Scenario.degraded).
  { intros ds H. inversion H; subst. split; vm_compute; discriminate. }
  split; [exact Hr|].
  destruct (Health.compute Scenario.degraded Scenario.state_off)
    as [[report st']|] eqn:Hc; [|vm_compute in Hc; discriminate].
  exists report, st'. split; [reflexivity|].
  pose proof (compute_score_is_bounded_sum _ _ _ _ Hr Hc) as Hall.
  cbn zeta in Hall.
  assert (Hs : Health.score report = 5).
  { vm_compute in Hc. inversion Hc; subst. reflexivity. }
  split; [exact Hs|]. split; [|apply Hall].
  apply Hall. lia.
Defined.

Section CriticalAlertFacts.
Import Health.

(** Small whole numbers print as their decimal digits. *)
Lemma toString_small z :
  0 <= z <= 100 -> Double.toString (inject_Z z) = pretty z.
Proof.
  intros Hz.
  assert (Hall : forallb (fun n => String.eqb (Double.toString (inject_Z n)) (pretty n))
                   (seqZ 0 101) = true) by (vm_compute; reflexivity).
  rewrite forallb_forall in Hall.
  apply String.eqb_eq, Hall, list_elem_of_In, elem_of_seqZ. lia.
Qed.

(** Writing the health score leaves the last alert of every other metric
    alone. *)
Lemma health_score_gauge_other s t reg name :
  name <> "system.health_score" ->
  Metrics.lastAlert (fst (Metrics.gauge "system.health_score" (inject_Z s) t reg))
    !! name
  = Metrics.lastAlert reg !! name.
Proof.
  intros Hne.
  unfold Metrics.gauge, Metrics.checkThresholds, Metrics.THRESHOLDS.
  cbn -[Z.mul Z.ltb Z.sub].
  repeat match goal with
         | |- context [if ?c then _ else _] => destruct c
         end; cbn -[Z.mul Z.ltb Z.sub]; try reflexivity.
  rewrite lookup_insert_ne by congruence. reflexivity.
Qed.

(** The threshold declared on the safe-mode gauge is [> 0], of severity
    CRITICAL, with a cooldown of five minutes. *)
Lemma safe_mode_breaches t reg :
  snd (Metrics.gauge "system.safe_mode" (ratio 1 1) t reg) =
  if 300000 <? t - default 0 (Metrics.lastAlert reg !! "system.safe_mode")
  then [ {| Metrics.breached_threshold :=
              {| Metrics.metric := "system.safe_mode";
                 Metrics.operator := Metrics.gt;
                 Metrics.value := ratio 0 1; Metrics.severity := CRITICAL;
                 Metrics.cooldownMs := 300000 |};
            Metrics.actualValue := ratio 1 1 |} ]
  else [].
Proof.
  unfold Metrics.gauge, Metrics.checkThresholds, Metrics.THRESHOLDS.
  cbn -[Z.mul Z.ltb Z.sub].
  destruct (300000 <? _); reflexivity.
Qed.

End CriticalAlertFacts.

Section CriticalAlertForm.
Import Health.

Lemma alert_of_health_score s :
  Metrics.alert_of
    {| Metrics.breached_threshold :=
         {| Metrics.metric := "system.health_score";
            Metrics.operator := Metrics.lt;
            Metrics.value := ratio 50 1; Metrics.severity := HIGH;
            Metrics.cooldownMs := 300000 |};
       Metrics.actualValue := inject_Z s |}
  = {| alert_severity := HIGH;
       alert_title := "Metric Threshold: system.health_score";
       alert_body := "system.health_score = " +:+ Double.toString (inject_Z s)
                     +:+ " (threshold: lt 50)" |}.
Proof.
  unfold Metrics.alert_of.
  cbn [Metrics.breached_threshold Metrics.actualValue Metrics.metric
       Metrics.operator Metrics.value Metrics.severity Metrics.operator_name].
  assert (H50 : Double.toString (ratio 50 1) = "50") by (vm_compute; reflexivity).
  rewrite H50. reflexivity.
Qed.

Lemma alert_of_safe_mode :
  Metrics.alert_of
    {| Metrics.breached_threshold :=
         {| Metrics.metric := "system.safe_mode";
            Metrics.operator := Metrics.gt;
            Metrics.value := ratio 0 1; Metrics.severity := CRITICAL;
            Metrics.cooldownMs := 300000 |};
       Metrics.actualValue := ratio 1 1 |}
  = {| alert_severity := CRITICAL;
       alert_title := "Metric Threshold: system.safe_mode";
       alert_body := "system.safe_mode = 1 (threshold: gt 0)" |}.
Proof. vm_compute. reflexivity. Qed.

End CriticalAlertForm.

(** C3, as the code has it: when a freshly computed score is below 40 and
    safe mode reads off, the scorer sends a CRITICAL alert whose body is the
    components as indented JSON, and sets [safe_mode] on the singleton row
    of [system_mode] with the reason "Health score F — auto-engaged by
    health engine", which sends the CRITICAL safe-mode alert; for a score
    from 40 to 49 the scorer sends no CRITICAL alert and leaves
    [system_mode] alone.  The only other alerts are those of the metric
    thresholds, sent when the binder is installed and the threshold's
    cooldown has passed: the HIGH one of [system.health_score < 50], with
    body [system.health_score = <score> (threshold: lt 50)], and, once safe
    mode is engaged, the CRITICAL one of [system.safe_mode > 0]. *)
Theorem compute_engages_safe_mode_below_40_only
  (e : Health.Env) (st : Health.State)
  (report : Health.HealthReport) (st' : Health.State) :
  Health.compute e st = Resolved (report, st') ->
  let score := Health.score report in
  let cooled name :=
    Health.alerts_bound st
    && (300000 <? Health.now e
                  - default 0 (Metrics.lastAlert (Health.registry st) !! name)) in
  (score < 40 -> Health.safeMode report = false ->
   Health.system_mode st'
   = (fun row =>
        {| Health.safe_mode := true;
           Health.safe_mode_reason :=
             Some "Health score F — auto-engaged by health engine";
           Health.enabled_at := Some (Health.now e);
           Health.enabled_by := Some "system";
           Health.override_token := Health.override_token row;
           Health.updated_at := Health.now e |}) <$> Health.system_mode st /\
   Health.alerts st'
   = Health.alerts st
     ++ (if cooled "system.health_score"
         then [ {| alert_severity := HIGH;
                   alert_title := "Metric Threshold: system.health_score";
                   alert_body := "system.health_score = "
                                 +:+ Double.toString (inject_Z score)
                                 +:+ " (threshold: lt 50)" |} ]
         else [])
     ++ [ {| alert_severity := CRITICAL;
             alert_title := "System health critical: "
                            +:+ Double.toString (inject_Z score)
                            +:+ "/100 (F)";
             alert_body := Health.components_json (Health.components report) |};
          {| alert_severity := CRITICAL;
             alert_title := "🔴 SAFE MODE ENGAGED — Write operations disabled";
             alert_body := "Health score F — auto-engaged by health engine" |} ]
     ++ (if cooled "system.safe_mode"
         then [ {| alert_severity := CRITICAL;
                   alert_title := "Metric Threshold: system.safe_mode";
                   alert_body := "system.safe_mode = 1 (threshold: gt 0)" |} ]
         else [])) /\
  (40 <= score <= 49 ->
   Health.system_mode st' = Health.system_mode st /\
   Health.alerts st'
   = Health.alerts st
     ++ (if cooled "system.health_score"
         then [ {| alert_severity := HIGH;
                   alert_title := "Metric Threshold: system.health_score";
                   alert_body := "system.health_score = " +:+ pretty score
                                 +:+ " (threshold: lt 50)" |} ]
         else [])).
Proof.
  intros Hc.
  apply compute_resolved in Hc as (safe & summary & ds & _ & -> & ->).
  cbn [Health.score Health.safeMode Health.components]. cbn zeta.
  set (sc := Health.total (Health.components_of e st)).
  set (st1 := Health.persist sc (Health.components_of e st) safe st).
  destruct (gauge_frame "system.health_score" (inject_Z sc) (Health.now e) st1)
    as (Hm & _ & Hbound & Ha).
  assert (Hreg : Health.registry
                   (Health.gauge "system.health_score" (inject_Z sc) (Health.now e) st1)
                 = fst (Metrics.gauge "system.health_score" (inject_Z sc)
                          (Health.now e) (Health.registry st))).
  { unfold Health.gauge. cbn [st1 Health.persist Health.registry].
    destruct (Metrics.gauge _ _ _ _). reflexivity. }
  cbn [st1 Health.persist Health.system_mode Health.alerts Health.alerts_bound
       Health.registry] in Hm, Ha, Hbound.
  rewrite health_score_breaches in Ha.
  split.
  - intros Hlt ->. unfold Health.alert_on_critical.
    destruct (Z.ltb_spec sc 40); [|lia]. cbn [andb negb].
    rewrite decide_True by (apply grade_of_bands; assumption).
    replace (Health.grade_of sc) with Health.F
      by (symmetry; apply grade_of_bands; assumption).
    cbn [Health.grade_name].
    unfold Health.enableSafeMode.
    match goal with |- context [Health.gauge ?n ?v ?t ?s] =>
      destruct (gauge_frame n v t s) as (Hm2 & _ & _ & Ha2) end.
    rewrite Hm2, Ha2.
    cbn [Health.alertWebhook Health.system_mode Health.alerts
         Health.alerts_bound Health.registry].
    rewrite Hm, Ha, Hbound, Hreg, safe_mode_breaches.
    rewrite health_score_gauge_other by discriminate.
    split; [reflexivity|].
    destruct (Z.ltb_spec sc 50); [|lia]. cbn [andb].
    rewrite <- !app_assoc. f_equal.
    destruct (Health.alerts_bound st); cbn [andb];
      repeat match goal with
             | |- context [if ?c then _ else _] => destruct c
             end;
      cbn [map app]; rewrite ?alert_of_health_score, ?alert_of_safe_mode;
      reflexivity.
  - intros [H40 H49]. unfold Health.alert_on_critical.
    destruct (Z.ltb_spec sc 40); [lia|]. cbn [andb].
    split; [exact Hm|]. rewrite Ha.
    destruct (Z.ltb_spec sc 50); [|lia]. cbn [andb].
    destruct (Health.alerts_bound st); [|reflexivity]. cbn [andb].
    destruct (300000 <? _); [|reflexivity].
    cbn [map]. rewrite alert_of_health_score, toString_small by lia.
    reflexivity.
Qed.

Lemma compute_engages_safe_mode_below_40_only_witness :
  exists report st',
    Health.compute Scenario.degraded Scenario.state_off = Resolved (report, st') /\
    Health.score report = 5 /\
    Health.safe_mode <$> Health.system_mode st' = Some true /\
    Health.safe_mode_reason <$> Health.system_mode st'
    = Some (Some "Health score F — auto-engaged by health engine") /\
    Health.alerts st'
    = [ {| alert_severity := HIGH;
           alert_title := "Metric Threshold: system.health_score";
           alert_body := "system.health_score = 5 (threshold: lt 50)" |};
        {| alert_severity := CRITICAL;
           alert_title := "System health critical: 5/100 (F)";
           alert_body :=
             "{" +:+ newline
             +:+ "  " +:+ quote +:+ "integrity" +:+ quote +:+ ": 0," +:+ newline
             +:+ "  " +:+ quote +:+ "errorRate" +:+ quote +:+ ": 0," +:+ newline
             +:+ "  " +:+ quote +:+ "latency" +:+ quote +:+ ": 0," +:+ newline
             +:+ "  " +:+ quote +:+ "incidents" +:+ quote +:+ ": 0," +:+ newline
             +:+ "  " +:+ quote +:+ "backup" +:+ quote +:+ ": 0," +:+ newline
             +:+ "  " +:+ quote +:+ "migrations" +:+ quote +:+ ": 5" +:+ newline
             +:+ "}" |};
        {| alert_severity := CRITICAL;
           alert_title := "🔴 SAFE MODE ENGAGED — Write operations disabled";
           alert_body := "Health score F — auto-engaged by health engine" |};
        {| alert_severity := CRITICAL;
           alert_title := "Metric Threshold: system.safe_mode";
           alert_body := "system.safe_mode = 1 (threshold: gt 0)" |} ].
Proof.
  destruct (Health.compute Scenario.degraded Scenario.state_off)
    as [[report st']|] eqn:Hc; [|vm_compute in Hc; discriminate].
  exists report, st'. split; [reflexivity|].
  pose proof (compute_engages_safe_mode_below_40_only _ _ _ _ Hc) as [Hlow _].
  assert (Hs : Health.score report = 5 /\ Health.safeMode report = false /\
               Health.components report
               = {| Health.integrity := 0; Health.errorRate := 0;
                    Health.latency := 0; Health.incidents := 0;
                    Health.backup := 0; Health.migrations := 5 |}).
  { vm_compute in Hc. inversion Hc; subst. repeat split; reflexivity. }
  destruct Hs as (Hs & Hoff & Hcomp). split; [exact Hs|].
  destruct Hlow as (Hsm & Hal); [lia|exact Hoff|].
  rewrite Hsm, Hal, Hs, Hcomp. repeat split; vm_compute; reflexivity.
Defined.

(** C3, as the claim states it, fails: a computed score of 45 with safe
    mode off raises one alert, of severity HIGH, and no CRITICAL one. *)
Lemma score_45_raises_no_critical_alert :
  exists report st',
    Health.compute Scenario.strained Scenario.state_off = Resolved (report, st') /\
    Health.score report = 45 /\
    Health.alerts st'
    = [ {| alert_severity := HIGH;
           alert_title := "Metric Threshold: system.health_score";
           alert_body := "system.health_score = 45 (threshold: lt 50)" |} ] /\
    ~ (exists a, a ∈ Health.alerts st' /\ alert_severity a = CRITICAL).
Proof.
  eexists _, _. split; [vm_compute; reflexivity|].
  split; [reflexivity|]. split; [reflexivity|].
  intros (a & Hin & Hsev). cbn in Hin.
  apply list_elem_of_singleton in Hin. subst a. discriminate.
Qed.

(** ** Safe-mode middleware *)

Lemma write_method_iff m :
  m ∈ Health.WRITE_METHODS <->
  m = "POST" \/ m = "PUT" \/ m = "PATCH" \/ m = "DELETE".
Proof.
  unfold Health.WRITE_METHODS.
  rewrite !elem_of_union, !elem_of_singleton. tauto.
Qed.

(** C8: a POST, PUT, PATCH or DELETE request whose path does not begin with
    [/system-mode] is answered 503 with [SERVICE_IN_SAFE_MODE] and
    [readOnly: true], the handler not being invoked, when safe mode is
    enabled; it is answered 503 when the safe-mode check itself throws; and
    it passes when safe mode is off.  Requests with any other method, and
    requests to the control prefix, pass whatever the safe-mode state. *)
Theorem safeModeMiddleware_gate
  (ok : bool) (st : Health.State) (req : Health.Request) :
  let out := Health.safeModeMiddleware (Health.isSafeMode ok st) req in
  ((Health.method req = "POST" \/ Health.method req = "PUT" \/
    Health.method req = "PATCH" \/ Health.method req = "DELETE") ->
   (forall u, Health.url req = Some u -> String.prefix "/system-mode" u = false) ->
   (forall row, ok = true -> Health.system_mode st = Some row ->
                Health.safe_mode row = true ->
      out <> Health.Done /\
      exists msg, out = Health.Replied 503
                          {| Health.error := "SERVICE_IN_SAFE_MODE";
                             Health.message := Some msg;
                             Health.readOnly := Some true |}) /\
   (ok = false ->
      out = Health.Replied 503
              {| Health.error := "SAFE_MODE_CHECK_FAILED";
                 Health.message := None; Health.readOnly := None |}) /\
   (ok = true ->
    (forall row, Health.system_mode st = Some row -> Health.safe_mode row = false) ->
      out = Health.Done)) /\
  (~ (Health.method req = "POST" \/ Health.method req = "PUT" \/
      Health.method req = "PATCH" \/ Health.method req = "DELETE") ->
   out = Health.Done) /\
  (forall u, Health.url req = Some u -> String.prefix "/system-mode" u = true ->
   out = Health.Done).
Proof.
  cbn zeta. unfold Health.safeModeMiddleware. split; [|split].
  - intros Hm Hu.
    rewrite bool_decide_eq_true_2 by (apply write_method_iff; exact Hm).
    cbn [negb].
    assert (Hp : match Health.url req with
                 | Some u => String.prefix "/system-mode" u
                 | None => false
                 end = false)
      by (destruct (Health.url req) as [u|]; [apply Hu|]; reflexivity).
    rewrite Hp. split; [|split].
    + intros row -> Hrow Hsafe. unfold Health.isSafeMode. rewrite Hrow, Hsafe.
      split; [discriminate|eauto].
    + intros ->. reflexivity.
    + intros -> Hoff. unfold Health.isSafeMode.
      destruct (Health.system_mode st) as [row|]; [|reflexivity].
      rewrite (Hoff row eq_refl). reflexivity.
  - intros Hm.
    rewrite bool_decide_eq_false_2 by (rewrite write_method_iff; exact Hm).
    reflexivity.
  - intros u Hu Hp.
    destruct (bool_decide (Health.method req ∈ Health.WRITE_METHODS));
      cbn [negb]; [|reflexivity].
    rewrite Hu, Hp. reflexivity.
Qed.

Lemma safeModeMiddleware_gate_witness :
  let st :=
    {| Health.system_mode :=
         Some {| Health.safe_mode := true;
                 Health.safe_mode_reason :=
                   Some "Health score F — auto-engaged by health engine";
                 Health.enabled_at := Some 1000000;
                 Health.enabled_by := Some "system";
                 Health.override_token := None;
                 Health.updated_at := 1000000 |};
       Health.health_scores := []; Health.registry := Metrics.empty;
       Health.alerts := []; Health.alerts_bound := true |} in
  let req := {| Health.method := "POST"; Health.url := Some "/anything" |} in
  exists msg,
    Health.safeModeMiddleware (Health.isSafeMode true st) req
    = Health.Replied 503
        {| Health.error := "SERVICE_IN_SAFE_MODE"; Health.message := Some msg;
           Health.readOnly := Some true |}.
Proof.
  cbn zeta.
  match goal with
  | |- context [Health.safeModeMiddleware (Health.isSafeMode ?ok ?st) ?req] =>
      destruct (safeModeMiddleware_gate ok st req) as (Hw & _ & _)
  end.
  destruct Hw as (Hon & _ & _).
  - left. reflexivity.
  - intros u Hu. inversion Hu; subst. reflexivity.
  - destruct (Hon _ eq_refl eq_refl eq_refl) as (_ & msg & Hmsg).
    exists msg. exact Hmsg.
Defined.


(* ===================================================================== *)
(** * Further properties *)
(* ===================================================================== *)

(** ** Circuit breaker: CLOSED and OPEN *)

Section BreakerRuns.
Import CircuitBreaker.
Variable cfg : Config.

Lemma calls_app l1 l2 b : calls cfg (l1 ++ l2) b = calls cfg l2 (calls cfg l1 b).
Proof.
  revert b. induction l1 as [|[[t0 t1] ok] l1 IH]; intros b; cbn; [reflexivity|].
  apply IH.
Qed.

(** Failures below the threshold are counted and leave the breaker
    CLOSED. *)
Lemma closed_failures_counted (l : list (Z * Z)) b :
  state b = CLOSED ->
  failureCount b + Z.of_nat (length l) < failureThreshold cfg ->
  state (calls cfg (map (fun t => (t.1, t.2, false)) l) b) = CLOSED /\
  failureCount (calls cfg (map (fun t => (t.1, t.2, false)) l) b)
  = failureCount b + Z.of_nat (length l) /\
  lastStateChange (calls cfg (map (fun t => (t.1, t.2, false)) l) b)
  = lastStateChange b.
Proof.
  revert b. induction l as [|[t0 t1] l IH]; intros b Hs Hlt; cbn [map calls length].
  - repeat split; try assumption. lia.
  - cbn [length] in Hlt.
    assert (Hstep : fst (call cfg t0 t1 false b)
                    = {| state := CLOSED; failureCount := failureCount b + 1;
                         successCount := successCount b;
                         lastStateChange := lastStateChange b |}).
    { unfold call, onFailure. rewrite Hs. cbn.
      destruct (Z.leb_spec (failureThreshold cfg) (failureCount b + 1)); [lia|].
      rewrite Hs. reflexivity. }
    cbn [fst snd]. rewrite Hstep.
    match goal with |- context [calls cfg _ ?b0] =>
      destruct (IH b0 eq_refl) as (H1 & H2 & H3); [cbn; lia|] end.
    rewrite H1, H2, H3. cbn. repeat split; lia.
Qed.

(** One step keeps the counters where the transitions put them. *)
Lemma call_keeps_counters t0 t1 ok b :
  1 <= failureThreshold cfg ->
  (0 <= failureCount b /\ 0 <= successCount b /\
   (state b = CLOSED -> failureCount b < failureThreshold cfg) /\
   (state b = OPEN -> failureThreshold cfg <= failureCount b) /\
   (successCount b = 0 \/ successCount b < halfOpenProbes cfg)) ->
  let b' := fst (call cfg t0 t1 ok b) in
  0 <= failureCount b' /\ 0 <= successCount b' /\
  (state b' = CLOSED -> failureCount b' < failureThreshold cfg) /\
  (state b' = OPEN -> failureThreshold cfg <= failureCount b') /\
  (successCount b' = 0 \/ successCount b' < halfOpenProbes cfg).
Proof.
  intros Hth (Hf & Hsc & Hc & Ho & Hp). cbn zeta.
  unfold call, onSuccess, onFailure, transitionTo.
  destruct (state b) eqn:Hs; cbn;
    repeat match goal with
           | |- context [if ?c then _ else _] => destruct c eqn:?
           end;
    cbn; rewrite ?Hs; cbn;
    repeat match goal with
           | H : (_ <=? _) = true |- _ => apply Z.leb_le in H
           | H : (_ <=? _) = false |- _ => apply Z.leb_gt in H
           | H : (_ <? _) = true |- _ => apply Z.ltb_lt in H
           | H : (_ <? _) = false |- _ => apply Z.ltb_ge in H
           end;
    cbn in *; repeat split; intros; try discriminate; try lia;
    try (specialize (Hc eq_refl); lia); try (specialize (Ho eq_refl); lia).
Qed.

End BreakerRuns.

(** X1: on a fresh breaker, [failureThreshold] consecutive failures open it
    at the clock of the last failure; from then on a call is rejected,
    without running the callable or touching the breaker, as long as no more
    than [resetTimeoutMs] has passed, and the first call after that is
    forwarded. *)
Theorem threshold_failures_open_the_breaker
  (cfg : CircuitBreaker.Config) (t : Z) (l : list (Z * Z)) (t0 t1 : Z) :
  Z.of_nat (length l) + 1 = CircuitBreaker.failureThreshold cfg ->
  let b := CircuitBreaker.calls cfg
             (map (fun c => (c.1, c.2, false)) (l ++ [(t0, t1)]))
             (CircuitBreaker.create t) in
  CircuitBreaker.state
    (CircuitBreaker.calls cfg (map (fun c => (c.1, c.2, false)) l)
       (CircuitBreaker.create t)) = CircuitBreaker.CLOSED /\
  CircuitBreaker.state b = CircuitBreaker.OPEN /\
  CircuitBreaker.lastStateChange b = t1 /\
  (forall u0 u1 ok,
      u0 - t1 <= CircuitBreaker.resetTimeoutMs cfg ->
      CircuitBreaker.call cfg u0 u1 ok b = (b, CircuitBreaker.RejectedOpen)) /\
  (forall u0 u1 ok,
      CircuitBreaker.resetTimeoutMs cfg < u0 - t1 ->
      snd (CircuitBreaker.call cfg u0 u1 ok b) <> CircuitBreaker.RejectedOpen).
Proof.
  intros Hlen. cbn zeta.
  destruct (closed_failures_counted cfg l (CircuitBreaker.create t) eq_refl)
    as (Hs & Hc & _); [cbn; lia|].
  split; [exact Hs|].
  rewrite map_app, calls_app. cbn [map CircuitBreaker.calls fst snd].
  set (b0 := CircuitBreaker.calls cfg _ (CircuitBreaker.create t)) in *.
  assert (Hb : fst (CircuitBreaker.call cfg t0 t1 false b0)
               = {| CircuitBreaker.state := CircuitBreaker.OPEN;
                    CircuitBreaker.failureCount := CircuitBreaker.failureCount b0 + 1;
                    CircuitBreaker.successCount := CircuitBreaker.successCount b0;
                    CircuitBreaker.lastStateChange := t1 |}).
  { unfold CircuitBreaker.call, CircuitBreaker.onFailure. rewrite Hs. cbn.
    cbn in Hc.
    destruct (Z.leb_spec (CircuitBreaker.failureThreshold cfg)
                (CircuitBreaker.failureCount b0 + 1)); [reflexivity|lia]. }
  rewrite Hb. cbn. repeat split.
  - intros u0 u1 ok Hu. unfold CircuitBreaker.call. cbn.
    destruct (Z.ltb_spec (CircuitBreaker.resetTimeoutMs cfg) (u0 - t1));
      [lia|reflexivity].
  - intros u0 u1 ok Hu. unfold CircuitBreaker.call. cbn.
    destruct (Z.ltb_spec (CircuitBreaker.resetTimeoutMs cfg) (u0 - t1));
      [|lia].
    destruct ok; discriminate.
Qed.

Lemma threshold_failures_open_the_breaker_witness :
  Z.of_nat (length [(1000, 1001); (1002, 1003); (1004, 1005); (1006, 1007)]) + 1
  = CircuitBreaker.failureThreshold CircuitBreaker.defaults /\
  CircuitBreaker.call CircuitBreaker.defaults 31009 31010 true
    (CircuitBreaker.calls CircuitBreaker.defaults
       (map (fun c => (c.1, c.2, false))
          ([(1000, 1001); (1002, 1003); (1004, 1005); (1006, 1007)]
           ++ [(1008, 1009)]))
       (CircuitBreaker.create 0))
  = (CircuitBreaker.calls CircuitBreaker.defaults
       (map (fun c => (c.1, c.2, false))
          ([(1000, 1001); (1002, 1003); (1004, 1005); (1006, 1007)]
           ++ [(1008, 1009)]))
       (CircuitBreaker.create 0),
     CircuitBreaker.RejectedOpen).
Proof.
  assert (H : Z.of_nat (length [(1000, 1001); (1002, 1003); (1004, 1005);
                                (1006, 1007)]) + 1
              = CircuitBreaker.failureThreshold CircuitBreaker.defaults)
    by reflexivity.
  split; [exact H|].
  destruct (threshold_failures_open_the_breaker CircuitBreaker.defaults 0
              _ 1008 1009 H) as (_ & _ & _ & Hrej & _).
  apply Hrej. cbn. lia.
Defined.

Section BreakerSchedules.
Import CircuitBreaker.
Variable cfg : Config.

Lemma enter_keeps_counters t0 b b' :
  counters_ok cfg b -> enter cfg t0 b = Some b' -> counters_ok cfg b'.
Proof.
  intros (Hf & Hsc & Hc & Hp). unfold enter, transitionTo, counters_ok.
  destruct (state b) eqn:Hs;
    repeat match goal with
           | |- context [if ?c then _ else _] => destruct c
           end;
    intros [= <-]; cbn; rewrite ?Hs; repeat split; auto; discriminate.
Qed.

Lemma settle_keeps_counters ok t1 b :
  1 <= failureThreshold cfg -> counters_ok cfg b ->
  counters_ok cfg (settle cfg ok t1 b).
Proof.
  intros Hth (Hf & Hsc & Hc & Hp).
  unfold settle, onSuccess, onFailure, transitionTo, counters_ok.
  destruct ok; destruct (state b) eqn:Hs; cbn;
    repeat match goal with
           | |- context [if ?c then _ else _] => destruct c eqn:?
           end;
    cbn; rewrite ?Hs; cbn;
    repeat match goal with
           | H : (_ <=? _) = true |- _ => apply Z.leb_le in H
           | H : (_ <=? _) = false |- _ => apply Z.leb_gt in H
           end;
    cbn in *; repeat split; intros; try discriminate; try lia;
    try (specialize (Hc eq_refl); lia).
Qed.

Lemma schedule_keeps_counters evs r r' :
  1 <= failureThreshold cfg ->
  counters_ok cfg (breaker r) -> schedule cfg evs r = Some r' ->
  counters_ok cfg (breaker r').
Proof.
  intros Hth. revert r. induction evs as [|e evs IH]; intros r Hinv; cbn.
  - intros [= <-]. exact Hinv.
  - destruct e as [t0|ok t1]; cbn.
    + destruct (enter cfg t0 (breaker r)) as [b'|] eqn:He.
      * apply IH. cbn. eapply enter_keeps_counters; eassumption.
      * apply IH. exact Hinv.
    + destruct (pending r); [discriminate|].
      apply IH. cbn. apply settle_keeps_counters; assumption.
Qed.

(** Calls that do not overlap are one schedule among the others. *)
Lemma schedule_one_by_one l b :
  schedule cfg (one_by_one cfg l b) {| breaker := b; pending := 0 |}
  = Some {| breaker := calls cfg l b; pending := 0 |}.
Proof.
  revert b. induction l as [|[[t0 t1] ok] l IH]; intros b; [reflexivity|].
  cbn [one_by_one calls].
  assert (Hcall : fst (call cfg t0 t1 ok b)
                  = match enter cfg t0 b with
                    | Some b' => settle cfg ok t1 b'
                    | None => b
                    end).
  { unfold call, enter, settle. destruct (state b); cbn;
      repeat match goal with
             | |- context [if ?c then _ else _] => destruct c
             end; reflexivity. }
  destruct (enter cfg t0 b) as [b'|] eqn:He.
  - cbn [schedule step breaker pending]. rewrite He.
    cbn [schedule step breaker pending]. rewrite <- Hcall. apply IH.
  - cbn [schedule step breaker pending]. rewrite He, Hcall. apply IH.
Qed.

Lemma calls_keep_counters l b :
  1 <= failureThreshold cfg ->
  (0 <= failureCount b /\ 0 <= successCount b /\
   (state b = CLOSED -> failureCount b < failureThreshold cfg) /\
   (state b = OPEN -> failureThreshold cfg <= failureCount b) /\
   (successCount b = 0 \/ successCount b < halfOpenProbes cfg)) ->
  state (calls cfg l b) = OPEN ->
  failureThreshold cfg <= failureCount (calls cfg l b).
Proof.
  intros Hth. revert b. induction l as [|[[t0 t1] ok] l IH]; intros b Hinv;
    cbn [calls].
  - apply Hinv.
  - apply IH. apply call_keeps_counters; assumption.
Qed.

End BreakerSchedules.

(** X2: the calls of a breaker overlap.  Whatever schedule of entering and
    settling calls runs on a fresh breaker whose threshold is at least 1,
    neither counter is ever negative, a CLOSED breaker holds fewer failures
    than the threshold, and the probe counter is either 0 or below
    [halfOpenProbes].  When every call settles before the next one enters,
    an OPEN breaker holds at least [failureThreshold] failures; with
    overlapping calls it need not: with the default parameters, after four
    failures, two calls that are both entered, of which the first fails and
    the second then succeeds, leave the breaker OPEN with no failure
    counted. *)
Theorem breaker_counters_invariant
  (cfg : CircuitBreaker.Config) (t : Z) (evs : list CircuitBreaker.Event)
  (r : CircuitBreaker.Running) :
  1 <= CircuitBreaker.failureThreshold cfg ->
  CircuitBreaker.schedule cfg evs
    {| CircuitBreaker.breaker := CircuitBreaker.create t;
       CircuitBreaker.pending := 0 |} = Some r ->
  let b := CircuitBreaker.breaker r in
  0 <= CircuitBreaker.failureCount b /\
  0 <= CircuitBreaker.successCount b /\
  (CircuitBreaker.state b = CircuitBreaker.CLOSED ->
   CircuitBreaker.failureCount b < CircuitBreaker.failureThreshold cfg) /\
  (CircuitBreaker.successCount b = 0 \/
   CircuitBreaker.successCount b < CircuitBreaker.halfOpenProbes cfg) /\
  (forall l : list (Z * Z * bool),
     evs = CircuitBreaker.one_by_one cfg l (CircuitBreaker.create t) ->
     b = CircuitBreaker.calls cfg l (CircuitBreaker.create t) /\
     CircuitBreaker.pending r = 0%nat /\
     (CircuitBreaker.state b = CircuitBreaker.OPEN ->
      CircuitBreaker.failureThreshold cfg <= CircuitBreaker.failureCount b)) /\
  CircuitBreaker.schedule CircuitBreaker.defaults
    [CircuitBreaker.Enter 1; CircuitBreaker.Settle false 2;
     CircuitBreaker.Enter 3; CircuitBreaker.Settle false 4;
     CircuitBreaker.Enter 5; CircuitBreaker.Settle false 6;
     CircuitBreaker.Enter 7; CircuitBreaker.Settle false 8;
     CircuitBreaker.Enter 9; CircuitBreaker.Enter 10;
     CircuitBreaker.Settle false 11; CircuitBreaker.Settle true 12]
    {| CircuitBreaker.breaker := CircuitBreaker.create 0;
       CircuitBreaker.pending := 0 |}
  = Some {| CircuitBreaker.breaker :=
              {| CircuitBreaker.state := CircuitBreaker.OPEN;
                 CircuitBreaker.failureCount := 0;
                 CircuitBreaker.successCount := 0;
                 CircuitBreaker.lastStateChange := 11 |};
            CircuitBreaker.pending := 0 |}.
Proof.
  intros Hth Hrun. cbn zeta.
  assert (Hfresh : CircuitBreaker.counters_ok cfg (CircuitBreaker.create t)).
  { unfold CircuitBreaker.counters_ok. cbn. split; [lia|]. split; [lia|].
    split; [intros _; lia|left; reflexivity]. }
  destruct (schedule_keeps_counters cfg evs
              {| CircuitBreaker.breaker := CircuitBreaker.create t;
                 CircuitBreaker.pending := 0 |} r Hth Hfresh Hrun)
    as (Hf & Hsc & Hc & Hp).
  split; [exact Hf|]. split; [exact Hsc|]. split; [exact Hc|].
  split; [exact Hp|]. split; [|reflexivity].
  intros l ->. rewrite schedule_one_by_one in Hrun.
  injection Hrun as <-. cbn [CircuitBreaker.breaker CircuitBreaker.pending].
  split; [reflexivity|]. split; [reflexivity|].
  apply calls_keep_counters; [exact Hth|].
  cbn. repeat split; try lia; try discriminate.
Qed.

Lemma breaker_counters_invariant_witness :
  1 <= CircuitBreaker.failureThreshold CircuitBreaker.defaults /\
  CircuitBreaker.schedule CircuitBreaker.defaults
    [CircuitBreaker.Enter 10; CircuitBreaker.Enter 12;
     CircuitBreaker.Settle false 13; CircuitBreaker.Settle true 15]
    {| CircuitBreaker.breaker := CircuitBreaker.create 0;
       CircuitBreaker.pending := 0 |}
  = Some {| CircuitBreaker.breaker := CircuitBreaker.create 0;
            CircuitBreaker.pending := 0 |} /\
  0 <= CircuitBreaker.failureCount (CircuitBreaker.create 0).
Proof.
  assert (H : 1 <= CircuitBreaker.failureThreshold CircuitBreaker.defaults)
    by (cbn; lia).
  split; [exact H|]. split; [reflexivity|].
  exact (proj1 (breaker_counters_invariant CircuitBreaker.defaults 0
                  [CircuitBreaker.Enter 10; CircuitBreaker.Enter 12;
                   CircuitBreaker.Settle false 13; CircuitBreaker.Settle true 15]
                  _ H eq_refl)).
Defined.

(** ** Retry helpers *)

Section RetryFacts.
Import Retry.
Context {T : Type}.
Variables (fn : Z -> Err + T) (jitter : Z -> Q) (maxAttempts : Z).

Lemma Qmin_le_r a b : (Qmin a b <= b)%Q.
Proof.
  unfold Qmin, Qleb. destruct (Z.leb_spec (Qnum a * QDen b) (Qnum b * QDen a)).
  - exact H.
  - apply Qle_refl.
Qed.

Lemma backoff_le_cap base cap attempt j :
  (backoff base cap attempt j <= inject_Z cap)%Q.
Proof. apply Qmin_le_r. Qed.

(** A run of deadlock failures that ends before the last attempt is
    retried through, each failure adding an invocation, a sleep and a
    retry. *)
Lemma deadlock_loop_retries (n : nat) : forall rem a tr,
  (forall i, a <= i < a + Z.of_nat n ->
             exists e, fn i = inl e /\ isDeadlock e = true) ->
  a + Z.of_nat n <= maxAttempts ->
  (n <= rem)%nat ->
  deadlock_loop rem a maxAttempts fn jitter tr
  = deadlock_loop (rem - n) (a + Z.of_nat n) maxAttempts fn jitter
      {| invoked := (invoked tr + n)%nat;
         sleeps := sleeps tr
                   ++ map (fun i => backoff 50 2000 i (jitter i)) (seqZ a (Z.of_nat n));
         retry_count := (retry_count tr + n)%nat;
         exhausted := exhausted tr |}.
Proof.
  induction n as [|n IH]; intros rem a tr Hd Hmax Hrem.
  - cbn. rewrite Z.add_0_r, Nat.sub_0_r, app_nil_r, !Nat.add_0_r.
    destruct tr; reflexivity.
  - destruct rem as [|rem]; [lia|]. cbn [deadlock_loop].
    destruct (Hd a) as (e & He & Hde); [lia|].
    rewrite He, Hde. cbn [negb orb].
    destruct (Z.eqb_spec a maxAttempts); [lia|].
    rewrite IH; [| intros i Hi; apply Hd; lia | lia | lia].
    cbn [invoked sleeps retry_count exhausted].
    replace (S rem - S n)%nat with (rem - n)%nat by lia.
    replace (a + 1 + Z.of_nat n) with (a + Z.of_nat (S n)) by lia.
    f_equal. f_equal; try lia.
    rewrite <- app_assoc. f_equal.
    replace (Z.of_nat (S n)) with (Z.succ (Z.of_nat n)) by lia.
    rewrite (seqZ_cons a (Z.succ (Z.of_nat n))) by lia. cbn [map].
    replace (Z.succ a) with (a + 1) by lia.
    replace (Z.pred (Z.succ (Z.of_nat n))) with (Z.of_nat n) by lia.
    reflexivity.
Qed.



End RetryFacts.

(** X3: when the first [k - 1] attempts fail with deadlock errors and the
    [k]-th attempt, not beyond [maxAttempts], succeeds, [withDeadlockRetry]
    returns that value after exactly [k] invocations; it has slept [k - 1]
    times, the [i]-th time for [min(50 * 2^(i-1) + jitter, 2000)] ms, counted
    [k - 1] retries and no exhaustion. *)
Theorem deadlock_retry_returns_first_success
  {T : Type} (fn : Z -> Retry.Err + T) (jitter : Z -> Q)
  (maxAttempts k : Z) (v : T) :
  1 <= k <= maxAttempts ->
  (forall i, 1 <= i < k -> exists e, fn i = inl e /\ Retry.isDeadlock e = true) ->
  fn k = inr v ->
  Retry.withDeadlockRetry fn jitter maxAttempts
  = (Retry.Value v,
     {| Retry.invoked := Z.to_nat k;
        Retry.sleeps := map (fun i => Retry.backoff 50 2000 i (jitter i))
                          (seqZ 1 (k - 1));
        Retry.retry_count := Z.to_nat (k - 1);
        Retry.exhausted := 0 |}).
Proof.
  intros Hk Hd Hv. unfold Retry.withDeadlockRetry.
  rewrite (deadlock_loop_retries fn jitter maxAttempts (Z.to_nat (k - 1)));
    [| intros i Hi; apply Hd; lia | lia | lia].
  replace (1 + Z.of_nat (Z.to_nat (k - 1))) with k by lia.
  destruct (Z.to_nat maxAttempts - Z.to_nat (k - 1))%nat as [|rem] eqn:Hrem; [lia|].
  cbn [Retry.deadlock_loop]. rewrite Hv. cbn.
  rewrite Z2Nat.id by lia. f_equal. f_equal. lia.
Qed.

Lemma deadlock_retry_returns_first_success_witness :
  let fn := fun i : Z =>
    if i <? 3 then inl (Retry.PlainError "ERROR: could not serialize access")
    else inr 7 in
  Retry.withDeadlockRetry fn (fun _ => ratio 10 1) 5
  = (Retry.Value 7,
     {| Retry.invoked := 3;
        Retry.sleeps := [ratio 60 1; ratio 110 1];
        Retry.retry_count := 2; Retry.exhausted := 0 |}).
Proof.
  cbn zeta.
  rewrite (deadlock_retry_returns_first_success _ _ 5 3 7);
    [vm_compute; reflexivity | lia | | reflexivity].
  intros i Hi. exists (Retry.PlainError "ERROR: could not serialize access").
  split; [|vm_compute; reflexivity].
  destruct (Z.ltb_spec i 3); [reflexivity|lia].
Defined.

(** X4: an error that is not a deadlock, or any error at the last attempt,
    is rethrown as it is once the earlier attempts have failed with
    deadlocks; the callable has run exactly [k] times and the exhaustion
    counter is incremented, also when the error is no deadlock at all. *)
Theorem deadlock_retry_rethrows
  {T : Type} (fn : Z -> Retry.Err + T) (jitter : Z -> Q)
  (maxAttempts k : Z) (e : Retry.Err) :
  1 <= k <= maxAttempts ->
  (forall i, 1 <= i < k -> exists e', fn i = inl e' /\ Retry.isDeadlock e' = true) ->
  fn k = inl e ->
  Retry.isDeadlock e = false \/ k = maxAttempts ->
  Retry.withDeadlockRetry fn jitter maxAttempts
  = (Retry.Raise e,
     {| Retry.invoked := Z.to_nat k;
        Retry.sleeps := map (fun i => Retry.backoff 50 2000 i (jitter i))
                          (seqZ 1 (k - 1));
        Retry.retry_count := Z.to_nat (k - 1);
        Retry.exhausted := 1 |}).
Proof.
  intros Hk Hd He Hlast. unfold Retry.withDeadlockRetry.
  rewrite (deadlock_loop_retries fn jitter maxAttempts (Z.to_nat (k - 1)));
    [| intros i Hi; apply Hd; lia | lia | lia].
  replace (1 + Z.of_nat (Z.to_nat (k - 1))) with k by lia.
  destruct (Z.to_nat maxAttempts - Z.to_nat (k - 1))%nat as [|rem] eqn:Hrem; [lia|].
  cbn [Retry.deadlock_loop]. rewrite He.
  assert (Hc : negb (Retry.isDeadlock e) || (k =? maxAttempts) = true).
  { destruct Hlast as [->| ->]; [reflexivity|].
    rewrite Z.eqb_refl. apply orb_true_r. }
  rewrite Hc. cbn. rewrite Z2Nat.id by lia. f_equal. f_equal. lia.
Qed.

Lemma deadlock_retry_rethrows_witness :
  let fn := fun _ : Z => @inl Retry.Err Z (Retry.PlainError "deadlock detected") in
  fst (Retry.withDeadlockRetry fn (fun _ => ratio 0 1) 5)
  = Retry.Raise (Retry.PlainError "deadlock detected") /\
  Retry.invoked (snd (Retry.withDeadlockRetry fn (fun _ => ratio 0 1) 5)) = 5%nat.
Proof.
  cbn zeta.
  rewrite (deadlock_retry_rethrows _ _ 5 5 (Retry.PlainError "deadlock detected"));
    [split; reflexivity | lia | | reflexivity | right; reflexivity].
  intros i _. eexists. split; [reflexivity|vm_compute; reflexivity].
Defined.


Section NetworkRetryFacts.
Import Retry.
Context {T : Type}.
Variables (cfg : CircuitBreaker.Config) (name : string)
          (fn : Z -> Err + T) (clock : Z -> Z * Z) (jitter : Z -> Q).

(** A guarded call reports the callable as run unless the breaker rejected
    the call, and then the breaker is as before. *)
Lemma guarded_call_rejected t0 t1 (r : Err + T) b :
  CircuitBreaker.state b = CircuitBreaker.OPEN ->
  t0 - CircuitBreaker.lastStateChange b <= CircuitBreaker.resetTimeoutMs cfg ->
  guarded_call cfg name t0 t1 r b = (b, inl (breaker_open_error name), false).
Proof.
  intros Hs Ht. unfold guarded_call, CircuitBreaker.call. rewrite Hs.
  destruct (Z.ltb_spec (CircuitBreaker.resetTimeoutMs cfg)
              (t0 - CircuitBreaker.lastStateChange b)); [lia|reflexivity].
Qed.

Lemma network_loop_bounds : forall rem a b tr,
  (1 <= rem)%nat -> a + Z.of_nat rem = 5 ->
  let r := network_loop rem a cfg name fn clock jitter b tr in
  fst (fst r) <> Unreachable /\
  (invoked tr <= invoked (snd r) <= invoked tr + rem)%nat /\
  exists extra,
    sleeps (snd r) = sleeps tr ++ extra /\
    Forall (fun d => (d <= inject_Z 5000)%Q) extra /\
    (length extra < rem)%nat.
Proof.
  induction rem as [|rem IH]; intros a b tr Hrem Ha; [lia|].
  cbn zeta. cbn [network_loop].
  destruct (guarded_call cfg name (clock a).1 (clock a).2 (fn a) b)
    as [[b' r] ran].
  assert (Hran : (invoked tr <= (if ran then S (invoked tr) else invoked tr)
                  <= S (invoked tr))%nat) by (destruct ran; lia).
  destruct r as [err|v].
  - destruct (negb (isNetworkError err)); cbn [orb].
    + cbn. split; [discriminate|]. split; [lia|].
      exists []. rewrite app_nil_r. repeat split; [constructor|cbn; lia].
    + destruct (Z.eqb_spec a 4).
      * cbn. split; [discriminate|]. split; [lia|].
        exists []. rewrite app_nil_r. repeat split; [constructor|cbn; lia].
      * cbn [invoked sleeps retry_count exhausted].
        match goal with |- context [network_loop rem ?a' _ _ _ _ _ ?b0 ?tr0] =>
          destruct (IH a' b0 tr0) as (Hne & Hi & extra & Hs & Hf & Hl);
            [lia|lia|] end.
        cbn [invoked sleeps] in Hi, Hs.
        split; [exact Hne|]. split; [lia|].
        exists (backoff 200 5000 a (jitter a) :: extra).
        rewrite Hs, <- app_assoc. cbn [app length].
        repeat split; [|lia].
        constructor; [apply backoff_le_cap|exact Hf].
  - cbn. split; [discriminate|]. split; [lia|].
    exists []. rewrite app_nil_r. repeat split; [constructor|cbn; lia].
Qed.

End NetworkRetryFacts.

(** X6: when the breaker is open and its reset timeout has not passed,
    [withNetworkRetry] fails at once with the breaker's own error: the
    callable is never invoked, nothing is slept and the breaker is left as
    it was.  This holds for every breaker whose rejection message is not
    itself classified as a network error. *)
Theorem network_retry_does_not_retry_open_breaker
  {T : Type} (cfg : CircuitBreaker.Config) (name : string)
  (fn : Z -> Retry.Err + T) (clock : Z -> Z * Z) (jitter : Z -> Q)
  (b : CircuitBreaker.Breaker) :
  CircuitBreaker.state b = CircuitBreaker.OPEN ->
  (clock 1).1 - CircuitBreaker.lastStateChange b
    <= CircuitBreaker.resetTimeoutMs cfg ->
  Retry.isNetworkError (Retry.breaker_open_error name) = false ->
  Retry.withNetworkRetry cfg name fn clock jitter b
  = (Retry.Raise (Retry.breaker_open_error name), b, Retry.no_trace).
Proof.
  intros Hs Ht Hn. unfold Retry.withNetworkRetry. cbn [Retry.network_loop].
  rewrite guarded_call_rejected by assumption.
  rewrite Hn. reflexivity.
Qed.

Lemma network_retry_does_not_retry_open_breaker_witness :
  let b := {| CircuitBreaker.state := CircuitBreaker.OPEN;
              CircuitBreaker.failureCount := 5;
              CircuitBreaker.successCount := 0;
              CircuitBreaker.lastStateChange := 1000 |} in
  Retry.withNetworkRetry CircuitBreaker.defaults "database"
    (fun _ : Z => @inr Retry.Err Z 1) (fun _ => (2000, 2001))
    (fun _ => ratio 0 1) b
  = (Retry.Raise (Retry.breaker_open_error "database"), b, Retry.no_trace).
Proof.
  cbn zeta.
  apply network_retry_does_not_retry_open_breaker;
    [reflexivity | cbn; lia | vm_compute; reflexivity].
Defined.

(** X7: whatever the callable and the breaker do, [withNetworkRetry] ends
    inside its loop, has invoked the callable at most 4 times and slept at
    most 3 times, never longer than 5000 ms. *)
Theorem network_retry_is_bounded
  {T : Type} (cfg : CircuitBreaker.Config) (name : string)
  (fn : Z -> Retry.Err + T) (clock : Z -> Z * Z) (jitter : Z -> Q)
  (b : CircuitBreaker.Breaker) :
  let r := Retry.withNetworkRetry cfg name fn clock jitter b in
  fst (fst r) <> Retry.Unreachable /\
  (Retry.invoked (snd r) <= 4)%nat /\
  (length (Retry.sleeps (snd r)) <= 3)%nat /\
  Forall (fun d => (d <= inject_Z 5000)%Q) (Retry.sleeps (snd r)).
Proof.
  cbn zeta. unfold Retry.withNetworkRetry.
  destruct (network_loop_bounds cfg name fn clock jitter 4 1 b Retry.no_trace)
    as (Hne & Hi & extra & Hs & Hf & Hl); [lia|lia|].
  cbn [Retry.no_trace Retry.invoked Retry.sleeps app] in Hi, Hs.
  rewrite Hs. repeat split; try assumption; lia.
Qed.

(** ** Idempotency registry: one caller at a time *)

Section IdempotencySolo.
Import Idempotency IdempotencyMaintenance.
Variables (key : string) (ttlSeconds : Z).



End IdempotencySolo.







(** X11: garbage collection is invisible to lookups made at or after its
    own clock: [cleanup] removes only rows no such lookup would return. *)
Theorem cleanup_keeps_live_rows
  (key : string) (now t : Z) (d : gmap string Idempotency.Row) :
  now <= t ->
  Idempotency.lookup_live key t (IdempotencyMaintenance.cleanup now d)
  = Idempotency.lookup_live key t d.
Proof.
  intros Ht. unfold Idempotency.lookup_live, IdempotencyMaintenance.cleanup.
  destruct (d !! key) as [r|] eqn:Hd.
  - destruct (decide (Idempotency.expires_at r < now)) as [Hold|Hlive].
    + rewrite (proj2 (map_lookup_filter_None _ d key)).
      * destruct (Z.ltb_spec t (Idempotency.expires_at r)); [lia|reflexivity].
      * right. intros x Hx. rewrite Hd in Hx. inversion Hx; subst. cbn. tauto.
    + rewrite (proj2 (map_lookup_filter_Some _ d key r)); [reflexivity|].
      split; [exact Hd|exact Hlive].
  - rewrite (proj2 (map_lookup_filter_None _ d key)); [reflexivity|].
    left. exact Hd.
Qed.

Lemma cleanup_keeps_live_rows_witness :
  Idempotency.lookup_live "K1" 20
    (IdempotencyMaintenance.cleanup 10
       {[ "K1" := {| Idempotency.response_body := None;
                     Idempotency.status_code := None;
                     Idempotency.expires_at := 50; Idempotency.locked := true;
                     Idempotency.locked_at := Some 0 |} ]})
  = Idempotency.lookup_live "K1" 20
      {[ "K1" := {| Idempotency.response_body := None;
                    Idempotency.status_code := None;
                    Idempotency.expires_at := 50; Idempotency.locked := true;
                    Idempotency.locked_at := Some 0 |} ]}.
Proof. apply cleanup_keeps_live_rows. lia. Defined.

(** ** Incident manager: heal attempts, counts and the invariant hook *)

Section IncidentMoreFacts.
Import Incident.

Lemma alter_is_insert {A} (f : A -> A) (m : gmap string A) i x :
  m !! i = Some x -> alter f i m = <[i := f x]> m.
Proof.
  intros H. apply map_eq. intros j. destruct (decide (j = i)) as [->|Hne].
  - rewrite lookup_alter_eq, lookup_insert_eq, H. reflexivity.
  - rewrite lookup_alter_ne, lookup_insert_ne by congruence. reflexivity.
Qed.

(** [escalate] leaves every other incident alone. *)
Lemma escalate_other now id reason st id' :
  id' <> id -> incidents (escalate now id reason st) !! id' = incidents st !! id'.
Proof.
  intros Hne. unfold escalate.
  destruct (incidents st !! id) as [inc|]; [|reflexivity].
  destruct (decide (status inc = ESCALATED)); [reflexivity|].
  cbn. rewrite lookup_alter_ne by congruence. reflexivity.
Qed.

End IncidentMoreFacts.

Lemma incrementHealAttempts_effect
  (now : Z) (id : string) (count : Z) (reason : string)
  (st : Incident.Store) (inc : Incident.StoredIncident) :
  Incident.incidents st !! id = Some inc ->
  let st' := Incident.incrementHealAttempts now id count reason st in
  let due := (3 <=? Incident.auto_heal_attempts inc + 1)
             || (15 * 60 * 1000 <? now - Incident.created_at inc) in
  Incident.auto_heal_attempts <$> Incident.incidents st' !! id
  = Some (Incident.auto_heal_attempts inc + 1) /\
  Incident.status <$> Incident.incidents st' !! id
  = Some (if due then Incident.ESCALATED else Incident.AUTO_HEALING) /\
  Incident.escalated_at <$> Incident.incidents st' !! id
  = Some (if due then Some now else Incident.escalated_at inc) /\
  length (Incident.alerts st')
  = (length (Incident.alerts st) + (if due then 1 else 0))%nat /\
  (forall id', id' <> id ->
               Incident.incidents st' !! id' = Incident.incidents st !! id').
Proof.
  intros Hin. cbn zeta. unfold Incident.incrementHealAttempts.
  cbn [Incident.incidents Incident.alerts].
  rewrite lookup_alter_eq, Hin. cbn [fmap option_fmap option_map].
  cbn [Incident.auto_heal_attempts Incident.created_at].
  change Incident.MAX_AUTO_HEAL_ATTEMPTS with 3.
  change Incident.ESCALATE_AFTER_MS with (15 * 60 * 1000).
  destruct ((3 <=? Incident.auto_heal_attempts inc + 1)
            || (15 * 60 * 1000 <? now - Incident.created_at inc)).
  - match goal with |- context [Incident.escalate now id reason ?s] =>
      set (st1 := s) end.
    assert (H1 : Incident.incidents st1 !! id
                 = Some {| Incident.priority := Incident.priority inc;
                           Incident.status := Incident.AUTO_HEALING;
                           Incident.title := Incident.title inc;
                           Incident.invariant := Incident.invariant inc;
                           Incident.details :=
                             Incident.jsonb_concat (Incident.details inc)
                               [("lastViolationCount", JNum count);
                                ("updatedAt", JNum now)];
                           Incident.forensic_snapshot := Incident.forensic_snapshot inc;
                           Incident.auto_heal_attempts :=
                             Incident.auto_heal_attempts inc + 1;
                           Incident.auto_healed := Incident.auto_healed inc;
                           Incident.resolved_reason := Incident.resolved_reason inc;
                           Incident.created_at := Incident.created_at inc;
                           Incident.updated_at := now;
                           Incident.resolved_at := Incident.resolved_at inc;
                           Incident.escalated_at := Incident.escalated_at inc |}).
    { unfold st1. cbn. rewrite lookup_alter_eq, Hin. reflexivity. }
    destruct (escalate_sets_escalated now id reason st1 _ H1) as [Hrow Hal];
      [cbn; discriminate|].
    rewrite Hrow, Hal. cbn. repeat split; try lia.
    intros id' Hne. rewrite escalate_other by exact Hne.
    unfold st1. cbn. rewrite lookup_alter_ne by congruence. reflexivity.
  - cbn. rewrite lookup_alter_eq, Hin. cbn. repeat split; try lia.
    intros id' Hne. rewrite lookup_alter_ne by congruence. reflexivity.
Qed.

(** X12: [incrementHealAttempts] on an incident of the table, whatever its
    status: the attempts grow by one; if they reach 3, or the incident is
    older than 15 minutes, the incident ends ESCALATED with [escalated_at]
    set to the current time and one escalation alert is sent, also when the
    incident was escalated before; otherwise it ends AUTO_HEALING, no alert is
    sent and [escalated_at] keeps its value.  No other incident changes. *)
Theorem incrementHealAttempts_outcome
  (now : Z) (id : string) (count : Z) (reason : string)
  (st : Incident.Store) (inc : Incident.StoredIncident) :
  Incident.incidents st !! id = Some inc ->
  let st' := Incident.incrementHealAttempts now id count reason st in
  let due := (3 <=? Incident.auto_heal_attempts inc + 1)
             || (15 * 60 * 1000 <? now - Incident.created_at inc) in
  Incident.auto_heal_attempts <$> Incident.incidents st' !! id
  = Some (Incident.auto_heal_attempts inc + 1) /\
  Incident.status <$> Incident.incidents st' !! id
  = Some (if due then Incident.ESCALATED else Incident.AUTO_HEALING) /\
  Incident.escalated_at <$> Incident.incidents st' !! id
  = Some (if due then Some now else Incident.escalated_at inc) /\
  length (Incident.alerts st')
  = (length (Incident.alerts st) + (if due then 1 else 0))%nat /\
  (forall id', id' <> id ->
               Incident.incidents st' !! id' = Incident.incidents st !! id').
Proof. exact (incrementHealAttempts_effect now id count reason st inc). Qed.

Lemma incrementHealAttempts_outcome_witness :
  let inc :=
    {| Incident.priority := Incident.P1; Incident.status := Incident.ESCALATED;
       Incident.title := "Invariant violation: NO_NEGATIVE_STOCK";
       Incident.invariant := Some "NO_NEGATIVE_STOCK";
       Incident.details := []; Incident.forensic_snapshot := None;
       Incident.auto_heal_attempts := 3; Incident.auto_healed := false;
       Incident.resolved_reason := None;
       Incident.created_at := 0; Incident.updated_at := 600000;
       Incident.resolved_at := None; Incident.escalated_at := Some 600000 |} in
  let st := {| Incident.incidents := {[ "inc-1" := inc ]};
               Incident.alerts := [] |} in
  Incident.escalated_at
    <$> Incident.incidents
          (Incident.incrementHealAttempts 900000 "inc-1" 2 "4 heal attempts" st)
        !! "inc-1"
  = Some (Some 900000).
Proof.
  cbn zeta.
  match goal with
  | |- context [Incident.incrementHealAttempts ?n ?i ?c ?r ?s] =>
      destruct (incrementHealAttempts_outcome n i c r s
                  {| Incident.priority := Incident.P1;
                     Incident.status := Incident.ESCALATED;
                     Incident.title := "Invariant violation: NO_NEGATIVE_STOCK";
                     Incident.invariant := Some "NO_NEGATIVE_STOCK";
                     Incident.details := []; Incident.forensic_snapshot := None;
                     Incident.auto_heal_attempts := 3;
                     Incident.auto_healed := false;
                     Incident.resolved_reason := None;
                     Incident.created_at := 0; Incident.updated_at := 600000;
                     Incident.resolved_at := None;
                     Incident.escalated_at := Some 600000 |} eq_refl)
        as (_ & _ & He & _)
  end.
  exact He.
Defined.

Section IncidentCountFacts.
Import Incident IncidentQueries.

Lemma open_with_lookup p m id inc :
  open_with p m !! id = Some inc <->
  m !! id = Some inc /\ priority inc = p /\ terminal (status inc) = false.
Proof. unfold open_with. rewrite map_lookup_filter_Some. cbn. tauto. Qed.

(** Writing an open row under a fresh id adds one to the count of its
    priority and nothing to the others. *)
Lemma count_open_insert_fresh p m id row :
  m !! id = None -> terminal (status row) = false ->
  count_open p (<[id := row]> m)
  = (count_open p m + (if decide (priority row = p) then 1 else 0))%N.
Proof.
  intros Hfresh Hopen. unfold count_open, open_with.
  rewrite map_filter_insert. cbn [snd].
  destruct (decide (priority row = p)) as [Hp|Hp].
  - rewrite decide_True by tauto.
    rewrite map_size_insert_None; [lia|].
    apply map_lookup_filter_None. left. exact Hfresh.
  - rewrite decide_False by tauto.
    rewrite delete_id by exact Hfresh. lia.
Qed.

(** Replacing an open row by a terminal one takes one from the count of
    its priority. *)
Lemma count_open_close p m id inc row :
  m !! id = Some inc -> terminal (status inc) = false ->
  terminal (status row) = true ->
  (count_open p (<[id := row]> m)
   + (if decide (priority inc = p) then 1 else 0)
   = count_open p m)%N.
Proof.
  intros Hin Hopen Hterm. unfold count_open, open_with.
  rewrite map_filter_insert_False
    by (cbn; intros [_ H]; rewrite Hterm in H; discriminate).
  rewrite map_filter_delete, map_size_delete.
  destruct (decide (priority inc = p)) as [Hp|Hp].
  - rewrite (proj2 (map_lookup_filter_Some _ m id inc)) by (cbn; tauto).
    assert (Hpos : (0 < size (filter (fun kv : string * StoredIncident =>
                                 priority kv.2 = p /\ terminal (status kv.2) = false) m))%nat).
    { destruct (size (filter _ m)) eqn:Hsz; [|lia].
      apply map_size_empty_inv in Hsz.
      assert (Hl : filter (fun kv : string * StoredIncident =>
                             priority kv.2 = p /\ terminal (status kv.2) = false) m
                   !! id = Some inc)
        by (apply map_lookup_filter_Some; cbn; tauto).
      rewrite Hsz, lookup_empty in Hl. discriminate. }
    lia.
  - rewrite (proj2 (map_lookup_filter_None _ m id)).
    + cbn. lia.
    + right. intros x Hx. rewrite Hin in Hx. inversion Hx; subst. cbn. tauto.
Qed.

Lemma summary_lookup st p :
  default 0%N (getIncidentSummary st !! priority_name p)
  = count_open p (incidents st).
Proof.
  unfold getIncidentSummary. cbn [omap list_omap].
  destruct p; cbn [priority_name];
    repeat match goal with
           | |- context [(?n =? 0)%N] =>
               let E := fresh "E" in destruct (N.eqb_spec n 0) as [E|E]; try rewrite E
           end;
    cbn [omap list_omap mjoin mbind option_bind list_to_map foldr fst snd
         uncurry curry];
    vm_compute list_to_map; simplify_map_eq; try reflexivity; congruence.
Qed.

End IncidentCountFacts.

(** X13: the incident summary holds, for each priority, the number of its
    incidents that are neither RESOLVED nor CLOSED ([getOpenP1Count] is the
    P1 entry, 0 when absent); creating an incident under a fresh id adds one
    to the count of its priority and leaves the others, and auto-resolving an
    open incident takes one from the count of its priority. *)
Theorem open_incident_counts (st : Incident.Store) (p : Incident.IncidentPriority) :
  default 0%N (IncidentQueries.getIncidentSummary st !! Incident.priority_name p)
  = IncidentQueries.count_open p (Incident.incidents st) /\
  IncidentQueries.getOpenP1Count st
  = Z.of_N (default 0%N (IncidentQueries.getIncidentSummary st !! "P1")) /\
  (forall now id forensic body prio ttl inv dets,
      Incident.incidents st !! id = None ->
      IncidentQueries.count_open p
        (Incident.incidents
           (snd (Incident.createIncident now id forensic body prio ttl inv dets st)))
      = (IncidentQueries.count_open p (Incident.incidents st)
         + (if decide (prio = p) then 1 else 0))%N) /\
  (forall now id reason inc,
      Incident.incidents st !! id = Some inc ->
      Incident.terminal (Incident.status inc) = false ->
      (IncidentQueries.count_open p
         (Incident.incidents (Incident.autoResolve now id reason st))
       + (if decide (Incident.priority inc = p) then 1 else 0)
       = IncidentQueries.count_open p (Incident.incidents st))%N).
Proof.
  split; [apply summary_lookup|]. split; [|split].
  - unfold IncidentQueries.getOpenP1Count.
    rewrite <- (summary_lookup st Incident.P1). reflexivity.
  - intros now id forensic body prio ttl inv dets Hfresh.
    unfold Incident.createIncident, Incident.alertWebhook.
    cbn [snd Incident.incidents].
    rewrite count_open_insert_fresh by (exact Hfresh || reflexivity).
    reflexivity.
  - intros now id reason inc Hin Hopen.
    unfold Incident.autoResolve. cbn [Incident.incidents].
    rewrite (alter_is_insert _ _ _ _ Hin). rewrite Hopen.
    apply (count_open_close p _ id inc); [exact Hin|exact Hopen|reflexivity].
Qed.

(** ** Invariant executor and its hook into the incident manager *)

Section ExecutorFacts.
Import InvariantEngine.

(** Every result of an iteration bears the name of its invariant, and only
    an invariant with a safe auto-correction can be marked auto-corrected. *)
Lemma run_one_results inv p r :
  r ∈ run_one inv p ->
  name r = inv_name inv /\
  (autoCorrected r = true ->
   safeToAutoCorrect inv = true /\ has_autoCorrect inv = true /\
   violations r <> []).
Proof.
  unfold run_one. destruct (check p) as [vs|].
  - set (n := Z.of_nat (length vs)).
    assert (Hauto : forall b, (0 <? n) && safeToAutoCorrect inv
                              && has_autoCorrect inv && b = true ->
              safeToAutoCorrect inv = true /\ has_autoCorrect inv = true /\ vs <> []).
    { intros b H. apply andb_true_iff in H as [H _].
      apply andb_true_iff in H as [H H3]. apply andb_true_iff in H as [H1 H2].
      repeat split; try assumption. intros ->. cbn in H1. discriminate. }
    destruct ((0 <? n) && negb (persist_ok p && serialisable (take 100 vs)));
      intros Hin;
      repeat (apply elem_of_cons in Hin as [->|Hin]);
      try (apply elem_of_nil in Hin; contradiction);
      cbn; split; try reflexivity; try discriminate; apply Hauto.
  - intros Hin. apply list_elem_of_singleton in Hin as ->.
    cbn. split; [reflexivity|discriminate].
Qed.

Lemma run_one_length inv p : (1 <= length (run_one inv p) <= 2)%nat.
Proof.
  unfold run_one. destruct (check p) as [vs|]; [|cbn; lia].
  destruct ((0 <? Z.of_nat (length vs))
            && negb (persist_ok p && serialisable (take 100 vs))); cbn; lia.
Qed.

(** The catalogue is looked up by name, and the names are distinct. *)
Lemma find_invariant inv :
  inv ∈ INVARIANTS ->
  List.find (fun i => String.eqb (inv_name i) (inv_name inv)) INVARIANTS = Some inv.
Proof.
  unfold INVARIANTS. intros Hin.
  repeat (apply elem_of_cons in Hin as [->|Hin]; [vm_compute; reflexivity|]).
  apply elem_of_nil in Hin. contradiction.
Qed.

Lemma results_come_from_catalogue probe r :
  r ∈ results (runAll probe) ->
  exists inv, inv ∈ INVARIANTS /\ r ∈ run_one inv (probe (inv_name inv)).
Proof.
  unfold runAll. cbn [results]. intros Hin.
  apply list_elem_of_In, in_flat_map in Hin as (inv & Hinv & Hr).
  exists inv. split; apply list_elem_of_In; assumption.
Qed.

Lemma omap_all_some {A B} (g : A -> option B) (h : A -> B) (l : list A) :
  (forall x, x ∈ l -> g x = Some (h x)) -> omap g l = map h l.
Proof.
  induction l as [|x l IH]; intros H; [reflexivity|].
  cbn. rewrite (H x) by (left). rewrite IH; [reflexivity|].
  intros y Hy. apply H. right. exact Hy.
Qed.

End ExecutorFacts.

Lemma runAll_forwarding (probe : string -> InvariantEngine.Probe) :
  let c := InvariantEngine.runAll probe in
  map fst (InvariantEngine.forwarded c)
  = filter (fun r => InvariantEngine.passed r = false) (InvariantEngine.results c) /\
  Forall (fun rp => exists inv,
              inv ∈ InvariantEngine.INVARIANTS /\
              InvariantEngine.name rp.1 = InvariantEngine.inv_name inv /\
              rp.2 = InvariantEngine.inv_priority inv)
    (InvariantEngine.forwarded c) /\
  Forall (fun r => InvariantEngine.autoCorrected r = true ->
                   InvariantEngine.name r = "NO_ORPHANED_SALE_ITEMS")
    (InvariantEngine.results c) /\
  (7 <= length (InvariantEngine.results c) <= 14)%nat.
Proof.
  cbn zeta.
  set (prio_of := fun r : InvariantEngine.InvariantResult =>
         match List.find (fun i => String.eqb (InvariantEngine.inv_name i)
                                     (InvariantEngine.name r))
                 InvariantEngine.INVARIANTS with
         | Some inv => InvariantEngine.inv_priority inv
         | None => Incident.P4
         end).
  assert (Hfind : forall r, r ∈ InvariantEngine.results (InvariantEngine.runAll probe) ->
            exists inv, inv ∈ InvariantEngine.INVARIANTS /\
              InvariantEngine.name r = InvariantEngine.inv_name inv /\
              List.find (fun i => String.eqb (InvariantEngine.inv_name i)
                                    (InvariantEngine.name r))
                InvariantEngine.INVARIANTS = Some inv).
  { intros r Hr. apply results_come_from_catalogue in Hr as (inv & Hinv & Hr).
    apply run_one_results in Hr as [Hn _].
    exists inv. split; [exact Hinv|]. split; [exact Hn|].
    rewrite Hn. apply find_invariant, Hinv. }
  assert (Hfw : InvariantEngine.forwarded (InvariantEngine.runAll probe)
                = map (fun r => (r, prio_of r))
                    (filter (fun r => InvariantEngine.passed r = false)
                       (InvariantEngine.results (InvariantEngine.runAll probe)))).
  { unfold InvariantEngine.runAll at 1. cbn [InvariantEngine.forwarded].
    apply omap_all_some. intros r Hr.
    apply list_elem_of_filter in Hr as [_ Hr].
    destruct (Hfind r Hr) as (inv & _ & _ & Hf).
    unfold prio_of. rewrite Hf. reflexivity. }
  split; [|split; [|split]].
  - rewrite Hfw, map_map. cbn. apply map_id.
  - rewrite Hfw. apply Forall_forall. intros [r p] Hin.
    apply list_elem_of_In, in_map_iff in Hin as (r' & Heq & Hin).
    inversion Heq; subst. apply list_elem_of_In in Hin.
    apply list_elem_of_filter in Hin as [_ Hin].
    destruct (Hfind r Hin) as (inv & Hinv & Hn & Hf).
    exists inv. cbn. unfold prio_of. rewrite Hf. auto.
  - apply Forall_forall. intros r Hr Hauto.
    apply results_come_from_catalogue in Hr as (inv & Hinv & Hr).
    apply run_one_results in Hr as [Hn Hsafe].
    destruct (Hsafe Hauto) as (Hs & _ & _). rewrite Hn.
    unfold InvariantEngine.INVARIANTS in Hinv.
    repeat (apply elem_of_cons in Hinv as [->|Hinv];
            [first [discriminate Hs | reflexivity]|]).
    apply elem_of_nil in Hinv. contradiction.
  - unfold InvariantEngine.runAll. cbn [InvariantEngine.results].
    unfold InvariantEngine.INVARIANTS. cbn [flat_map].
    rewrite !length_app. cbn [length].
    repeat match goal with
           | |- context [length (InvariantEngine.run_one ?i ?p)] =>
               let H := fresh "H" in
               pose proof (run_one_length i p) as H;
               generalize dependent (length (InvariantEngine.run_one i p)); intros
           end.
    lia.
Qed.

Section LastLoopFacts.
Variable answers : nat -> IncidentQueries.Answers.

(** The calls made are the first entries of the list, all of them when the
    loop resolves; when it rejects, the last call made is the one that
    rejected. *)
Lemma handle_calls k failed st :
  let '(out, st', made) := Executor.handle answers k failed st in
  made `prefix_of` failed /\
  (out = Resolved tt \/ out = Rejected) /\
  (out = Resolved tt -> made = failed) /\
  (out = Rejected ->
   exists made0 r prio st0,
     made = made0 ++ [(r, prio)] /\
     fst (IncidentQueries.createOrUpdateFromInvariant
            (answers (k + length made0)) r prio st0) = Rejected /\
     st' = snd (IncidentQueries.createOrUpdateFromInvariant
                  (answers (k + length made0)) r prio st0)) /\
  (failed = [] -> st' = st).
Proof.
  revert k st. induction failed as [|[r prio] rest IH]; intros k st.
  - cbn. split; [reflexivity|]. split; [left; reflexivity|].
    split; [reflexivity|]. split; [discriminate|reflexivity].
  - cbn [Executor.handle].
    destruct (IncidentQueries.createOrUpdateFromInvariant (answers k) r prio st)
      as [[[]|] st1] eqn:Hhook.
    + specialize (IH (S k) st1).
      destruct (Executor.handle answers (S k) rest st1) as [[out st2] made].
      destruct IH as (Hpre & Hout & Hall & Hrej & _).
      split; [apply prefix_cons; exact Hpre|]. split; [exact Hout|].
      split; [intros H; rewrite (Hall H); reflexivity|].
      split; [|discriminate].
      intros H. destruct (Hrej H) as (made0 & r' & prio' & st0 & -> & Hr & Hst).
      exists ((r, prio) :: made0), r', prio', st0.
      cbn [length]. replace (k + S (length made0))%nat
        with (S k + length made0)%nat by lia.
      split; [reflexivity|]. split; assumption.
    + split; [apply prefix_cons, prefix_nil|]. split; [right; reflexivity|].
      split; [discriminate|]. split; [|discriminate].
      intros _. exists [], r, prio, st. cbn [length app].
      rewrite Nat.add_0_r, Hhook. repeat split.
Qed.

End LastLoopFacts.

(** X14: in every cycle, each invariant of the catalogue contributes one or
    two results (7 to 14 in all), and only NO_ORPHANED_SALE_ITEMS can be
    marked auto-corrected.  The failed results, each with the priority the
    catalogue gives to its name, are handed to the incident manager in
    order, up to and including the first call that rejects: [runAll]
    resolves, with the results and the score, only after all of them were
    handed over; it rejects without any call when the row of
    [drift_scores] is refused, and otherwise right after a call that
    rejected.  On a database that answers every statement, a duplicated
    invoice number whose count is a BigInt makes the cycle push the result
    and a synthetic one, hand over the first, and reject. *)
Theorem runAll_hands_failures_until_one_rejects
  (probe : string -> InvariantEngine.Probe) (drift_ok : bool)
  (answers : nat -> IncidentQueries.Answers) (st : Incident.Store) :
  let c := InvariantEngine.runAll probe in
  let run := Executor.runAll probe drift_ok answers st in
  let out := run.1.1 in
  let st' := run.1.2 in
  let made := run.2 in
  (7 <= length (InvariantEngine.results c) <= 14)%nat /\
  Forall (fun r => InvariantEngine.autoCorrected r = true ->
                   InvariantEngine.name r = "NO_ORPHANED_SALE_ITEMS")
    (InvariantEngine.results c) /\
  map fst (InvariantEngine.forwarded c)
  = filter (fun r => InvariantEngine.passed r = false)
      (InvariantEngine.results c) /\
  Forall (fun rp => exists inv,
              inv ∈ InvariantEngine.INVARIANTS /\
              InvariantEngine.name rp.1 = InvariantEngine.inv_name inv /\
              rp.2 = InvariantEngine.inv_priority inv)
    (InvariantEngine.forwarded c) /\
  made `prefix_of` InvariantEngine.forwarded c /\
  (out = Resolved (InvariantEngine.results c, InvariantEngine.score c)
   \/ out = Rejected) /\
  (out <> Rejected -> drift_ok = true /\ made = InvariantEngine.forwarded c) /\
  (drift_ok = false -> out = Rejected /\ made = [] /\ st' = st) /\
  (out = Rejected -> drift_ok = true ->
   exists made0 r prio st0,
     made = made0 ++ [(r, prio)] /\
     fst (IncidentQueries.createOrUpdateFromInvariant
            (answers (length made0)) r prio st0) = Rejected /\
     st' = snd (IncidentQueries.createOrUpdateFromInvariant
                  (answers (length made0)) r prio st0)) /\
  InvariantEngine.forwarded (InvariantEngine.runAll Executor.duplicate_probe)
  = [(Executor.duplicate_result, Incident.P1);
     (InvariantEngine.synthetic
        {| InvariantEngine.inv_name := "NO_DUPLICATE_INVOICES";
           InvariantEngine.inv_priority := Incident.P1;
           InvariantEngine.safeToAutoCorrect := false;
           InvariantEngine.has_autoCorrect := false |}, Incident.P1)] /\
  Executor.runAll Executor.duplicate_probe true Executor.all_resolve st
  = (Rejected, st, [(Executor.duplicate_result, Incident.P1)]).
Proof.
  cbn zeta.
  destruct (runAll_forwarding probe) as (Hmap & Hprio & Hauto & Hlen).
  cbn zeta in Hmap, Hprio, Hauto, Hlen.
  split; [exact Hlen|]. split; [exact Hauto|]. split; [exact Hmap|].
  split; [exact Hprio|].
  assert (Hdup : InvariantEngine.forwarded
                   (InvariantEngine.runAll Executor.duplicate_probe)
                 = [(Executor.duplicate_result, Incident.P1);
                    (InvariantEngine.synthetic
                       {| InvariantEngine.inv_name := "NO_DUPLICATE_INVOICES";
                          InvariantEngine.inv_priority := Incident.P1;
                          InvariantEngine.safeToAutoCorrect := false;
                          InvariantEngine.has_autoCorrect := false |},
                     Incident.P1)])
    by (vm_compute; reflexivity).
  unfold Executor.runAll. destruct drift_ok.
  - pose proof (handle_calls answers 0
                  (InvariantEngine.forwarded (InvariantEngine.runAll probe)) st)
      as H.
    destruct (Executor.handle answers 0
                (InvariantEngine.forwarded (InvariantEngine.runAll probe)) st)
      as [[out st'] made].
    destruct H as (Hpre & Hout & Hall & Hrej & _).
    destruct out as [[]|]; cbn [fst snd].
    + split; [exact Hpre|]. split; [left; reflexivity|].
      split; [intros _; split; [reflexivity|apply Hall; reflexivity]|].
      split; [discriminate|]. split; [discriminate|].
      split; [exact Hdup|]. rewrite Hdup. reflexivity.
    + split; [exact Hpre|]. split; [right; reflexivity|].
      split; [intros H; contradiction H; reflexivity|].
      split; [discriminate|].
      split; [intros _ _; exact (Hrej eq_refl)|].
      split; [exact Hdup|]. rewrite Hdup. reflexivity.
  - cbn [fst snd]. split; [apply prefix_nil|]. split; [right; reflexivity|].
    split; [intros H; contradiction H; reflexivity|].
    split; [intros _; repeat split|]. split; [discriminate|].
    split; [exact Hdup|]. rewrite Hdup. reflexivity.
Qed.

Section HookFacts.
Import IncidentQueries.

Lemma no_new_resolved_refl st : no_new_resolved st st.
Proof. intros id inc' H _. exact H. Qed.

Lemma no_new_resolved_trans st1 st2 st3 :
  no_new_resolved st1 st2 -> no_new_resolved st2 st3 -> no_new_resolved st1 st3.
Proof. intros H12 H23 id inc' H Hr. apply H12; [apply H23|]; assumption. Qed.

Lemma no_new_resolved_alerts st st' al :
  no_new_resolved st st' ->
  no_new_resolved st {| Incident.incidents := Incident.incidents st';
                        Incident.alerts := al |}.
Proof. intros H id inc'. cbn. apply H. Qed.

Lemma heal_no_new_resolved t id count st :
  no_new_resolved st (heal t id count st).
Proof.
  intros i inc'. unfold heal. cbn [Incident.incidents].
  destruct (decide (i = id)) as [->|Hne].
  - rewrite lookup_alter_eq.
    destruct (Incident.incidents st !! id); cbn; [|discriminate].
    intros [= <-]. cbn. discriminate.
  - rewrite lookup_alter_ne by congruence. auto.
Qed.

Lemma escalate_total_no_new_resolved t id text st :
  no_new_resolved st (Incident.escalate t id text st).
Proof.
  unfold Incident.escalate.
  destruct (Incident.incidents st !! id) as [inc|] eqn:Hin;
    [|apply no_new_resolved_refl].
  destruct (decide _); [apply no_new_resolved_refl|].
  intros i inc'. unfold Incident.alertWebhook. cbn [Incident.incidents].
  destruct (decide (i = id)) as [->|Hne].
  - rewrite lookup_alter_eq, Hin. cbn. intros [= <-]. cbn. discriminate.
  - rewrite lookup_alter_ne by congruence. auto.
Qed.

Lemma escalate_no_new_resolved a id st :
  no_new_resolved st (snd (escalate a id st)).
Proof.
  unfold escalate.
  destruct (escalate_select_ok a); cbn [negb]; [|apply no_new_resolved_refl].
  destruct (Incident.incidents st !! id) as [inc|];
    [|apply no_new_resolved_refl].
  destruct (decide _); [apply no_new_resolved_refl|].
  destruct (escalate_update_ok a); cbn [negb]; [|apply no_new_resolved_refl].
  destruct (webhook_ok a); cbn [snd].
  - apply escalate_total_no_new_resolved.
  - apply no_new_resolved_alerts, escalate_total_no_new_resolved.
Qed.

Lemma incrementHealAttempts_no_new_resolved a id count st :
  no_new_resolved st (snd (incrementHealAttempts a id count st)).
Proof.
  unfold incrementHealAttempts.
  destruct (update_ok a); cbn [negb]; [|apply no_new_resolved_refl].
  destruct (reselect_ok a); cbn [negb]; [|apply heal_no_new_resolved].
  destruct (Incident.incidents (heal (now a) id count st) !! id) as [u|];
    [|apply heal_no_new_resolved].
  destruct (_ || _); [|apply heal_no_new_resolved].
  eapply no_new_resolved_trans;
    [apply heal_no_new_resolved|apply escalate_no_new_resolved].
Qed.

Lemma createIncident_total_no_new_resolved t id fo bo prio ttl inv d st :
  no_new_resolved st
    (snd (Incident.createIncident t id fo bo prio ttl inv d st)).
Proof.
  intros i inc'. unfold Incident.createIncident, Incident.alertWebhook.
  cbn [snd Incident.incidents].
  destruct (decide (i = id)) as [->|Hne].
  - rewrite lookup_insert_eq. intros [= <-]. cbn. discriminate.
  - rewrite lookup_insert_ne by congruence. auto.
Qed.

Lemma createIncident_no_new_resolved a prio ttl inv dets st :
  no_new_resolved st (snd (createIncident a prio ttl inv dets st)).
Proof.
  unfold createIncident. destruct dets as [d|]; [|apply no_new_resolved_refl].
  destruct (insert_ok a); cbn [negb]; [|apply no_new_resolved_refl].
  destruct (webhook_ok a); cbn [snd].
  - apply createIncident_total_no_new_resolved.
  - apply no_new_resolved_alerts, createIncident_total_no_new_resolved.
Qed.

(** When every statement is answered, the calls are the ones of a database
    that cannot refuse. *)
Lemma escalate_answered a id st :
  escalate_select_ok a = true -> escalate_update_ok a = true ->
  webhook_ok a = true ->
  escalate a id st = (Resolved tt, Incident.escalate (now a) id (reason a) st).
Proof.
  intros Hs He Hw. unfold escalate, Incident.escalate.
  rewrite Hs. cbn [negb].
  destruct (Incident.incidents st !! id); [|reflexivity].
  destruct (decide _); [reflexivity|]. rewrite He, Hw. reflexivity.
Qed.

Lemma incrementHealAttempts_answered a id count st :
  update_ok a = true -> reselect_ok a = true ->
  escalate_select_ok a = true -> escalate_update_ok a = true ->
  webhook_ok a = true ->
  incrementHealAttempts a id count st
  = (Resolved tt,
     Incident.incrementHealAttempts (now a) id count (reason a) st).
Proof.
  intros Hu Hr Hs He Hw.
  unfold incrementHealAttempts, Incident.incrementHealAttempts.
  rewrite Hu, Hr. cbn [negb].
  change (heal (now a) id count st) with
    {| Incident.incidents :=
         Incident.incidents (heal (now a) id count st);
       Incident.alerts := Incident.alerts st |}.
  unfold heal. cbn [Incident.incidents].
  match goal with
  | |- context [{| Incident.incidents := ?m; Incident.alerts := _ |}] =>
      destruct (m !! id); [|reflexivity]
  end.
  destruct (_ || _); [|reflexivity].
  apply escalate_answered; assumption.
Qed.

End HookFacts.

(** X15: the hook called on a result the engine forwards never runs the
    auto-resolve branch, whatever the database answers: when its [SELECT]
    rejects it rejects and writes nothing; when an incident is selected it
    increments the heal attempts of that incident; without one it creates
    an incident, and rejects before any write when one of the first fifty
    violations holds a BigInt.  However the call settles, no incident that
    was not RESOLVED before is RESOLVED after.  When every statement and
    the webhook are answered and the details can be serialised, the call
    resolves and leaves what [incrementHealAttempts] and [createIncident]
    leave on a database that cannot refuse. *)
Theorem engine_never_auto_resolves
  (probe : string -> InvariantEngine.Probe)
  (r : InvariantEngine.InvariantResult) (prio : Incident.IncidentPriority)
  (a : IncidentQueries.Answers) (st : Incident.Store) :
  (r, prio) ∈ InvariantEngine.forwarded (InvariantEngine.runAll probe) ->
  let res := IncidentQueries.createOrUpdateFromInvariant a r prio st in
  let count := Z.of_nat (length (InvariantEngine.violations r)) in
  let ttl := "Invariant violation: " +:+ InvariantEngine.name r in
  let answered :=
    IncidentQueries.update_ok a = true /\
    IncidentQueries.reselect_ok a = true /\
    IncidentQueries.escalate_select_ok a = true /\
    IncidentQueries.escalate_update_ok a = true /\
    IncidentQueries.insert_ok a = true /\
    IncidentQueries.webhook_ok a = true in
  (forall id inc',
      Incident.incidents res.2 !! id = Some inc' ->
      Incident.status inc' = Incident.RESOLVED ->
      Incident.incidents st !! id = Some inc') /\
  (IncidentQueries.existing a = Rejected -> res = (Rejected, st)) /\
  (forall id, IncidentQueries.existing a = Resolved (Some id) ->
     res = IncidentQueries.incrementHealAttempts a id count st) /\
  (IncidentQueries.existing a = Resolved None ->
   res.2 = (IncidentQueries.createIncident a prio ttl
              (Some (InvariantEngine.name r))
              (IncidentQueries.details_of r) st).2 /\
   (res.1 = Rejected <->
    (IncidentQueries.createIncident a prio ttl
       (Some (InvariantEngine.name r))
       (IncidentQueries.details_of r) st).1 = Rejected)) /\
  (IncidentQueries.existing a = Resolved None ->
   InvariantEngine.serialisable (take 50 (InvariantEngine.violations r))
   = false ->
   res = (Rejected, st)) /\
  (answered -> forall id,
     IncidentQueries.existing a = Resolved (Some id) ->
     res = (Resolved tt,
            Incident.incrementHealAttempts (IncidentQueries.now a) id count
              (IncidentQueries.reason a) st)) /\
  (answered -> IncidentQueries.existing a = Resolved None ->
   InvariantEngine.serialisable (take 50 (InvariantEngine.violations r))
   = true ->
   exists vs,
     mapM InvariantEngine.violation_json
       (take 50 (InvariantEngine.violations r)) = Some vs /\
     res = (Resolved tt,
            (Incident.createIncident (IncidentQueries.now a)
               (IncidentQueries.newId a) (IncidentQueries.forensic a)
               (IncidentQueries.body a) prio ttl
               (Some (InvariantEngine.name r))
               [("violations", JArr vs); ("violationCount", JNum count)]
               st).2)).
Proof.
  intros Hfw. cbn zeta.
  assert (Hfail : InvariantEngine.passed r = false).
  { destruct (runAll_forwarding probe) as (Hmap & _).
    assert (Hr : r ∈ map fst (InvariantEngine.forwarded
                                (InvariantEngine.runAll probe))).
    { apply list_elem_of_In, in_map_iff. exists (r, prio).
      split; [reflexivity|]. apply list_elem_of_In. exact Hfw. }
    rewrite Hmap in Hr. apply list_elem_of_filter in Hr as [Hp _]. exact Hp. }
  assert (Hser : forall vs : list InvariantEngine.ViolationRecord,
            InvariantEngine.serialisable vs = true <->
            is_Some (mapM InvariantEngine.violation_json vs)).
  { intros vs. rewrite mapM_is_Some. unfold InvariantEngine.serialisable.
    induction vs as [|v vs IH]; cbn [forallb].
    - split; [constructor|reflexivity].
    - rewrite Forall_cons, <- IH, andb_true_iff.
      assert (Hv : (is_Some ∘ InvariantEngine.violation_json) v <->
                   match InvariantEngine.detail_json v with
                   | Some _ => true
                   | None => false
                   end = true).
      { unfold compose, InvariantEngine.violation_json.
        destruct (InvariantEngine.detail_json v);
          split; try reflexivity; try discriminate;
          [intros _; eexists; reflexivity|intros [x Hx]; discriminate]. }
      rewrite Hv. reflexivity. }
  unfold IncidentQueries.createOrUpdateFromInvariant. rewrite Hfail.
  cbn [andb negb].
  split; [|split; [|split; [|split; [|split; [|split]]]]].
  - destruct (IncidentQueries.existing a) as [[id|]|]; cbn [snd].
    + apply incrementHealAttempts_no_new_resolved.
    + pose proof (createIncident_no_new_resolved a prio
                    ("Invariant violation: " +:+ InvariantEngine.name r)
                    (Some (InvariantEngine.name r))
                    (IncidentQueries.details_of r) st) as H.
      destruct (IncidentQueries.createIncident _ _ _ _ _ _) as [[x|] st'];
        exact H.
    + intros id inc' H _. exact H.
  - intros ->. reflexivity.
  - intros id ->. reflexivity.
  - intros ->.
    destruct (IncidentQueries.createIncident _ _ _ _ _ _) as [[x|] st'];
      cbn [fst snd]; split; try reflexivity; split; congruence.
  - intros -> Hno. unfold IncidentQueries.details_of.
    destruct (mapM InvariantEngine.violation_json
                (take 50 (InvariantEngine.violations r))) as [vs|] eqn:Hm.
    + assert (H : InvariantEngine.serialisable
                    (take 50 (InvariantEngine.violations r)) = true)
        by (apply Hser; rewrite Hm; eexists; reflexivity).
      congruence.
    + reflexivity.
  - intros (Hu & Hr & Hs & He & _ & Hw) id ->.
    apply incrementHealAttempts_answered; assumption.
  - intros (_ & _ & _ & _ & Hi & Hw) -> Hyes.
    apply Hser in Hyes as [vs Hm]. exists vs. split; [exact Hm|].
    unfold IncidentQueries.details_of, IncidentQueries.createIncident.
    rewrite Hm. cbn. rewrite Hi, Hw. reflexivity.
Qed.

Lemma engine_never_auto_resolves_witness :
  (Executor.duplicate_result, Incident.P1)
    ∈ InvariantEngine.forwarded
        (InvariantEngine.runAll Executor.duplicate_probe) /\
  IncidentQueries.createOrUpdateFromInvariant (Executor.all_resolve 0)
    Executor.duplicate_result Incident.P1
    {| Incident.incidents := ∅; Incident.alerts := [] |}
  = (Rejected, {| Incident.incidents := ∅; Incident.alerts := [] |}).
Proof.
  assert (Hin : (Executor.duplicate_result, Incident.P1)
                ∈ InvariantEngine.forwarded
                    (InvariantEngine.runAll Executor.duplicate_probe)).
  { apply list_elem_of_In. vm_compute. left. reflexivity. }
  split; [exact Hin|].
  exact (proj1 (proj2 (proj2 (proj2 (proj2
           (engine_never_auto_resolves Executor.duplicate_probe
              Executor.duplicate_result Incident.P1 (Executor.all_resolve 0)
              {| Incident.incidents := ∅; Incident.alerts := [] |} Hin)))))
           eq_refl eq_refl).
Defined.

(** ** Brute-force detector *)

Section BruteForceFacts.
Import BruteForce.

Lemma recordFailure_keeps_invariant key now es :
  (forall k e, es !! k = Some e ->
     (locked e = false -> Z.of_nat (length (failures e)) < MAX_FAILS) /\
     (locked e = true -> Z.of_nat (length (failures e)) = MAX_FAILS) /\
     (1 <= length (failures e))%nat) ->
  forall k e, fst (recordFailure key now es) !! k = Some e ->
     (locked e = false -> Z.of_nat (length (failures e)) < MAX_FAILS) /\
     (locked e = true -> Z.of_nat (length (failures e)) = MAX_FAILS) /\
     (1 <= length (failures e))%nat.
Proof.
  intros Hinv k e. unfold recordFailure.
  set (e0 := default fresh (es !! key)).
  assert (H0 : locked e0 = false -> Z.of_nat (length (failures e0)) < MAX_FAILS).
  { unfold e0. destruct (es !! key) as [x|] eqn:E; cbn.
    - apply (Hinv key x E).
    - intros _. unfold MAX_FAILS. lia. }
  destruct (locked e0 && (now <? lockUntil e0)) eqn:Hb; [apply Hinv|].
  cbn [fst]. intros Hk.
  destruct (decide (k = key)) as [->|Hne];
    [rewrite lookup_insert_eq in Hk
    | rewrite lookup_insert_ne in Hk by congruence; apply (Hinv k e Hk)].
  set (e1 := if locked e0 then fresh else e0) in *.
  assert (H1 : locked e1 = false /\ Z.of_nat (length (failures e1)) < MAX_FAILS).
  { unfold e1. destruct (locked e0) eqn:Hl.
    - cbn. unfold MAX_FAILS. split; [reflexivity|lia].
    - split; [exact Hl|]. apply H0. reflexivity. }
  destruct H1 as [Hl1 Hlen1].
  pose proof (length_filter (fun t => now - t < WINDOW_MS) (failures e1)) as Hf.
  set (fs := filter (fun t => now - t < WINDOW_MS) (failures e1) ++ [now]) in *.
  assert (Hfs : (1 <= length fs)%nat /\ Z.of_nat (length fs) <= MAX_FAILS).
  { unfold fs. rewrite length_app. cbn. unfold MAX_FAILS in *. lia. }
  destruct (Z.leb_spec MAX_FAILS (Z.of_nat (length fs))); inversion Hk; subst e;
    cbn; repeat split; intros; try discriminate; try lia; congruence.
Qed.

End BruteForceFacts.

(** X16: whatever failures and successes are recorded, an entry of the
    detector holds at least 1 and at most 10 failure times: fewer than 10
    while it is unlocked, exactly 10 once it is locked. *)
Theorem brute_force_entries_bounded
  (ops : list BruteForce.Op) (key : string) (e : BruteForce.BruteForceEntry) :
  BruteForce.replay ops !! key = Some e ->
  (1 <= length (BruteForce.failures e) <= 10)%nat /\
  (BruteForce.locked e = false -> (length (BruteForce.failures e) < 10)%nat) /\
  (BruteForce.locked e = true -> length (BruteForce.failures e) = 10%nat).
Proof.
  unfold BruteForce.replay.
  assert (Hgen : forall es,
    (forall k x, es !! k = Some x ->
       (BruteForce.locked x = false ->
        Z.of_nat (length (BruteForce.failures x)) < BruteForce.MAX_FAILS) /\
       (BruteForce.locked x = true ->
        Z.of_nat (length (BruteForce.failures x)) = BruteForce.MAX_FAILS) /\
       (1 <= length (BruteForce.failures x))%nat) ->
    forall k x, fold_left (fun es op => BruteForce.apply op es) ops es !! k = Some x ->
       (BruteForce.locked x = false ->
        Z.of_nat (length (BruteForce.failures x)) < BruteForce.MAX_FAILS) /\
       (BruteForce.locked x = true ->
        Z.of_nat (length (BruteForce.failures x)) = BruteForce.MAX_FAILS) /\
       (1 <= length (BruteForce.failures x))%nat).
  { induction ops as [|op ops' IH]; intros es Hinv; cbn [fold_left]; [exact Hinv|].
    apply IH. destruct op as [k0 now|k0]; cbn [BruteForce.apply].
    - apply recordFailure_keeps_invariant. exact Hinv.
    - intros k x Hk. unfold BruteForce.recordSuccess in Hk.
      apply lookup_delete_Some in Hk as [_ Hk]. apply (Hinv k x Hk). }
  intros Hk.
  assert (Hemp : forall k x, (∅ : gmap string BruteForce.BruteForceEntry) !! k = Some x ->
       (BruteForce.locked x = false ->
        Z.of_nat (length (BruteForce.failures x)) < BruteForce.MAX_FAILS) /\
       (BruteForce.locked x = true ->
        Z.of_nat (length (BruteForce.failures x)) = BruteForce.MAX_FAILS) /\
       (1 <= length (BruteForce.failures x))%nat).
  { intros k x H. rewrite lookup_empty in H. discriminate. }
  destruct (Hgen ∅ Hemp key e Hk) as (Hu & Hl & H1).
  unfold BruteForce.MAX_FAILS in *.
  destruct (BruteForce.locked e); repeat split; intros; try discriminate;
    try (specialize (Hu eq_refl)); try (specialize (Hl eq_refl)); lia.
Qed.

Lemma brute_force_entries_bounded_witness :
  let ops := [BruteForce.Failure "u@x" 0; BruteForce.Failure "u@x" 10;
              BruteForce.Success "v@x"] in
  let e := {| BruteForce.failures := [0; 10]; BruteForce.locked := false;
              BruteForce.lockUntil := 0 |} in
  BruteForce.replay ops !! "u@x" = Some e /\
  (1 <= length (BruteForce.failures e) <= 10)%nat.
Proof.
  cbn zeta.
  assert (H : BruteForce.replay
                [BruteForce.Failure "u@x" 0; BruteForce.Failure "u@x" 10;
                 BruteForce.Success "v@x"] !! "u@x"
              = Some {| BruteForce.failures := [0; 10]; BruteForce.locked := false;
                        BruteForce.lockUntil := 0 |}) by (vm_compute; reflexivity).
  split; [exact H|].
  exact (proj1 (brute_force_entries_bounded _ _ _ H)).
Defined.

Section BruteForceLock.
Import BruteForce.

Lemma filter_all_kept {A} (P : A -> Prop) `{!forall x, Decision (P x)} (l : list A) :
  Forall P l -> filter P l = l.
Proof.
  induction 1 as [|x l Hx _ IH]; [reflexivity|].
  rewrite filter_cons_True by exact Hx. now rewrite IH.
Qed.

Lemma filter_none_kept {A} (P : A -> Prop) `{!forall x, Decision (P x)} (l : list A) :
  Forall (fun x => ~ P x) l -> filter P l = [].
Proof.
  induction 1 as [|x l Hx _ IH]; [reflexivity|].
  rewrite filter_cons_False by exact Hx. exact IH.
Qed.

End BruteForceLock.

(** X17: the tenth failure inside fifteen minutes locks the key for thirty
    minutes.  While the lock lasts further failures are rejected without
    being recorded; the first failure after it counts as number one. *)
Theorem tenth_failure_locks
  (key : string) (now : Z) (es : gmap string BruteForce.BruteForceEntry)
  (e : BruteForce.BruteForceEntry) :
  es !! key = Some e ->
  BruteForce.locked e = false ->
  length (BruteForce.failures e) = 9%nat ->
  Forall (fun t => now - t < BruteForce.WINDOW_MS) (BruteForce.failures e) ->
  let es' := fst (BruteForce.recordFailure key now es) in
  snd (BruteForce.recordFailure key now es) = (true, 10%nat) /\
  (forall t, BruteForce.isLocked key t es' = (t <? now + BruteForce.LOCK_MS)) /\
  (forall t, t < now + BruteForce.LOCK_MS ->
     BruteForce.recordFailure key t es' = (es', (true, 10%nat))) /\
  (forall t, now + BruteForce.LOCK_MS <= t ->
     snd (BruteForce.recordFailure key t es') = (false, 1%nat)).
Proof.
  intros Hes Hl Hlen Hall.
  assert (Hrec : BruteForce.recordFailure key now es =
    (<[key := {| BruteForce.failures := BruteForce.failures e ++ [now];
                 BruteForce.locked := true;
                 BruteForce.lockUntil := now + BruteForce.LOCK_MS |}]> es,
     (true, 10%nat))).
  { unfold BruteForce.recordFailure. rewrite Hes.
    change (default BruteForce.fresh (Some e)) with e.
    rewrite Hl. cbn [andb].
    rewrite (filter_all_kept _ _ Hall).
    rewrite length_app, Hlen.
    change (BruteForce.MAX_FAILS <=? Z.of_nat (9 + length [now])) with true.
    cbn [BruteForce.locked BruteForce.failures].
    rewrite length_app, Hlen. reflexivity. }
  rewrite Hrec. cbn [fst snd]. cbn zeta.
  split; [reflexivity|]. split; [|split].
  - intros t. unfold BruteForce.isLocked. rewrite lookup_insert_eq. reflexivity.
  - intros t Ht. unfold BruteForce.recordFailure. rewrite lookup_insert_eq.
    cbn. destruct (Z.ltb_spec t (now + BruteForce.LOCK_MS)); [|lia].
    rewrite ?length_app, ?Hlen. reflexivity.
  - intros t Ht. unfold BruteForce.recordFailure. rewrite lookup_insert_eq.
    cbn. destruct (Z.ltb_spec t (now + BruteForce.LOCK_MS)); [lia|].
    reflexivity.
Qed.

Lemma tenth_failure_locks_witness :
  let e := {| BruteForce.failures := [1; 2; 3; 4; 5; 6; 7; 8; 9];
              BruteForce.locked := false; BruteForce.lockUntil := 0 |} in
  let es : gmap string BruteForce.BruteForceEntry := {[ "u@x" := e ]} in
  snd (BruteForce.recordFailure "u@x" 10 es) = (true, 10%nat).
Proof.
  cbn zeta.
  refine (proj1 (tenth_failure_locks "u@x" 10 _ _ _ _ _ _)).
  - apply lookup_singleton_eq.
  - reflexivity.
  - reflexivity.
  - repeat constructor; unfold BruteForce.WINDOW_MS; lia.
Defined.

(** X18: a recorded success forgets the key altogether, an active lock
    included: the key is no longer locked and its next failure is counted as
    the first one; other keys keep their entries. *)
Theorem recordSuccess_lifts_any_lock
  (key : string) (t : Z) (es : gmap string BruteForce.BruteForceEntry) :
  let es' := BruteForce.recordSuccess key es in
  BruteForce.isLocked key t es' = false /\
  snd (BruteForce.recordFailure key t es') = (false, 1%nat) /\
  (forall k, k <> key -> forall t', BruteForce.isLocked k t' es' = BruteForce.isLocked k t' es).
Proof.
  cbn zeta. unfold BruteForce.recordSuccess, BruteForce.isLocked, BruteForce.recordFailure.
  rewrite lookup_delete_eq. cbn. repeat split.
  intros k Hk t'. rewrite lookup_delete_ne by congruence. reflexivity.
Qed.

(** ** Rate limiter: queries and clean-up *)

Section RateLimiterFacts.
Import Security.

Lemma cleanup_lookup_blocked now ws key w :
  ws !! key = Some w -> blocked w = true -> cleanup now ws !! key = Some w.
Proof.
  intros Hw Hb. unfold cleanup. apply map_lookup_filter_Some. split; [exact Hw|].
  cbn. unfold stale. rewrite Hb. reflexivity.
Qed.

Lemma cleanup_lookup now ws key :
  cleanup now ws !! key = None \/ cleanup now ws !! key = ws !! key.
Proof.
  destruct (cleanup now ws !! key) as [w|] eqn:E; [right|left; reflexivity].
  unfold cleanup in E. apply map_lookup_filter_Some in E as [E _]. now rewrite E.
Qed.

Lemma cleanup_removed now ws key w :
  ws !! key = Some w -> cleanup now ws !! key = None -> stale now w = true.
Proof.
  intros Hw Hn. unfold cleanup in Hn.
  destruct (stale now w) eqn:Hs; [reflexivity|].
  assert (H : filter (fun kw : string * RateWindow => stale now kw.2 = false) ws !! key = Some w).
  { apply map_lookup_filter_Some. split; [exact Hw|exact Hs]. }
  rewrite H in Hn. discriminate.
Qed.

End RateLimiterFacts.

(** X19: right after [record] the query [isBlocked] gives the verdict
    [record] returned, and [cleanup] never lifts a block: a key is blocked
    after it exactly when it was blocked before. *)
Theorem isBlocked_agrees_with_record_and_survives_cleanup
  (key : string) (limit now t : Z) (ws : gmap string Security.RateWindow) :
  Security.isBlocked key now (fst (Security.record key limit now ws))
    = fst (snd (Security.record key limit now ws)) /\
  Security.isBlocked key t (Security.cleanup now ws) = Security.isBlocked key t ws.
Proof.
  split.
  - unfold Security.record, Security.isBlocked.
    destruct (ws !! key) as [w|] eqn:Hw;
      [change (default Security.fresh (Some w)) with w
      |change (default Security.fresh None) with Security.fresh];
      [destruct (Security.blocked w) eqn:Hb|];
      cbn [andb Security.fresh Security.blocked Security.blockUntil
           Security.timestamps];
      repeat match goal with
        | |- context [Z.ltb ?a ?b] => destruct (Z.ltb_spec a b)
        | |- context [Z.leb ?a ?b] => destruct (Z.leb_spec a b)
        end;
      cbn [fst snd]; rewrite ?lookup_insert_eq, ?Hw, ?Hb;
      cbn [andb Security.fresh Security.blocked Security.blockUntil
           Security.timestamps];
      rewrite ?Hb; cbn [andb];
      repeat match goal with
        | |- context [Z.ltb ?a ?b] => destruct (Z.ltb_spec a b)
        end; try reflexivity; try lia.
  - unfold Security.isBlocked.
    destruct (ws !! key) as [w|] eqn:Hw.
    + destruct (Security.blocked w) eqn:Hb.
      * rewrite (cleanup_lookup_blocked now ws key w Hw Hb), Hb. reflexivity.
      * destruct (cleanup_lookup now ws key) as [E|E]; rewrite E;
          [reflexivity|]. rewrite Hw, Hb. reflexivity.
    + destruct (cleanup_lookup now ws key) as [E|E]; rewrite E;
        [reflexivity|]. rewrite Hw. reflexivity.
Qed.

(** X20: [cleanup] is invisible to later calls.  When the newest time of a
    window is its largest, a [record] made no earlier than the clean-up
    returns the same verdict and count, and leaves the same times in the
    window, as it would without the clean-up. *)
Theorem cleanup_is_invisible_to_record
  (key : string) (limit now t : Z) (ws : gmap string Security.RateWindow) :
  now <= t ->
  (forall w l, ws !! key = Some w -> last (Security.timestamps w) = Some l ->
     Forall (fun x => x <= l) (Security.timestamps w)) ->
  snd (Security.record key limit t (Security.cleanup now ws))
    = snd (Security.record key limit t ws) /\
  Security.timestamps <$> fst (Security.record key limit t (Security.cleanup now ws)) !! key
    = Security.timestamps <$> fst (Security.record key limit t ws) !! key.
Proof.
  intros Hnow Hmax.
  destruct (cleanup_lookup now ws key) as [E|E].
  2:{ unfold Security.record. rewrite E.
      destruct (Security.blocked (default Security.fresh (ws !! key))
                && (t <? Security.blockUntil (default Security.fresh (ws !! key))));
        cbn [fst snd]; [now rewrite E|].
      rewrite !lookup_insert_eq. split; reflexivity. }
  destruct (ws !! key) as [w|] eqn:Hw.
  2:{ unfold Security.record. rewrite E, Hw.
      destruct (Security.blocked (default Security.fresh None)
                && (t <? Security.blockUntil (default Security.fresh None)));
        cbn [fst snd]; [now rewrite E, Hw|].
      rewrite !lookup_insert_eq. split; reflexivity. }
  pose proof (cleanup_removed now ws key w Hw E) as Hs.
  unfold Security.stale in Hs. apply andb_true_iff in Hs as [Hb Hl].
  apply negb_true_iff in Hb.
  assert (Hf : filter (fun x => t - x < Security.WINDOW_MS) (Security.timestamps w) = []).
  { destruct (last (Security.timestamps w)) as [l|] eqn:El.
    - apply filter_none_kept. apply Z.ltb_lt in Hl.
      eapply Forall_impl; [apply (Hmax w l eq_refl El)|].
      cbn. unfold Security.WINDOW_MS in *. intros x Hx. lia.
    - apply last_None in El. rewrite El. reflexivity. }
  unfold Security.record. rewrite E, Hw.
  change (default Security.fresh (Some w)) with w.
  change (default Security.fresh None) with Security.fresh.
  rewrite Hb. cbn [andb Security.fresh Security.blocked Security.blockUntil
                   Security.timestamps].
  rewrite Hf. change (filter _ [] ++ [t]) with [t].
  cbn [length fst snd]. rewrite !lookup_insert_eq.
  change ([] ++ [t]) with [t]. change (Z.of_nat (length [t])) with 1.
  change (Z.of_nat 1) with 1.
  destruct (limit <? 1); cbn; rewrite ?Hb; split; reflexivity.
Qed.

Lemma cleanup_is_invisible_to_record_witness :
  let ws : gmap string Security.RateWindow :=
    {[ "ip:1.2.3.4" := {| Security.timestamps := [0; 5];
                          Security.blocked := false;
                          Security.blockUntil := 0 |} ]} in
  snd (Security.record "ip:1.2.3.4" 100 200000 (Security.cleanup 150000 ws))
    = snd (Security.record "ip:1.2.3.4" 100 200000 ws).
Proof.
  cbn zeta.
  refine (proj1 (cleanup_is_invisible_to_record "ip:1.2.3.4" 100 150000 200000 _ _ _)).
  - lia.
  - intros w l Hw Hl. rewrite lookup_singleton_eq in Hw.
    injection Hw as <-. cbn in Hl. injection Hl as <-.
    repeat constructor; lia.
Defined.

(** ** Persistent blocks and the request middleware *)

Section BlockFacts.
Import Blocks.

Lemma isBlocked_blockTarget now target ty why minutes blocks t :
  isBlocked t target (blockTarget now target ty why minutes blocks)
    = (t <? now + minutes * 60000).
Proof.
  unfold blockTarget, isBlocked.
  destruct (blocks !! target); rewrite lookup_insert_eq; cbn; apply andb_true_r.
Qed.

Lemma middleware_pass_address now req windows blocks a :
  snd (securityMiddleware now req windows blocks) = Pass ->
  truthy (ip req) = Some a -> isBlocked now a blocks = false.
Proof.
  unfold securityMiddleware.
  destruct (Security.record (rate_key req) 100 now windows) as [ws' [rb n]].
  destruct rb; [discriminate|].
  intros H Ha. rewrite Ha in H.
  destruct (isBlocked now a blocks); [discriminate|reflexivity].
Qed.

End BlockFacts.

(** X21: after [blockTarget] the target is blocked exactly until the new
    expiry time, whatever its row said before (an earlier, lifted or longer
    block included); the first block time of an existing row is kept, and no
    other target is affected. *)
Theorem blockTarget_then_isBlocked
  (now : Z) (target ty why : string) (minutes : Z)
  (blocks : gmap string Blocks.SecurityBlock) :
  let blocks' := Blocks.blockTarget now target ty why minutes blocks in
  (forall t, Blocks.isBlocked t target blocks' = (t <? now + minutes * 60000)) /\
  (forall row, blocks !! target = Some row ->
     Blocks.blocked_at <$> blocks' !! target = Some (Blocks.blocked_at row)) /\
  (forall other t, other <> target ->
     Blocks.isBlocked t other blocks' = Blocks.isBlocked t other blocks).
Proof.
  cbn zeta. unfold Blocks.blockTarget, Blocks.isBlocked.
  destruct (blocks !! target) as [row|] eqn:Hrow; repeat split.
  - intros t. rewrite lookup_insert_eq. cbn. apply andb_true_r.
  - intros row' [= <-]. rewrite lookup_insert_eq. reflexivity.
  - intros other t Hne. rewrite lookup_insert_ne by congruence. reflexivity.
  - intros t. rewrite lookup_insert_eq. cbn. apply andb_true_r.
  - intros row' [=].
  - intros other t Hne. rewrite lookup_insert_ne by congruence. reflexivity.
Qed.


(** X23: a block put on a non-empty address keeps every request of that
    address from passing until it expires. *)
Theorem blocked_address_is_denied
  (now t : Z) (a ty why : string) (minutes : Z) (req : Blocks.Request)
  (windows : gmap string Security.RateWindow)
  (blocks : gmap string Blocks.SecurityBlock) :
  Blocks.ip req = Some a -> a <> "" ->
  t < now + minutes * 60000 ->
  snd (Blocks.securityMiddleware t req windows
         (Blocks.blockTarget now a ty why minutes blocks)) <> Blocks.Pass.
Proof.
  intros Hip Ha Ht Hpass.
  assert (Hty : Blocks.truthy (Blocks.ip req) = Some a).
  { unfold Blocks.truthy. rewrite Hip. destruct (String.eqb_spec a ""); [contradiction|reflexivity]. }
  pose proof (middleware_pass_address _ _ _ _ a Hpass Hty) as H1.
  rewrite isBlocked_blockTarget in H1.
  apply Z.ltb_ge in H1. lia.
Qed.

Lemma blocked_address_is_denied_witness :
  let req := {| Blocks.ip := Some "10.0.0.7"; Blocks.userId := None |} in
  snd (Blocks.securityMiddleware 500 req ∅
         (Blocks.blockTarget 0 "10.0.0.7" "ip" "scanner" 60 ∅)) <> Blocks.Pass.
Proof.
  cbn zeta.
  apply (blocked_address_is_denied 0 500 "10.0.0.7" "ip" "scanner" 60).
  - reflexivity.
  - discriminate.
  - lia.
Defined.

(** ** Metric thresholds *)

Section MetricsFacts.
Import Metrics.

Lemma checkThresholds_skip (ths : list Threshold) name v now acc :
  Forall (fun t => metric t <> name) ths ->
  fold_left
    (fun (acc : Registry * list Breach) t =>
       if negb (String.eqb (metric t) name) then acc
       else if breached t v then
         let last := default 0 (lastAlert acc.1 !! metric t) in
         if cooldownMs t <? now - last then
           ({| gauges := gauges acc.1;
               lastAlert := <[metric t := now]> (lastAlert acc.1) |},
            acc.2 ++ [{| breached_threshold := t; actualValue := v |}])
         else acc
       else acc)
    ths acc = acc.
Proof.
  induction 1 as [|t ths Ht _ IH]; cbn [fold_left]; [reflexivity|].
  destruct (String.eqb_spec (metric t) name); [contradiction|]. exact IH.
Qed.

Lemma checkThresholds_fold (ths : list Threshold) name v now reg out :
  NoDup (metric <$> ths) ->
  fold_left
    (fun (acc : Registry * list Breach) t =>
       if negb (String.eqb (metric t) name) then acc
       else if breached t v then
         let last := default 0 (lastAlert acc.1 !! metric t) in
         if cooldownMs t <? now - last then
           ({| gauges := gauges acc.1;
               lastAlert := <[metric t := now]> (lastAlert acc.1) |},
            acc.2 ++ [{| breached_threshold := t; actualValue := v |}])
         else acc
       else acc)
    ths (reg, out)
  = match List.find (fun t => String.eqb (metric t) name) ths with
    | Some t =>
        if breached t v && (cooldownMs t <? now - default 0 (lastAlert reg !! name))
        then ({| gauges := gauges reg;
                 lastAlert := <[name := now]> (lastAlert reg) |},
              out ++ [{| breached_threshold := t; actualValue := v |}])
        else (reg, out)
    | None => (reg, out)
    end.
Proof.
  induction ths as [|t ths IH]; intros Hnd; [reflexivity|].
  rewrite fmap_cons in Hnd. apply NoDup_cons in Hnd as [Hnotin Hnd].
  cbn [fold_left List.find].
  destruct (String.eqb_spec (metric t) name) as [Heq|Hne]; cbn [negb].
  - rewrite checkThresholds_skip.
    + rewrite Heq. cbn [fst snd].
      destruct (breached t v); cbn [andb]; [|reflexivity].
      destruct (cooldownMs t <? now - default 0 (lastAlert reg !! name));
        reflexivity.
    + apply Forall_forall. intros t' Ht' Hmt. apply Hnotin.
      rewrite Heq, <- Hmt. apply list_elem_of_fmap. eauto.
  - apply IH. exact Hnd.
Qed.

Lemma THRESHOLDS_NoDup : NoDup (metric <$> THRESHOLDS).
Proof. apply (bool_decide_unpack (NoDup (metric <$> THRESHOLDS))). vm_compute. exact I. Qed.

Lemma gauge_unfold name v now reg :
  gauge name v now reg
  = match List.find (fun t => String.eqb (metric t) name) THRESHOLDS with
    | Some t =>
        if breached t v && (cooldownMs t <? now - default 0 (lastAlert reg !! name))
        then ({| gauges := <[name := v]> (gauges reg);
                 lastAlert := <[name := now]> (lastAlert reg) |},
              [{| breached_threshold := t; actualValue := v |}])
        else ({| gauges := <[name := v]> (gauges reg);
                 lastAlert := lastAlert reg |}, [])
    | None => ({| gauges := <[name := v]> (gauges reg);
                  lastAlert := lastAlert reg |}, [])
    end.
Proof.
  unfold gauge, checkThresholds.
  rewrite (checkThresholds_fold THRESHOLDS name v now _ [] THRESHOLDS_NoDup).
  reflexivity.
Qed.

End MetricsFacts.

(** X24: one write of a gauge raises at most one threshold breach; a breach
    is for the written metric, carries the written value, which violates
    the threshold, and stamps the metric's last alert with the clock.  For
    the length of the cool-down after it, further writes of that metric
    raise nothing, whatever the value. *)
Theorem gauge_breaches_once_per_cooldown
  (name : string) (v : Q) (now : Z) (reg : Metrics.Registry) :
  let out := Metrics.gauge name v now reg in
  (length (snd out) <= 1)%nat /\
  (forall b, b ∈ snd out ->
     Metrics.metric (Metrics.breached_threshold b) = name /\
     Metrics.actualValue b = v /\
     Metrics.breached (Metrics.breached_threshold b) v = true /\
     Metrics.lastAlert (fst out) !! name = Some now) /\
  (forall b v' now', snd out = [b] ->
     now' - now <= Metrics.cooldownMs (Metrics.breached_threshold b) ->
     snd (Metrics.gauge name v' now' (fst out)) = []).
Proof.
  cbn zeta. rewrite gauge_unfold.
  destruct (List.find (fun t => String.eqb (Metrics.metric t) name) Metrics.THRESHOLDS)
    as [t|] eqn:Hfind.
  2:{ cbn [fst snd length]. repeat split; try lia; intros; try discriminate;
      match goal with H : _ ∈ [] |- _ => apply elem_of_nil in H; contradiction end. }
  pose proof (List.find_some _ _ Hfind) as [_ Hname].
  apply String.eqb_eq in Hname.
  destruct (Metrics.breached t v) eqn:Hbr; cbn [andb].
  2:{ cbn [fst snd length]. repeat split; try lia; intros; try discriminate;
      match goal with H : _ ∈ [] |- _ => apply elem_of_nil in H; contradiction end. }
  destruct (Metrics.cooldownMs t <? now - default 0 (Metrics.lastAlert reg !! name)).
  2:{ cbn [fst snd length]. repeat split; try lia; intros; try discriminate;
      match goal with H : _ ∈ [] |- _ => apply elem_of_nil in H; contradiction end. }
  cbn [fst snd length]. split; [lia|]. split.
  - intros b Hb. apply list_elem_of_singleton in Hb. subst b.
    cbn [Metrics.breached_threshold Metrics.actualValue Metrics.lastAlert].
    rewrite lookup_insert_eq. auto.
  - intros b v' now' [= <-] Hcool. cbn [Metrics.breached_threshold] in Hcool.
    rewrite gauge_unfold, Hfind. cbn [Metrics.lastAlert].
    rewrite lookup_insert_eq. change (default 0 (Some now)) with now.
    destruct (Z.ltb_spec (Metrics.cooldownMs t) (now' - now)); [lia|].
    rewrite andb_false_r. reflexivity.
Qed.

(** ** Latency tracker *)

Section LatencyFacts.
Import LatencyTracker.

Lemma record_lookup endpoint ms now buckets :
  exists b', record endpoint ms now buckets !! endpoint = Some b' /\
    last (samples b') = Some ms /\
    (1 <= length (samples b'))%nat /\
    ((forall b, buckets !! endpoint = Some b ->
        (length (samples b) <= BUCKET_MAX)%nat) ->
     (length (samples b') <= BUCKET_MAX)%nat).
Proof.
  unfold record. rewrite lookup_insert_eq. eexists. split; [reflexivity|].
  cbn [samples].
  set (bucket := match buckets !! endpoint with
                 | Some b => if RESET_MS <? now - lastReset b
                             then {| samples := []; lastReset := now |} else b
                 | None => {| samples := []; lastReset := now |}
                 end).
  assert (Hb : (forall b, buckets !! endpoint = Some b ->
                  (length (samples b) <= BUCKET_MAX)%nat) ->
               (length (samples bucket) <= BUCKET_MAX)%nat).
  { intros H. unfold bucket. destruct (buckets !! endpoint) as [b|].
    - destruct (RESET_MS <? now - lastReset b); [cbn; lia|]. now apply H.
    - cbn. lia. }
  destruct (Nat.ltb_spec BUCKET_MAX (length (samples bucket ++ [ms]))) as [Hlt|Hge].
  - rewrite length_app in Hlt. cbn in Hlt. unfold BUCKET_MAX in *.
    destruct (samples bucket) as [|x l] eqn:El; [cbn in Hlt; lia|].
    cbn [app tail]. rewrite last_snoc. split; [reflexivity|].
    rewrite length_app. cbn. split; [lia|]. intros H. specialize (Hb H).
    cbn in Hb. lia.
  - rewrite last_snoc. split; [reflexivity|].
    rewrite length_app in *. cbn in *. split; [lia|]. intros _. lia.
Qed.

End LatencyFacts.

(** X25: a latency bucket is a bounded ring.  Whatever calls were made, a
    bucket holds between 1 and 2000 samples; the sample just recorded is
    its newest; and recording into a full bucket that is not due for a
    reset drops exactly the oldest sample. *)
Theorem latency_bucket_is_a_bounded_ring
  (calls : list (string * Q * Z)) (endpoint : string)
  (b : LatencyTracker.LatencyBucket) :
  LatencyTracker.replay calls !! endpoint = Some b ->
  (1 <= length (LatencyTracker.samples b) <= 2000)%nat /\
  (forall ms now, exists b',
     LatencyTracker.record endpoint ms now (LatencyTracker.replay calls) !! endpoint
       = Some b' /\
     last (LatencyTracker.samples b') = Some ms /\
     (length (LatencyTracker.samples b) = 2000%nat ->
      now - LatencyTracker.lastReset b <= LatencyTracker.RESET_MS ->
      LatencyTracker.samples b' = tail (LatencyTracker.samples b) ++ [ms])).
Proof.
  intros Hb.
  assert (Hinv : forall k x, LatencyTracker.replay calls !! k = Some x ->
            (1 <= length (LatencyTracker.samples x) <= LatencyTracker.BUCKET_MAX)%nat).
  { unfold LatencyTracker.replay.
    assert (Hgen : forall bs,
      (forall k x, bs !! k = Some x ->
         (1 <= length (LatencyTracker.samples x) <= LatencyTracker.BUCKET_MAX)%nat) ->
      forall k x,
        fold_left (fun buckets (c : string * Q * Z) =>
                     LatencyTracker.record c.1.1 c.1.2 c.2 buckets) calls bs !! k
          = Some x ->
        (1 <= length (LatencyTracker.samples x) <= LatencyTracker.BUCKET_MAX)%nat).
    { clear Hb. induction calls as [|[[e ms] now] calls IH]; intros bs Hbs;
        cbn [fold_left]; [exact Hbs|].
      apply IH. intros k x. cbn [fst snd].
      destruct (decide (k = e)) as [->|Hne].
      - destruct (record_lookup e ms now bs) as (b' & Hl & _ & H1 & Hmax).
        rewrite Hl. intros [= <-]. split; [exact H1|].
        apply Hmax. intros b0 Hb0. apply (Hbs e b0 Hb0).
      - unfold LatencyTracker.record. rewrite lookup_insert_ne by congruence.
        apply Hbs. }
    apply Hgen. intros k x H. rewrite lookup_empty in H. discriminate. }
  split; [apply (Hinv endpoint b Hb)|].
  intros ms now.
  destruct (record_lookup endpoint ms now (LatencyTracker.replay calls))
    as (b' & Hl & Hlast & _ & _).
  exists b'. split; [exact Hl|]. split; [exact Hlast|].
  intros Hfull Hfresh.
  unfold LatencyTracker.record in Hl. rewrite lookup_insert_eq, Hb in Hl.
  destruct (Z.ltb_spec LatencyTracker.RESET_MS (now - LatencyTracker.lastReset b));
    [lia|].
  injection Hl as <-. cbn [LatencyTracker.samples].
  rewrite length_app, Hfull. cbn.
  destruct (LatencyTracker.samples b) as [|x l]; [discriminate|]. reflexivity.
Qed.

Lemma latency_bucket_is_a_bounded_ring_witness :
  let calls := [("/sales", ratio 12 1, 1000); ("/sales", ratio 30 1, 2000)] in
  let b := {| LatencyTracker.samples := [ratio 12 1; ratio 30 1];
              LatencyTracker.lastReset := 1000 |} in
  (1 <= length (LatencyTracker.samples b) <= 2000)%nat.
Proof.
  cbn zeta.
  refine (proj1 (latency_bucket_is_a_bounded_ring
                   [("/sales", ratio 12 1, 1000); ("/sales", ratio 30 1, 2000)]
                   "/sales" _ _)).
  vm_compute. reflexivity.
Defined.

Section PercentileFacts.
Import LatencyTracker.

Lemma ascends_Qle a b : ascends a b <-> (a <= b)%Q.
Proof. unfold ascends, Qleb, Qle. apply Z.leb_le. Qed.

Lemma ascends_refl : Reflexive ascends.
Proof. intros a. apply ascends_Qle. apply Qle_refl. Qed.

Lemma ascends_trans : Transitive ascends.
Proof.
  intros a b c H1 H2. apply ascends_Qle. apply ascends_Qle in H1, H2.
  eapply Qle_trans; eassumption.
Qed.

Lemma ascends_total : Total ascends.
Proof.
  intros a b. destruct (Qlt_le_dec b a) as [H|H].
  - right. apply ascends_Qle. apply Qlt_le_weak. exact H.
  - left. apply ascends_Qle. exact H.
Qed.

Lemma ascending_sorted (l : list Q) : StronglySorted ascends (ascending l).
Proof.
  pose proof ascends_trans. pose proof ascends_total.
  apply (StronglySorted_merge_sort ascends).
Qed.

Lemma sorted_prefix_below (l : list Q) (i : nat) (v : Q) :
  StronglySorted ascends l -> l !! i = Some v ->
  (i + 1 <= length (filter (fun x => ascends x v) l))%nat.
Proof.
  intros Hs. revert i. induction Hs as [|x l Hs IH Hx]; intros i Hi;
    [rewrite lookup_nil in Hi; discriminate|].
  destruct i as [|i]; cbn in Hi.
  - injection Hi as ->. rewrite filter_cons_True by apply ascends_refl. cbn. lia.
  - rewrite filter_cons_True.
    + cbn. specialize (IH i Hi). lia.
    + apply (proj1 (Forall_forall _ _) Hx).
      eapply list_elem_of_lookup_2. exact Hi.
Qed.

Lemma percentile_index_in_range (p : Q) (n : nat) :
  (p <= ratio 100 1)%Q -> (1 <= n)%nat ->
  (Z.to_nat (Z.max 0 (Qceiling ((p / ratio 100 1) * inject_Z (Z.of_nat n))%Q - 1)) < n)%nat /\
  ((p / ratio 100 1) * inject_Z (Z.of_nat n) <=
   inject_Z (Z.of_nat
     (Z.to_nat (Z.max 0 (Qceiling ((p / ratio 100 1) * inject_Z (Z.of_nat n))%Q - 1)) + 1)))%Q.
Proof.
  intros Hp Hn.
  set (x := ((p / ratio 100 1) * inject_Z (Z.of_nat n))%Q).
  assert (Hx : (x <= inject_Z (Z.of_nat n))%Q).
  { unfold x. rewrite <- (Qmult_1_l (inject_Z (Z.of_nat n))) at 2.
    apply Qmult_le_compat_r.
    - apply Qle_shift_div_r; [reflexivity|]. rewrite Qmult_1_l. exact Hp.
    - change 0%Q with (inject_Z 0). rewrite <- Zle_Qle. lia. }
  pose proof (Qceiling_resp_le _ _ Hx) as Hc. rewrite Qceiling_Z in Hc.
  pose proof (Qle_ceiling x) as Hup.
  split; [lia|].
  eapply Qle_trans; [exact Hup|]. rewrite <- Zle_Qle. lia.
Qed.

End PercentileFacts.

Section ReportedPercentiles.
Import LatencyTracker.

(** For the three percentiles the program reports and up to 2000 samples,
    the index computed in doubles is the exact one. *)
Lemma reported_percentile_index (p : Q) (n : nat) :
  p = ratio 50 1 \/ p = ratio 95 1 \/ p = ratio 99 1 ->
  (1 <= n <= 2000)%nat ->
  exists q x,
    Double.round (p / ratio 100 1) = Some q /\
    Double.round (q * inject_Z (Z.of_nat n)) = Some x /\
    Qceiling x = Qceiling ((p / ratio 100 1) * inject_Z (Z.of_nat n))%Q.
Proof.
  intros Hp Hn.
  assert (Hall : forallb (fun p : Q => forallb (fun n : nat =>
            match Double.round (p / ratio 100 1) with
            | Some q =>
                match Double.round (q * inject_Z (Z.of_nat n)) with
                | Some x =>
                    Qceiling x
                    =? Qceiling ((p / ratio 100 1) * inject_Z (Z.of_nat n))%Q
                | None => false
                end
            | None => false
            end) (seq 1 2000)) [ratio 50 1; ratio 95 1; ratio 99 1] = true)
    by (vm_compute; reflexivity).
  rewrite forallb_forall in Hall.
  assert (Hin : In p [ratio 50 1; ratio 95 1; ratio 99 1])
    by (destruct Hp as [->|[->| ->]]; cbn; auto).
  specialize (Hall p Hin). rewrite forallb_forall in Hall.
  specialize (Hall n). cbv beta in Hall.
  assert (Hseq : In n (seq 1 2000)) by (apply in_seq; lia).
  specialize (Hall Hseq).
  destruct (Double.round (p / ratio 100 1)) as [q|] eqn:Hq in Hall;
    [|discriminate].
  destruct (Double.round (q * inject_Z (Z.of_nat n))) as [x|] eqn:Hx in Hall;
    [|discriminate].
  exists q, x. split; [exact Hq|]. split; [exact Hx|].
  apply Z.eqb_eq. exact Hall.
Qed.

End ReportedPercentiles.

(** X26: the index of [getPercentile] is computed in doubles.  For the
    percentiles the program reports (50, 95 and 99) and a bucket of 1 to
    2000 samples, it is the exact index: [getPercentile] returns the sample
    at position [ceil(p * n / 100) - 1] of the sorted samples, one of the
    recorded samples, and at least [p] percent of the samples are no larger
    than it.  For other percentiles the rounding shows: on the samples
    1, ..., 100 the percentiles 55 and 7 are 56 and 8. *)
Theorem getPercentile_covers_p_percent
  (endpoint : string) (p : Q)
  (buckets : gmap string LatencyTracker.LatencyBucket)
  (b : LatencyTracker.LatencyBucket) :
  buckets !! endpoint = Some b ->
  (1 <= length (LatencyTracker.samples b) <= 2000)%nat ->
  p = ratio 50 1 \/ p = ratio 95 1 \/ p = ratio 99 1 ->
  (exists v,
     LatencyTracker.getPercentile endpoint p buckets = Some v /\
     LatencyTracker.ascending (LatencyTracker.samples b)
       !! Z.to_nat
            (Qceiling ((p / ratio 100 1)
                       * inject_Z (Z.of_nat (length (LatencyTracker.samples b))))%Q
             - 1) = Some v /\
     v ∈ LatencyTracker.samples b /\
     ((p / ratio 100 1)
      * inject_Z (Z.of_nat (length (LatencyTracker.samples b)))
      <= inject_Z (Z.of_nat (length
           (filter (fun x => LatencyTracker.ascends x v)
              (LatencyTracker.samples b)))))%Q) /\
  LatencyTracker.getPercentile "e" (ratio 55 1)
    {[ "e" := LatencyTracker.hundred ]} = Some (ratio 56 1) /\
  LatencyTracker.getPercentile "e" (ratio 7 1)
    {[ "e" := LatencyTracker.hundred ]} = Some (ratio 8 1).
Proof.
  intros Hb Hlen Hp.
  split; [|split; vm_compute; reflexivity].
  unfold LatencyTracker.getPercentile. rewrite Hb.
  destruct (LatencyTracker.samples b) as [|s0 rest] eqn:Hs;
    [cbn in Hlen; lia|].
  cbv iota zeta. rewrite <- Hs in *. clear Hs Hb s0 rest.
  set (l := LatencyTracker.samples b) in *. clearbody l.
  assert (Hperm : LatencyTracker.ascending l ≡ₚ l)
    by apply merge_sort_Permutation.
  assert (Hsame : length (LatencyTracker.ascending l) = length l)
    by (now rewrite Hperm).
  rewrite Hsame.
  destruct (reported_percentile_index p (length l) Hp Hlen)
    as (q & x & -> & -> & ->).
  assert (Hp100 : (p <= ratio 100 1)%Q).
  { destruct Hp as [->|[->| ->]]; unfold ratio, Qle; cbn; lia. }
  assert (Hpos : (0 <= Qceiling ((p / ratio 100 1)
                                 * inject_Z (Z.of_nat (length l)))%Q - 1)).
  { assert (H0 : (0 < (p / ratio 100 1) * inject_Z (Z.of_nat (length l)))%Q).
    { apply Qmult_lt_0_compat.
      - destruct Hp as [->|[->| ->]]; reflexivity.
      - change 0%Q with (inject_Z 0). rewrite <- Zlt_Qlt. lia. }
    pose proof (Qle_ceiling ((p / ratio 100 1)
                             * inject_Z (Z.of_nat (length l)))%Q) as Hc.
    assert (H1 : (inject_Z 0 < inject_Z (Qceiling ((p / ratio 100 1)
                     * inject_Z (Z.of_nat (length l)))%Q))%Q)
      by (eapply Qlt_le_trans; [exact H0|exact Hc]).
    rewrite <- Zlt_Qlt in H1. lia. }
  rewrite (Z.max_r _ _ Hpos).
  destruct (percentile_index_in_range p (length l) Hp100 (proj1 Hlen))
    as [Hi Hcover].
  rewrite (Z.max_r _ _ Hpos) in Hi, Hcover.
  set (i := Z.to_nat (Qceiling
         ((p / ratio 100 1) * inject_Z (Z.of_nat (length l)))%Q - 1)) in *.
  rewrite <- Hsame in Hi.
  destruct (lookup_lt_is_Some_2 _ _ Hi) as [v Hv].
  exists v. split; [exact Hv|]. split; [exact Hv|]. split.
  - rewrite <- Hperm. eapply list_elem_of_lookup_2. exact Hv.
  - eapply Qle_trans; [exact Hcover|]. rewrite <- Zle_Qle.
    apply inj_le.
    rewrite <- (Permutation_length
      (filter_Permutation (fun x => LatencyTracker.ascends x v) _ _ Hperm)).
    apply sorted_prefix_below; [|exact Hv].
    apply ascending_sorted.
Qed.

Lemma getPercentile_covers_p_percent_witness :
  let b := {| LatencyTracker.samples := [ratio 30 1; ratio 12 1];
              LatencyTracker.lastReset := 0 |} in
  exists v, LatencyTracker.getPercentile "/sales" (ratio 95 1) {[ "/sales" := b ]}
            = Some v /\ v ∈ [ratio 30 1; ratio 12 1].
Proof.
  cbn zeta.
  destruct (getPercentile_covers_p_percent "/sales" (ratio 95 1)
              {[ "/sales" := {| LatencyTracker.samples := [ratio 30 1; ratio 12 1];
                                LatencyTracker.lastReset := 0 |} ]} _
              (lookup_singleton_eq _ _)) as [(v & Hv & _ & Hin & _) _].
  - cbn. lia.
  - right. left. reflexivity.
  - exists v. split; [exact Hv|exact Hin].
Defined.

(** ** Overload predictor *)

(** X27: the overload score lies between 0 and 115 and is banded at 20, 45
    and 70; each pushed signal goes with a factor that adds to the score,
    one factor alone never gives more than MEDIUM, and CRITICAL needs at
    least three of the four factors. *)
Theorem overload_score_bands (o : Overload.Readings) :
  let '(risk, score, signals) := Overload.predictOverloadRisk o in
  0 <= score <= 115 /\
  (risk = CRITICAL <-> 70 <= score) /\
  (risk = HIGH <-> 45 <= score < 70) /\
  (risk = MEDIUM <-> 20 <= score < 45) /\
  (risk = LOW <-> score < 20) /\
  Z.of_nat (length signals) <= Overload.contributing o /\
  (Overload.contributing o <= 1 -> risk = LOW \/ risk = MEDIUM) /\
  (risk = CRITICAL -> 3 <= Overload.contributing o).
Proof.
  unfold Overload.predictOverloadRisk, Overload.contributing.
  destruct (Qltb (Overload.latencyBaseline o * ratio 2 1)%Q (Overload.p95Latency o));
  destruct (Qltb (Overload.latencyBaseline o * ratio 3 2)%Q (Overload.p95Latency o));
  destruct (Qltb (ratio 85 1) (Overload.saturationPct o)) eqn:H85;
  destruct (Qltb (ratio 70 1) (Overload.saturationPct o)) eqn:H70;
  destruct (Qltb (ratio 5 100) (Overload.errorRate o)) eqn:H5;
  destruct (Qltb (ratio 1 100) (Overload.errorRate o)) eqn:H1;
  destruct (Qltb (ratio 10 1) (Overload.memGrowthMbMin o));
  try (exfalso; unfold Qltb, ratio in H85, H70; cbn in H85, H70;
       apply Z.ltb_lt in H85; apply Z.ltb_ge in H70; lia);
  try (exfalso; unfold Qltb, ratio in H5, H1; cbn in H5, H1;
       apply Z.ltb_lt in H5; apply Z.ltb_ge in H1; nia);
  cbn; repeat split; intros; try discriminate; try lia; auto.
Qed.

(** ** Leaving safe mode *)

Section SafeModeFacts.
Import Health SafeModeControl.

Lemma disableSafeMode_accepts t tok by_ st :
  snd (disableSafeMode t tok by_ st) = true ->
  system_mode (fst (disableSafeMode t tok by_ st))
  = (fun row => {| safe_mode := false; safe_mode_reason := None;
                   enabled_at := None; enabled_by := enabled_by row;
                   override_token := None; updated_at := t |})
    <$> system_mode st.
Proof.
  unfold disableSafeMode.
  destruct (refuses (system_mode st ≫= override_token) tok); [discriminate|].
  intros _. cbn [fst].
  match goal with |- context [gauge ?n ?v ?t' ?s] =>
    destruct (gauge_frame n v t' s) as (Hm & _) end.
  rewrite Hm. reflexivity.
Qed.

Lemma disableSafeMode_without_token t tok by_ st :
  system_mode st ≫= override_token = None ->
  snd (disableSafeMode t tok by_ st) = true.
Proof.
  unfold disableSafeMode. intros ->. reflexivity.
Qed.

End SafeModeFacts.

(** X28: the override token guards one exit from safe mode only.  A stored,
    non-empty token refuses every other token and leaves the state as it
    is.  An accepted [disableSafeMode] switches safe mode off, so the
    middleware lets every request through, and clears the token: from then
    on, until a new token is stored, safe mode can be engaged again and is
    left with any token or none. *)
Theorem override_token_guards_one_exit
  (t : Z) (tok : option string) (by_ : string) (st : Health.State) :
  (forall e, Health.system_mode st ≫= Health.override_token = Some e ->
     e <> "" -> tok <> Some e ->
     SafeModeControl.disableSafeMode t tok by_ st = (st, false)) /\
  (snd (SafeModeControl.disableSafeMode t tok by_ st) = true ->
   let st' := fst (SafeModeControl.disableSafeMode t tok by_ st) in
   (Health.system_mode st <> None ->
    Health.isSafeMode true st' = Resolved false) /\
   (forall req,
      Health.safeModeMiddleware (Health.isSafeMode true st') req = Health.Done) /\
   (forall t1 reason by1 t2 tok2 by2,
      snd (SafeModeControl.disableSafeMode t2 tok2 by2
             (Health.enableSafeMode t1 reason by1 st')) = true)).
Proof.
  split.
  - intros e He Hne Htok. unfold SafeModeControl.disableSafeMode.
    rewrite He. cbn [SafeModeControl.refuses].
    destruct (String.eqb_spec e ""); [contradiction|].
    rewrite bool_decide_false by congruence. reflexivity.
  - intros Hok. cbn zeta.
    pose proof (disableSafeMode_accepts t tok by_ st Hok) as Hm.
    assert (Hsafe : Health.isSafeMode true
              (fst (SafeModeControl.disableSafeMode t tok by_ st)) = Resolved false).
    { unfold Health.isSafeMode. rewrite Hm.
      destruct (Health.system_mode st); reflexivity. }
    split; [intros _; exact Hsafe|]. split.
    + intros req. rewrite Hsafe. unfold Health.safeModeMiddleware.
      destruct (negb _); [reflexivity|].
      destruct (match Health.url req with Some u => _ | None => _ end);
        reflexivity.
    + intros t1 reason by1 t2 tok2 by2.
      apply disableSafeMode_without_token.
      destruct (enableSafeMode_frame t1 reason by1
                  (fst (SafeModeControl.disableSafeMode t tok by_ st)))
        as (He & _).
      rewrite He, Hm. destruct (Health.system_mode st); reflexivity.
Qed.

Lemma override_token_guards_one_exit_witness :
  let row := {| Health.safe_mode := true;
                Health.safe_mode_reason := Some "manual";
                Health.enabled_at := Some 5; Health.enabled_by := Some "ops";
                Health.override_token := Some "s3cret";
                Health.updated_at := 5 |} in
  let st := {| Health.system_mode := Some row; Health.health_scores := [];
               Health.registry := Metrics.empty; Health.alerts := [];
               Health.alerts_bound := true |} in
  SafeModeControl.disableSafeMode 9 (Some "guess") "eve" st = (st, false) /\
  Health.isSafeMode true
    (fst (SafeModeControl.disableSafeMode 9 (Some "s3cret") "ops" st))
  = Resolved false.
Proof.
  cbn zeta. split.
  - refine (proj1 (override_token_guards_one_exit 9 (Some "guess") "eve" _)
              "s3cret" _ _ _).
    + reflexivity.
    + discriminate.
    + discriminate.
  - refine (proj1 (proj2 (override_token_guards_one_exit 9 (Some "s3cret") "ops" _) _) _).
    + reflexivity.
    + discriminate.
Defined.

(** ** Deployment gates *)

Section GateFacts.
Import DeploymentGates.

Lemma gate_p1_passes e i :
  passed (settle i (gateNoOpenP1 e)) = true <->
  exists s, incidents e = Resolved s /\ IncidentQueries.getOpenP1Count s = 0.
Proof.
  unfold gateNoOpenP1. destruct (incidents e) as [s|]; cbn.
  - rewrite Z.eqb_eq. split; [eauto|]. intros (s' & [= <-] & H). exact H.
  - split; [discriminate|]. intros (s' & [=] & _).
Qed.

Lemma gate_drift_passes e i :
  passed (settle i (gateDriftScore e)) = true <->
  exists d, drift e = Resolved d /\
            Qleb (ratio 85 1) (default (ratio 100 1) d) = true.
Proof.
  unfold gateDriftScore, Health.getDriftScore.
  destruct (drift e) as [d|]; cbn.
  - split; [eauto|]. intros (d' & [= <-] & H). exact H.
  - split; [discriminate|]. intros (d' & [=] & _).
Qed.

Lemma gate_backup_passes e i :
  passed (settle i (gateBackupFreshness e)) = true <->
  exists v, latest_backup e = Resolved (Some v) /\ now e - v < 24 * 3600000.
Proof.
  unfold gateBackupFreshness.
  destruct (latest_backup e) as [[v|]|]; cbn.
  - unfold Qltb, BACKUP_MAX_AGE_HOURS, ratio. cbn. rewrite Z.ltb_lt.
    split.
    + intros H. exists v. split; [reflexivity|lia].
    + intros (v' & [= <-] & H). lia.
  - split; [discriminate|]. intros (v' & [=] & _).
  - split; [discriminate|]. intros (v' & [=] & _).
Qed.

Lemma gate_migrations_passes e i :
  passed (settle i (gateMigrations e)) = true <-> pending e = Resolved [].
Proof.
  unfold gateMigrations. destruct (pending e) as [[|n l]|]; cbn;
    split; congruence.
Qed.

Lemma gate_coverage_passes e i :
  passed (settle i (gateCoverage e)) = true <->
  exists pct z, coverage e = Finished pct z /\ Qleb (ratio 85 1) pct = true.
Proof.
  unfold gateCoverage. destruct (coverage e) as [|pct z]; cbn.
  - split; [discriminate|]. intros (p & z' & [=] & _).
  - destruct (Qeq_bool pct (ratio 0 1) && negb z) eqn:Hz; cbn.
    + split; [discriminate|]. intros (p & z' & [= <- <-] & H).
      apply andb_true_iff in Hz as [Hz _].
      unfold Qeq_bool, Qleb, ratio in *. cbn in *.
      apply Z.leb_le in H. apply Z.eqb_eq in Hz. lia.
    + unfold COVERAGE_THRESHOLD. split; [eauto|].
      intros (p & z' & [= <- <-] & H). exact H.
Qed.

Lemma every_gate_blocks e skip g :
  In g (imap settle (checks e skip)) -> blocking g = true.
Proof.
  intros Hg. apply list_elem_of_In in Hg.
  apply elem_of_lookup_imap in Hg as (i & q & -> & Hq).
  apply list_elem_of_lookup_2 in Hq.
  assert (Hall : Forall (fun q => blocking (settle i q) = true) (checks e skip)).
  { unfold checks. apply Forall_app. split.
    - repeat constructor.
      + unfold gateNoOpenP1. destruct (incidents e); reflexivity.
      + unfold gateDriftScore. destruct (Health.getDriftScore (drift e)); reflexivity.
      + unfold gateBackupFreshness. destruct (latest_backup e) as [[v|]|]; reflexivity.
      + unfold gateMigrations. destruct (pending e); reflexivity.
    - destruct skip; repeat constructor.
      unfold gateCoverage. destruct (coverage e) as [|pct z]; [reflexivity|].
      destruct (Qeq_bool pct (ratio 0 1) && negb z); reflexivity. }
  apply (proj1 (Forall_forall _ _) Hall q Hq).
Qed.

Lemma filter_nil_forallb {A} (f : A -> bool) (l : list A) :
  List.filter f l = [] <-> forallb (fun x => negb (f x)) l = true.
Proof.
  induction l as [|x l IH]; cbn; [tauto|].
  destruct (f x); cbn; [split; discriminate|exact IH].
Qed.

Lemma approved_iff_no_blockers e by_ skip st :
  insert_ok e = true ->
  (fst (runDeploymentGates e by_ skip st) = Approved <->
   forallb passed (imap settle (checks e skip)) = true) /\
  (fst (runDeploymentGates e by_ skip st) = Approved \/
   fst (runDeploymentGates e by_ skip st) = Blocked).
Proof.
  intros Hins. unfold runDeploymentGates. rewrite Hins. cbn [negb].
  set (gates := imap settle (checks e skip)).
  set (blockers := List.filter (fun g => negb (passed g) && blocking g) gates).
  assert (Hb : blockers = [] <-> forallb passed gates = true).
  { unfold blockers. rewrite filter_nil_forallb.
    rewrite !forallb_forall. split; intros H g Hg; specialize (H g Hg);
      rewrite (every_gate_blocks e skip g Hg) in *;
      destruct (passed g); cbn in *; congruence. }
  destruct blockers as [|b bs]; cbn [length Nat.ltb Nat.leb fst].
  - split; [|left; reflexivity]. split; [intros _; apply Hb; reflexivity|reflexivity].
  - split; [|right; reflexivity]. split; [discriminate|].
    intros H. apply Hb in H. discriminate.
Qed.

End GateFacts.

(** X29: when the gate log can be written, a deployment is approved exactly
    when there is no open P1 incident, the latest drift score (100 when
    there is none) is at least 85, the latest passed backup validation is
    less than 24 hours old, the error rate is at most 3%, no migration is
    pending and, unless coverage is skipped, line coverage is at least 85;
    a check that rejects blocks the deployment.  Either way one row is
    logged whose flag tells the decision, and only a blocked run alerts,
    once and as CRITICAL. *)
Theorem deployment_approved_iff_all_gates_pass
  (e : DeploymentGates.Env) (by_ : option string) (skip : bool)
  (st : DeploymentGates.State) :
  DeploymentGates.insert_ok e = true ->
  let out := DeploymentGates.runDeploymentGates e by_ skip st in
  (fst out = DeploymentGates.Approved <->
     (exists s, DeploymentGates.incidents e = Resolved s /\
                IncidentQueries.getOpenP1Count s = 0) /\
     (exists d, DeploymentGates.drift e = Resolved d /\
                Qleb (ratio 85 1) (default (ratio 100 1) d) = true) /\
     (exists v, DeploymentGates.latest_backup e = Resolved (Some v) /\
                DeploymentGates.now e - v < 24 * 3600000) /\
     Qleb (Metrics.getGauge "http.error_rate" (DeploymentGates.registry e))
          (ratio 3 100) = true /\
     DeploymentGates.pending e = Resolved [] /\
     (skip = true \/
      exists pct z, DeploymentGates.coverage e = DeploymentGates.Finished pct z /\
                    Qleb (ratio 85 1) pct = true)) /\
  (fst out <> DeploymentGates.Approved -> fst out = DeploymentGates.Blocked) /\
  (exists row,
     DeploymentGates.deployment_gates (snd out)
       = DeploymentGates.deployment_gates st ++ [row] /\
     (DeploymentGates.row_passed row = true
      <-> fst out = DeploymentGates.Approved)) /\
  (fst out = DeploymentGates.Approved ->
     DeploymentGates.alerts (snd out) = DeploymentGates.alerts st) /\
  (fst out = DeploymentGates.Blocked ->
     exists a, DeploymentGates.alerts (snd out) = DeploymentGates.alerts st ++ [a] /\
               alert_severity a = CRITICAL).
Proof.
  intros Hins. cbn zeta.
  destruct (approved_iff_no_blockers e by_ skip st Hins) as [Hiff Hcases].
  split; [|split; [|split; [|split]]].
  - rewrite Hiff. unfold DeploymentGates.checks.
    destruct skip; cbn [app imap forallb compose];
      rewrite !andb_true_iff;
      rewrite gate_p1_passes, gate_drift_passes, gate_backup_passes,
        gate_migrations_passes; try rewrite gate_coverage_passes;
      cbn [DeploymentGates.settle DeploymentGates.gateErrorRate
           DeploymentGates.passed];
      unfold DeploymentGates.ERROR_RATE_THRESHOLD;
      intuition (try discriminate; auto).
  - destruct Hcases as [H|H]; [contradiction|auto].
  - unfold DeploymentGates.runDeploymentGates in *. rewrite Hins in *.
    cbn [negb] in *.
    destruct (List.filter _ _) as [|b bs]; cbn [length Nat.ltb Nat.leb Nat.eqb fst snd
      DeploymentGates.deployment_gates];
      eexists; (split; [reflexivity|]); cbn; split; congruence.
  - unfold DeploymentGates.runDeploymentGates. rewrite Hins. cbn [negb].
    destruct (List.filter _ _) as [|b bs]; cbn; [reflexivity|discriminate].
  - unfold DeploymentGates.runDeploymentGates. rewrite Hins. cbn [negb].
    destruct (List.filter _ _) as [|b bs]; cbn [length Nat.ltb Nat.leb fst snd
      DeploymentGates.alerts]; [discriminate|].
    intros _. eexists. split; reflexivity.
Qed.

Lemma deployment_approved_iff_all_gates_pass_witness :
  let e := {| DeploymentGates.now := 90000000;
              DeploymentGates.incidents :=
                Resolved {| Incident.incidents := ∅; Incident.alerts := [] |};
              DeploymentGates.drift := Resolved None;
              DeploymentGates.latest_backup := Resolved (Some 80000000);
              DeploymentGates.registry := Metrics.empty;
              DeploymentGates.pending := Resolved [];
              DeploymentGates.coverage := DeploymentGates.SpawnThrew;
              DeploymentGates.insert_ok := true |} in
  let st := {| DeploymentGates.deployment_gates := [];
               DeploymentGates.alerts := [] |} in
  fst (DeploymentGates.runDeploymentGates e (Some "bootstrap") false st)
    <> DeploymentGates.Approved /\
  fst (DeploymentGates.runDeploymentGates e (Some "bootstrap") true st)
    = DeploymentGates.Approved.
Proof.
  intros e st. split.
  - intros H.
    apply (proj1 (proj1 (deployment_approved_iff_all_gates_pass
                           e (Some "bootstrap") false st eq_refl))) in H.
    destruct H as (_ & _ & _ & _ & _ & [H|(pct & z & H & _)]); discriminate.
  - apply (proj2 (proj1 (deployment_approved_iff_all_gates_pass
                           e (Some "bootstrap") true st eq_refl))).
    repeat split; eauto.
    eexists. split; [reflexivity|]. cbn. lia.
Defined.

(** ** Rollback watcher *)

Section WatcherFacts.
Import RollbackWatcher.

Lemma check_detects r w :
  unset (spikeDetectedAt w) = true ->
  errorSpike w r || latencySpike w r = true ->
  check r w = (detected (Some (at_ms r)) w, false).
Proof. intros Hun Hsp. unfold check. rewrite Hsp, Hun. reflexivity. Qed.

Lemma check_keeps_waiting r w t0 :
  t0 <> 0 ->
  errorSpike w r || latencySpike w r = true ->
  at_ms r - t0 <= 60000 ->
  check r (detected (Some t0) w) = (detected (Some t0) w, false).
Proof.
  intros Ht Hsp Hle. unfold check.
  change (errorSpike (detected (Some t0) w) r) with (errorSpike w r).
  change (latencySpike (detected (Some t0) w) r) with (latencySpike w r).
  rewrite Hsp. cbn [detected spikeDetectedAt unset].
  change (default 0 (Some t0)) with t0.
  destruct (Z.eqb_spec t0 0); [contradiction|].
  destruct (Z.ltb_spec 60000 (at_ms r - t0)); [lia|]. reflexivity.
Qed.

Lemma check_begins r w t0 :
  t0 <> 0 ->
  errorSpike w r || latencySpike w r = true ->
  60000 < at_ms r - t0 ->
  check r (detected (Some t0) w) = (detected (Some t0) w, true).
Proof.
  intros Ht Hsp Hlate. unfold check.
  change (errorSpike (detected (Some t0) w) r) with (errorSpike w r).
  change (latencySpike (detected (Some t0) w) r) with (latencySpike w r).
  rewrite Hsp. cbn [detected spikeDetectedAt unset].
  change (default 0 (Some t0)) with t0.
  destruct (Z.eqb_spec t0 0); [contradiction|].
  destruct (Z.ltb_spec 60000 (at_ms r - t0)); [|lia]. reflexivity.
Qed.

(** Checks made while the spike is younger than 60 seconds change
    nothing. *)
Lemma run_while_waiting quiet w t0 s :
  watching w = true -> t0 <> 0 ->
  watcher s = detected (Some t0) w ->
  Forall (fun x => errorSpike w x || latencySpike w x = true
                   /\ at_ms x - t0 <= 60000) quiet ->
  run (map Tick quiet) s = Some s.
Proof.
  intros Hw Ht Hs. induction 1 as [|x quiet [Hsp Hle] _ IH]; [reflexivity|].
  cbn [map run step]. rewrite Hs. cbn [detected watching]. rewrite Hw.
  rewrite (check_keeps_waiting x w t0 Ht Hsp Hle), <- Hs.
  destruct s; exact IH.
Qed.

(** Once the timer is cleared no reading is checked. *)
Lemma run_stopped rest s :
  watching (watcher s) = false -> run (map Tick rest) s = Some s.
Proof.
  intros Hw. induction rest as [|x rest IH]; [reflexivity|].
  cbn [map run step]. rewrite Hw. exact IH.
Qed.

End WatcherFacts.

(** X30: a check begins the rollback sequence (alert, P1 incident, [stop()],
    [rollbackFn()]) at the first reading taken strictly more than 60 seconds
    after the one that first saw the spike, provided every check in between
    saw a spike too: checks up to and including the one at 60 seconds only
    wait.  Beginning the sequence calls the webhook and nothing else.  When
    the alert and the incident resolve before the timer fires again, the
    timer is cleared, [rollbackFn] is called once, and no later reading is
    checked.  When the alert or the incident rejects, [rollbackFn] is not
    called and the timer stays set.  When the timer fires again, on a spike,
    while the first check is still suspended, both checks go through and
    [rollbackFn] is called twice. *)
Theorem rollback_needs_more_than_60s_of_spike
  (w : RollbackWatcher.Watcher) (r0 r r' : RollbackWatcher.Reading)
  (quiet rest : list RollbackWatcher.Reading) :
  RollbackWatcher.watching w = true ->
  RollbackWatcher.unset (RollbackWatcher.spikeDetectedAt w) = true ->
  RollbackWatcher.at_ms r0 <> 0 ->
  RollbackWatcher.errorSpike w r0 || RollbackWatcher.latencySpike w r0 = true ->
  Forall (fun x =>
            RollbackWatcher.errorSpike w x || RollbackWatcher.latencySpike w x = true
            /\ RollbackWatcher.at_ms x - RollbackWatcher.at_ms r0 <= 60000) quiet ->
  RollbackWatcher.errorSpike w r || RollbackWatcher.latencySpike w r = true ->
  60000 < RollbackWatcher.at_ms r - RollbackWatcher.at_ms r0 ->
  RollbackWatcher.errorSpike w r' || RollbackWatcher.latencySpike w r' = true ->
  60000 < RollbackWatcher.at_ms r' - RollbackWatcher.at_ms r0 ->
  let w1 := RollbackWatcher.detected (Some (RollbackWatcher.at_ms r0)) w in
  let state l a i k v :=
    {| RollbackWatcher.watcher := v; RollbackWatcher.inflight := l;
       RollbackWatcher.alerts := a; RollbackWatcher.incidents := i;
       RollbackWatcher.rollbacks := k |} in
  let begun := state [RollbackWatcher.AwaitAlert] 1%nat 0%nat 0%nat w1 in
  RollbackWatcher.run (map RollbackWatcher.Tick (r0 :: quiet))
    (RollbackWatcher.started w)
  = Some (RollbackWatcher.started w1) /\
  RollbackWatcher.run [RollbackWatcher.Tick r] (RollbackWatcher.started w1)
  = Some begun /\
  RollbackWatcher.run
    ([RollbackWatcher.Settle 0 true; RollbackWatcher.Settle 0 true]
     ++ map RollbackWatcher.Tick rest) begun
  = Some (state [RollbackWatcher.AwaitRollback] 1%nat 1%nat 1%nat
            (RollbackWatcher.stop w1)) /\
  RollbackWatcher.run [RollbackWatcher.Settle 0 false] begun
  = Some (state [] 1%nat 0%nat 0%nat w1) /\
  RollbackWatcher.run
    [RollbackWatcher.Settle 0 true; RollbackWatcher.Settle 0 false] begun
  = Some (state [] 1%nat 1%nat 0%nat w1) /\
  RollbackWatcher.run
    [RollbackWatcher.Tick r';
     RollbackWatcher.Settle 0 true; RollbackWatcher.Settle 1 true;
     RollbackWatcher.Settle 0 true; RollbackWatcher.Settle 1 true] begun
  = Some (state [RollbackWatcher.AwaitRollback; RollbackWatcher.AwaitRollback]
            2%nat 2%nat 2%nat (RollbackWatcher.stop w1)).
Proof.
  intros Hw Hun Ht0 Hsp0 Hquiet Hsp Hlate Hsp' Hlate'. cbn zeta.
  assert (Hw1 : RollbackWatcher.watching
                  (RollbackWatcher.detected (Some (RollbackWatcher.at_ms r0)) w)
                = true) by exact Hw.
  split; [|split; [|split; [|split; [|split]]]].
  - cbn [map RollbackWatcher.run RollbackWatcher.step RollbackWatcher.started
           RollbackWatcher.watcher].
    rewrite Hw, (check_detects r0 w Hun Hsp0).
    apply (run_while_waiting quiet w (RollbackWatcher.at_ms r0));
      [exact Hw|exact Ht0|reflexivity|exact Hquiet].
  - cbn [RollbackWatcher.run RollbackWatcher.step RollbackWatcher.started
           RollbackWatcher.watcher].
    rewrite Hw1, (check_begins r w _ Ht0 Hsp Hlate). reflexivity.
  - cbn [app RollbackWatcher.run RollbackWatcher.step].
    cbn [RollbackWatcher.inflight lookup list_lookup].
    apply run_stopped. reflexivity.
  - reflexivity.
  - reflexivity.
  - cbn [RollbackWatcher.run RollbackWatcher.step RollbackWatcher.watcher].
    rewrite Hw1, (check_begins r' w _ Ht0 Hsp' Hlate'). reflexivity.
Qed.

Lemma rollback_needs_more_than_60s_of_spike_witness :
  let w := {| RollbackWatcher.baselineErrorRate := ratio 1 100;
              RollbackWatcher.baselineP95 := ∅;
              RollbackWatcher.spikeDetectedAt := None;
              RollbackWatcher.watching := true |} in
  let at_ t := {| RollbackWatcher.at_ms := t;
                  RollbackWatcher.currentError := ratio 10 100;
                  RollbackWatcher.latencies := [] |} in
  RollbackWatcher.run
    (map RollbackWatcher.Tick [at_ 1000; at_ 31000; at_ 61000; at_ 91000]
     ++ [RollbackWatcher.Settle 0 true; RollbackWatcher.Settle 0 true;
         RollbackWatcher.Tick (at_ 121000)])
    (RollbackWatcher.started w)
  = Some {| RollbackWatcher.watcher :=
              RollbackWatcher.stop
                (RollbackWatcher.detected (Some 1000) w);
            RollbackWatcher.inflight := [RollbackWatcher.AwaitRollback];
            RollbackWatcher.alerts := 1;
            RollbackWatcher.incidents := 1;
            RollbackWatcher.rollbacks := 1 |} /\
  RollbackWatcher.run
    (map RollbackWatcher.Tick [at_ 1000; at_ 31000; at_ 61000])
    (RollbackWatcher.started w)
  = Some (RollbackWatcher.started (RollbackWatcher.detected (Some 1000) w)).
Proof.
  intros w at_. split; [vm_compute; reflexivity|].
  refine (proj1 (rollback_needs_more_than_60s_of_spike w (at_ 1000) (at_ 91000)
                   (at_ 121000) [at_ 31000; at_ 61000] [at_ 121000]
                   _ _ _ _ _ _ _ _ _)).
  - reflexivity.
  - reflexivity.
  - cbn. lia.
  - reflexivity.
  - repeat constructor; cbn; lia.
  - reflexivity.
  - cbn. lia.
  - reflexivity.
  - cbn. lia.
Defined.
